(** * IMU telemetry server: wire codec, poll loop and movement metrics

    A shallow embedding of [imu_server/IMU_server.py] (class [IMU_Server]).

    - Bytes on the wire are integers in [0, 256); a frame is a [list Z].
    - A Python [float] held by the server is an IEEE-754 datum, modelled by
      [spec_float].  Every float the server stores is either the literal
      [0.0] or the result of [struct.unpack('<f', ...)], so it is always a
      binary32 value widened to binary64 (the widening is exact).
    - numpy arithmetic on those values is modelled over [f64]: exact
      rationals extended with the two infinities and NaN.  Rounding and
      overflow of finite float64 arithmetic are abstracted; the special
      values (NaN from an empty mean, infinities) follow IEEE-754.
    - [self] is the record [IMU_Server]; the outside world (clock, socket
      traffic, log file) is the record [World]; methods are computations in
      a small state-and-exception monad [M]. *)

From Stdlib Require Import String ZArith QArith Qabs Qminmax List Bool Lia Lqa.
From Stdlib Require Import SpecFloat.
Import ListNotations.

Local Open Scope Z_scope.

(** ** Wire codec (the [struct] formats used by the server) *)

Module Codec.

Definition byte := Z.

Definition is_byte (b : byte) : Prop := 0 <= b < 256.

(** Little-endian unsigned integer held by a byte string. *)
Fixpoint le_uint (bs : list byte) : Z :=
  match bs with
  | [] => 0
  | b :: rest => b + 256 * le_uint rest
  end.

(** The [n] little-endian bytes of [v]. *)
Fixpoint le_bytes (n : nat) (v : Z) : list byte :=
  match n with
  | O => []
  | S k => v mod 256 :: le_bytes k (v / 256)
  end.

(** IEEE-754 binary32: sign bit 31, exponent bits 30..23, fraction bits
    22..0. *)
Definition f32_of_bits (w : Z) : spec_float :=
  let s := Z.testbit w 31 in
  let e := Z.land (Z.shiftr w 23) 255 in
  let m := Z.land w (Z.ones 23) in
  if e =? 0 then
    match m with
    | Zpos p => S754_finite s p (-149)
    | _ => S754_zero s
    end
  else if e =? 255 then
    if m =? 0 then S754_infinity s else S754_nan
  else
    match m + 2 ^ 23 with
    | Zpos p => S754_finite s p (e - 150)
    | _ => S754_nan
    end.

Definition sign_bit (s : bool) : Z := if s then 2 ^ 31 else 0.

Definition bits_of_f32 (x : spec_float) : Z :=
  match x with
  | S754_zero s => sign_bit s
  | S754_infinity s => sign_bit s + 255 * 2 ^ 23
  | S754_nan => 255 * 2 ^ 23 + 2 ^ 22
  | S754_finite s m e =>
      if 2 ^ 23 <=? Zpos m
      then sign_bit s + (e + 150) * 2 ^ 23 + (Zpos m - 2 ^ 23)
      else sign_bit s + Zpos m
  end.

(** The binary32 values: normal numbers carry a 24-bit significand,
    subnormals sit at the least exponent. *)
Definition is_f32 (x : spec_float) : Prop :=
  match x with
  | S754_finite _ m e =>
      (2 ^ 23 <= Zpos m < 2 ^ 24 /\ -149 <= e <= 104)
      \/ (Zpos m < 2 ^ 23 /\ e = -149)
  | _ => True
  end.

(** [struct.unpack('<f', b)] and [struct.pack('<f', x)] for four bytes. *)
Definition unpack_f (bs : list byte) : spec_float := f32_of_bits (le_uint bs).
Definition pack_f (x : spec_float) : list byte := le_bytes 4 (bits_of_f32 x).

(** [struct.unpack('<H', b)] and [struct.pack('<H', v)] for two bytes. *)
Definition unpack_H (bs : list byte) : Z := le_uint bs.
Definition pack_H (v : Z) : list byte := le_bytes 2 v.

(** [struct.unpack('<fff', payload)]: raises [struct.error] ([None]) unless
    the buffer holds exactly 12 bytes. *)
Definition unpack_fff (payload : list byte)
  : option (spec_float * spec_float * spec_float) :=
  match payload with
  | [a0; a1; a2; a3; b0; b1; b2; b3; c0; c1; c2; c3] =>
      Some (unpack_f [a0; a1; a2; a3],
            unpack_f [b0; b1; b2; b3],
            unpack_f [c0; c1; c2; c3])
  | _ => None
  end.

(** [struct.unpack('<6H', payload)]. *)
Definition unpack_6H (payload : list byte) : option (list Z) :=
  match payload with
  | [a0; a1; b0; b1; c0; c1; d0; d1; e0; e1; f0; f1] =>
      Some [unpack_H [a0; a1]; unpack_H [b0; b1]; unpack_H [c0; c1];
            unpack_H [d0; d1]; unpack_H [e0; e1]; unpack_H [f0; f1]]
  | _ => None
  end.

(** [struct.pack('<B3s', request_type, req_payload)]: one unsigned byte
    followed by a 3-byte string (padded with NULs or truncated);
    [struct.error] when the first field does not fit a byte. *)
Definition pack_B3s (v : Z) (s : list byte) : option (list byte) :=
  if (0 <=? v) && (v <=? 255)
  then Some (v :: firstn 3 (s ++ [0; 0; 0]))
  else None.

(** Modelled from the spec: the device firmware that produces the response
    payloads is not part of the repository; per the wire contract a sensor
    payload is three little-endian binary32 values and an auxiliary-game
    payload is six little-endian 16-bit unsigned integers. *)
Definition pack_fff (x y z : spec_float) : list byte :=
  pack_f x ++ pack_f y ++ pack_f z.

Definition pack_6H (vs : list Z) : list byte := concat (map pack_H vs).

End Codec.

Import Codec.

(** ** numpy arithmetic on float64 values *)

(** A float64 value: an exact rational, an infinity (with its sign, [true]
    for the negative one) or NaN.  The operations keep rationals in lowest
    terms ([Qred]), which does not change their value. *)
Inductive f64 : Type :=
  | Fin (q : Q)
  | Inf (neg : bool)
  | NaN.

Definition Qltb (a b : Q) : bool := negb (Qle_bool b a).

Definition f64_of_Z (z : Z) : f64 := Fin (inject_Z z).

(** Value of a stored Python float. *)
Definition f64_of_float (x : spec_float) : f64 :=
  match x with
  | S754_zero _ => Fin 0
  | S754_infinity s => Inf s
  | S754_nan => NaN
  | S754_finite s m e =>
      let a := (inject_Z (Zpos m) * Qpower 2 e)%Q in
      Fin (Qred (if s then Qopp a else a))
  end.

Definition fneg (a : f64) : f64 :=
  match a with
  | Fin q => Fin (Qopp q)
  | Inf s => Inf (negb s)
  | NaN => NaN
  end.

Definition fadd (a b : f64) : f64 :=
  match a, b with
  | NaN, _ | _, NaN => NaN
  | Fin x, Fin y => Fin (Qred (x + y))
  | Inf s, Fin _ | Fin _, Inf s => Inf s
  | Inf s, Inf t => if Bool.eqb s t then Inf s else NaN
  end.

Definition fsub (a b : f64) : f64 := fadd a (fneg b).

Definition fmul (a b : f64) : f64 :=
  match a, b with
  | NaN, _ | _, NaN => NaN
  | Fin x, Fin y => Fin (Qred (x * y))
  | Inf s, Fin y | Fin y, Inf s =>
      if Qeq_bool y 0 then NaN else Inf (xorb s (Qltb y 0))
  | Inf s, Inf t => Inf (xorb s t)
  end.

(** numpy's true division: a zero divisor yields an infinity or NaN (with a
    warning), never an exception. *)
Definition fdiv (a b : f64) : f64 :=
  match a, b with
  | NaN, _ | _, NaN => NaN
  | Fin x, Fin y =>
      if Qeq_bool y 0
      then (if Qeq_bool x 0 then NaN else Inf (Qltb x 0))
      else Fin (Qred (x / y))
  | Fin _, Inf _ => Fin 0
  | Inf s, Fin y => Inf (xorb s (Qltb y 0))
  | Inf _, Inf _ => NaN
  end.

Definition fabs (a : f64) : f64 :=
  match a with
  | Fin q => Fin (Qabs q)
  | Inf _ => Inf false
  | NaN => NaN
  end.

(** [a > b]; every comparison with NaN is false. *)
Definition fgt (a b : f64) : bool :=
  match a, b with
  | NaN, _ | _, NaN => false
  | Fin x, Fin y => Qltb y x
  | Inf s, Fin _ => negb s
  | Fin _, Inf t => t
  | Inf s, Inf t => negb s && t
  end.

(** Python's [max(a, b)]: keeps the first argument unless the second
    compares greater. *)
Definition py_max (a b : f64) : f64 := if fgt b a then b else a.

Definition np_array (l : list spec_float) : list f64 := map f64_of_float l.

Definition np_count (a : list f64) : f64 := f64_of_Z (Z.of_nat (length a)).

Definition np_sum (a : list f64) : f64 := fold_left fadd a (Fin 0).

(** [np.mean]: the sum over the count; NaN on an empty array. *)
Definition np_mean (a : list f64) : f64 := fdiv (np_sum a) (np_count a).

(** [np.var] (population variance, ddof = 0). *)
Definition np_var (a : list f64) : f64 :=
  let arrmean := fdiv (np_sum a) (np_count a) in
  let x := map (fun v => fsub v arrmean) a in
  fdiv (np_sum (map (fun d => fmul d d) x)) (np_count a).

(** [np.diff]: [out[i] = a[i+1] - a[i]]. *)
Fixpoint np_diff (a : list f64) : list f64 :=
  match a with
  | x :: (y :: _) as rest => fsub y x :: np_diff rest
  | _ => []
  end.

Definition np_abs (a : list f64) : list f64 := map fabs a.

(** ** Server state *)

Definition pyfloat := spec_float.

Definition zero_float : pyfloat := S754_zero false.

(** [self.full_dataset]: a dict with eleven fixed keys, each a list. *)
Record Dataset : Type := {
  acc_x : list pyfloat;  acc_y : list pyfloat;  acc_z : list pyfloat;
  gyro_x : list pyfloat; gyro_y : list pyfloat; gyro_z : list pyfloat;
  mag_x : list pyfloat;  mag_y : list pyfloat;  mag_z : list pyfloat;
  timestamps : list Q;
  reaction_times : list pyfloat
}.

Definition empty_dataset : Dataset :=
  {| acc_x := []; acc_y := []; acc_z := [];
     gyro_x := []; gyro_y := []; gyro_z := [];
     mag_x := []; mag_y := []; mag_z := [];
     timestamps := []; reaction_times := [] |}.

(** The fields of [self] that the acquisition loop reads or writes.  A
    connected client socket is identified by the ordinal of its accept. *)
Record IMU_Server : Type := {
  client_socket : option nat;
  full_dataset : Dataset;
  last_accel_x : pyfloat; last_accel_y : pyfloat; last_accel_z : pyfloat;
  last_gyro_x : pyfloat;  last_gyro_y : pyfloat;  last_gyro_z : pyfloat;
  last_mag_x : pyfloat;   last_mag_y : pyfloat;   last_mag_z : pyfloat
}.

(** [IMU_Server.__init__]. *)
Definition init_server : IMU_Server :=
  {| client_socket := None;
     full_dataset := empty_dataset;
     last_accel_x := zero_float; last_accel_y := zero_float;
     last_accel_z := zero_float;
     last_gyro_x := zero_float; last_gyro_y := zero_float;
     last_gyro_z := zero_float;
     last_mag_x := zero_float; last_mag_y := zero_float;
     last_mag_z := zero_float |}.

Definition REQUEST_SIZE : Z := 4.
Definition RESPONSE_PAYLOAD_SIZE : nat := 12.
Definition REQ_READ_ACCELERATION : Z := 0x51.
Definition REQ_READ_GYROSCOPE : Z := 0x52.
Definition REQ_READ_MAGNETOMETER : Z := 0x53.
Definition REQ_START_LED_GAME : Z := 0x54.

(** ** Metrics *)

Definition _calculate_stability_index (d : Dataset) : f64 :=
  match acc_x d with
  | [] => Fin 0
  | _ :: _ =>
      let var_x := np_var (np_array (acc_x d)) in
      let var_y := np_var (np_array (acc_y d)) in
      let var_z := np_var (np_array (acc_z d)) in
      let avg_variance := fdiv (fadd (fadd var_x var_y) var_z) (f64_of_Z 3) in
      py_max (f64_of_Z 0)
             (fsub (f64_of_Z 100) (fmul avg_variance (f64_of_Z 10)))
  end.

Definition _calculate_movement_efficiency (d : Dataset) : f64 :=
  match gyro_x d with
  | [] => Fin 0
  | _ :: _ =>
      let jerk_x := np_diff (np_array (gyro_x d)) in
      let jerk_y := np_diff (np_array (gyro_y d)) in
      let jerk_z := np_diff (np_array (gyro_z d)) in
      let avg_jerk :=
        fdiv (fadd (fadd (np_mean (np_abs jerk_x)) (np_mean (np_abs jerk_y)))
                   (np_mean (np_abs jerk_z)))
             (f64_of_Z 3) in
      py_max (f64_of_Z 0)
             (fsub (f64_of_Z 100) (fmul avg_jerk (f64_of_Z 20)))
  end.

Record Metrics : Type := {
  stability : f64;
  efficiency : f64;
  reaction : f64
}.

Definition _calculate_technical_metrics (d : Dataset) : Metrics :=
  {| stability := _calculate_stability_index d;
     efficiency := _calculate_movement_efficiency d;
     reaction := Fin 0 |}.

(** ** The outside world *)

Inductive exn : Type :=
  | OSError        (* socket send or recv failed *)
  | IOError        (* the log file could not be written *)
  | StructError.   (* struct.pack / struct.unpack rejected its argument *)

(** What one call of [socket.recv] yields: some bytes (possibly fewer than
    asked for, possibly none when the peer has closed) or an exception. *)
Inductive recv_result : Type :=
  | RecvData (bs : list byte)
  | RecvFail.

Inductive LogData : Type :=
  | DataXYZ (x y z : pyfloat)
  | DataLedGame (red_on red_success green_on green_success
                 blue_on blue_success : Z).

(** One line of [sensor_metrics.json] (the wall-clock ["timestamp"] field
    is left out). *)
Record LogEntry : Type := {
  entry_type : string;
  entry_data : LogData
}.

(** The trace: a chronological record of what the server did on its
    sockets, kept for the statements below.  [EvRecv] marks the point where
    [receive_response] holds a complete 12-byte payload, [EvCycle] the end
    of a loop iteration, [EvReport] the report [start] generates. *)
Inductive Event : Type :=
  | EvAccept (c : nat)                      (* accept() returned client c *)
  | EvSend (c : nat) (frame : list byte)    (* frame handed to the socket *)
  | EvRecv (resp_type : byte) (payload : list byte)
                                            (* complete response received *)
  | EvClose (c : nat)                       (* client socket closed *)
  | EvCycle                                 (* a loop iteration completed *)
  | EvReport (m : Metrics).                 (* report generated *)

(** The environment is scripted: [clock] gives the successive readings of
    [time.time()], the three scripts give the outcome of the successive
    socket sends ([true]: sent), socket receives and log-file writes
    ([true]: written).  A script that has run out answers "sent", "no
    bytes", "written".  Binding, listening and accepting always succeed. *)
Record World : Type := {
  clock : nat -> Q;
  ticks : nat;
  send_script : list bool;
  recv_script : list recv_result;
  write_script : list bool;
  accepted : nat;
  log_file : list LogEntry;
  trace : list Event
}.

Record State : Type := {
  self : IMU_Server;
  world : World
}.

(** ** State-and-exception monad *)

(** A computation returns, raises, or is cut short at a loop head when its
    iteration budget is used up; the state reached is kept in each case. *)
Inductive Res (A : Type) : Type :=
  | Ok (a : A) (s : State)
  | Exn (e : exn) (s : State)
  | Cut (s : State).

Arguments Ok {A} a s.
Arguments Exn {A} e s.
Arguments Cut {A} s.

Definition M (A : Type) : Type := State -> Res A.

Definition ret {A} (a : A) : M A := fun s => Ok a s.

Definition bind {A B} (m : M A) (k : A -> M B) : M B :=
  fun s =>
    match m s with
    | Ok a s' => k a s'
    | Exn e s' => Exn e s'
    | Cut s' => Cut s'
    end.

Definition raise {A} (e : exn) : M A := fun s => Exn e s.

Definition cut {A} : M A := fun s => Cut s.

(** [try: body / except Exception: handler]. *)
Definition try_except {A} (body : M A) (handler : exn -> M A) : M A :=
  fun s =>
    match body s with
    | Exn e s' => handler e s'
    | r => r
    end.

Declare Scope monad_scope.
Delimit Scope monad_scope with monad.
Notation "x <- m ;; k" := (bind m (fun x => k))
  (at level 61, m at next level, right associativity) : monad_scope.
Notation "m ;; k" := (bind m (fun _ => k))
  (at level 61, right associativity) : monad_scope.
Local Open Scope monad_scope.

Definition get_self : M IMU_Server := fun s => Ok (self s) s.

Definition modify_self (f : IMU_Server -> IMU_Server) : M unit :=
  fun s => Ok tt {| self := f (self s); world := world s |}.

Definition get_world : M World := fun s => Ok (world s) s.

Definition put_world (w : World) : M unit :=
  fun s => Ok tt {| self := self s; world := w |}.

Definition state_of {A} (r : Res A) : State :=
  match r with
  | Ok _ s | Exn _ s | Cut s => s
  end.

(** *** Primitive actions on the world *)

Definition emit (e : Event) : M unit :=
  w <- get_world ;;
  put_world {| clock := clock w; ticks := ticks w;
               send_script := send_script w; recv_script := recv_script w;
               write_script := write_script w; accepted := accepted w;
               log_file := log_file w; trace := trace w ++ [e] |}.

(** [time.time()]. *)
Definition time_time : M Q :=
  w <- get_world ;;
  put_world {| clock := clock w; ticks := S (ticks w);
               send_script := send_script w; recv_script := recv_script w;
               write_script := write_script w; accepted := accepted w;
               log_file := log_file w; trace := trace w |} ;;
  ret (clock w (ticks w)).

(** [self.server_socket.accept()]. *)
Definition socket_accept : M nat :=
  w <- get_world ;;
  let c := S (accepted w) in
  put_world {| clock := clock w; ticks := ticks w;
               send_script := send_script w; recv_script := recv_script w;
               write_script := write_script w; accepted := c;
               log_file := log_file w; trace := trace w ++ [EvAccept c] |} ;;
  ret c.

(** [sock.send(frame)]. *)
Definition socket_send (c : nat) (frame : list byte) : M unit :=
  w <- get_world ;;
  let sent := hd true (send_script w) in
  put_world {| clock := clock w; ticks := ticks w;
               send_script := tl (send_script w);
               recv_script := recv_script w;
               write_script := write_script w; accepted := accepted w;
               log_file := log_file w;
               trace := if sent then trace w ++ [EvSend c frame]
                        else trace w |} ;;
  if sent then ret tt else raise OSError.

(** [sock.recv(n)]: at most [n] bytes. *)
Definition socket_recv (c : nat) (n : nat) : M (list byte) :=
  w <- get_world ;;
  put_world {| clock := clock w; ticks := ticks w;
               send_script := send_script w;
               recv_script := tl (recv_script w);
               write_script := write_script w; accepted := accepted w;
               log_file := log_file w; trace := trace w |} ;;
  match hd (RecvData []) (recv_script w) with
  | RecvData bs => ret (firstn n bs)
  | RecvFail => raise OSError
  end.

(** [sock.close()]. *)
Definition socket_close (c : nat) : M unit := emit (EvClose c).

(** ** Methods of [IMU_Server] *)

(** [with open(self.log_file, 'a') as f: f.write(json.dumps(data) + '\n')]. *)
Definition _log_data (data : LogEntry) : M unit :=
  w <- get_world ;;
  let written := hd true (write_script w) in
  put_world {| clock := clock w; ticks := ticks w;
               send_script := send_script w; recv_script := recv_script w;
               write_script := tl (write_script w); accepted := accepted w;
               log_file := if written then log_file w ++ [data]
                           else log_file w;
               trace := trace w |} ;;
  if written then ret tt else raise IOError.

Definition set_client_socket (c : option nat) (s : IMU_Server) : IMU_Server :=
  {| client_socket := c; full_dataset := full_dataset s;
     last_accel_x := last_accel_x s; last_accel_y := last_accel_y s;
     last_accel_z := last_accel_z s;
     last_gyro_x := last_gyro_x s; last_gyro_y := last_gyro_y s;
     last_gyro_z := last_gyro_z s;
     last_mag_x := last_mag_x s; last_mag_y := last_mag_y s;
     last_mag_z := last_mag_z s |}.

Definition set_full_dataset (d : Dataset) (s : IMU_Server) : IMU_Server :=
  {| client_socket := client_socket s; full_dataset := d;
     last_accel_x := last_accel_x s; last_accel_y := last_accel_y s;
     last_accel_z := last_accel_z s;
     last_gyro_x := last_gyro_x s; last_gyro_y := last_gyro_y s;
     last_gyro_z := last_gyro_z s;
     last_mag_x := last_mag_x s; last_mag_y := last_mag_y s;
     last_mag_z := last_mag_z s |}.

Definition set_last_accel (x y z : pyfloat) (s : IMU_Server) : IMU_Server :=
  {| client_socket := client_socket s; full_dataset := full_dataset s;
     last_accel_x := x; last_accel_y := y; last_accel_z := z;
     last_gyro_x := last_gyro_x s; last_gyro_y := last_gyro_y s;
     last_gyro_z := last_gyro_z s;
     last_mag_x := last_mag_x s; last_mag_y := last_mag_y s;
     last_mag_z := last_mag_z s |}.

Definition set_last_gyro (x y z : pyfloat) (s : IMU_Server) : IMU_Server :=
  {| client_socket := client_socket s; full_dataset := full_dataset s;
     last_accel_x := last_accel_x s; last_accel_y := last_accel_y s;
     last_accel_z := last_accel_z s;
     last_gyro_x := x; last_gyro_y := y; last_gyro_z := z;
     last_mag_x := last_mag_x s; last_mag_y := last_mag_y s;
     last_mag_z := last_mag_z s |}.

Definition set_last_mag (x y z : pyfloat) (s : IMU_Server) : IMU_Server :=
  {| client_socket := client_socket s; full_dataset := full_dataset s;
     last_accel_x := last_accel_x s; last_accel_y := last_accel_y s;
     last_accel_z := last_accel_z s;
     last_gyro_x := last_gyro_x s; last_gyro_y := last_gyro_y s;
     last_gyro_z := last_gyro_z s;
     last_mag_x := x; last_mag_y := y; last_mag_z := z |}.

Definition processAcceleration (x y z : pyfloat) : M unit :=
  modify_self (set_last_accel x y z) ;;
  _log_data {| entry_type := "acceleration"%string; entry_data := DataXYZ x y z |}.

Definition processGyroscope (x y z : pyfloat) : M unit :=
  modify_self (set_last_gyro x y z) ;;
  _log_data {| entry_type := "gyroscope"%string; entry_data := DataXYZ x y z |}.

Definition processMagnetometer (x y z : pyfloat) : M unit :=
  modify_self (set_last_mag x y z) ;;
  _log_data {| entry_type := "magnetometer"%string; entry_data := DataXYZ x y z |}.

Definition processLEDGame (red_on red_success green_on green_success
                           blue_on blue_success : Z) : M unit :=
  _log_data {| entry_type := "led_game"%string;
               entry_data := DataLedGame red_on red_success
                                         green_on green_success
                                         blue_on blue_success |}.

Definition handle_disconnection : M unit :=
  s <- get_self ;;
  match client_socket s with
  | Some c => socket_close c ;; modify_self (set_client_socket None)
  | None => ret tt
  end.

Definition send_request (request_type : Z) : M unit :=
  s <- get_self ;;
  match client_socket s with
  | None => ret tt
  | Some c =>
      try_except
        (let req_payload := [0x01; 0x02; 0x03] in
         match pack_B3s request_type req_payload with
         | Some request => socket_send c request
         | None => raise StructError
         end)
        (fun _ => handle_disconnection)
  end.

Definition receive_response : M unit :=
  s <- get_self ;;
  match client_socket s with
  | None => ret tt
  | Some c =>
      try_except
        (resp_type_arr <- socket_recv c 1 ;;
         match resp_type_arr with
         | [] => ret tt
         | resp_type :: _ =>
             reserved_data <- socket_recv c 3 ;;
             payload <- socket_recv c RESPONSE_PAYLOAD_SIZE ;;
             if negb (length payload =? RESPONSE_PAYLOAD_SIZE)%nat then ret tt
             else
             emit (EvRecv resp_type payload) ;;
             if resp_type =? REQ_READ_ACCELERATION then
               match unpack_fff payload with
               | Some (x, y, z) => processAcceleration x y z
               | None => raise StructError
               end
             else if resp_type =? REQ_READ_GYROSCOPE then
               match unpack_fff payload with
               | Some (x, y, z) => processGyroscope x y z
               | None => raise StructError
               end
             else if resp_type =? REQ_READ_MAGNETOMETER then
               match unpack_fff payload with
               | Some (x, y, z) => processMagnetometer x y z
               | None => raise StructError
               end
             else if resp_type =? REQ_START_LED_GAME then
               match unpack_6H payload with
               | Some [d0; d1; d2; d3; d4; d5] =>
                   processLEDGame d0 d1 d2 d3 d4 d5
               | _ => raise StructError
               end
             else ret tt
         end)
        (fun _ => handle_disconnection)
  end.

(** The ten [append] calls that close a cycle: the timestamp and the cached
    value of every axis. *)
Definition append_sample (t : Q) (s : IMU_Server) : IMU_Server :=
  let d := full_dataset s in
  set_full_dataset
    {| acc_x := acc_x d ++ [last_accel_x s];
       acc_y := acc_y d ++ [last_accel_y s];
       acc_z := acc_z d ++ [last_accel_z s];
       gyro_x := gyro_x d ++ [last_gyro_x s];
       gyro_y := gyro_y d ++ [last_gyro_y s];
       gyro_z := gyro_z d ++ [last_gyro_z s];
       mag_x := mag_x d ++ [last_mag_x s];
       mag_y := mag_y d ++ [last_mag_y s];
       mag_z := mag_z d ++ [last_mag_z s];
       timestamps := timestamps d ++ [t];
       reaction_times := reaction_times d |}
    s.

(** The blocks of the body of the [while] loop of [start], as its comments
    delimit them. *)

(** "Send sensor requests and collect data". *)
Definition poll_sensors : M unit :=
  send_request REQ_READ_ACCELERATION ;;
  receive_response ;;
  send_request REQ_READ_GYROSCOPE ;;
  receive_response ;;
  send_request REQ_READ_MAGNETOMETER ;;
  receive_response.

(** "Store data in full_dataset". *)
Definition store_sample (start_time : Q) : M unit :=
  now <- time_time ;;
  modify_self (append_sample (now - start_time)%Q).

(** "Send LED game request every 10 cycles"; returns the new value of
    [led_game_counter]. *)
Definition led_game_step (led_game_counter : Z) : M Z :=
  let led_game_counter := led_game_counter + 1 in
  if 10 <=? led_game_counter
  then send_request REQ_START_LED_GAME ;; receive_response ;; ret 0
  else ret led_game_counter.

(** One iteration; [restart] is the re-entrant call [self.start()]. *)
Definition poll_cycle (restart : M unit) (start_time : Q)
                      (led_game_counter : Z) : M Z :=
  s <- get_self ;;
  match client_socket s with
  | None => restart
  | Some _ => ret tt
  end ;;
  poll_sensors ;;
  store_sample start_time ;;
  led_game_counter <- led_game_step led_game_counter ;;
  emit EvCycle ;;
  ret led_game_counter.

(** [while (time.time() - start_time) < 30: ...], with an iteration budget
    [n]. *)
Fixpoint poll_loop (n : nat) (restart : M unit) (start_time : Q)
                   (led_game_counter : Z) : M unit :=
  match n with
  | O => cut
  | S n' =>
      now <- time_time ;;
      if Qltb (now - start_time) 30
      then led_game_counter <- poll_cycle restart start_time led_game_counter ;;
           poll_loop n' restart start_time led_game_counter
      else ret tt
  end.

(** What [start] does once the loop has ended.  Plotting and the language
    models only read the dataset; the report is represented by the metrics
    it prints.  Both calls belong to libraries outside this development
    and may raise (matplotlib rejects a histogram over a NaN sample, for
    one); such an exception leaves [start] at that point, before the
    client socket is closed.  The computation below is the course of a
    session in which they do not raise, and the statements that speak of
    [start] returning are about such sessions. *)
Definition finish_session : M unit :=
  s <- get_self ;;
  match timestamps (full_dataset s) with
  | _ :: _ => emit (EvReport (_calculate_technical_metrics (full_dataset s)))
  | [] => ret tt
  end ;;
  s <- get_self ;;
  match client_socket s with
  | Some c => socket_close c ;; modify_self (set_client_socket None)
  | None => ret tt
  end.

(** [IMU_Server.start]; [fuel] bounds both the depth of re-entrant calls
    and the iterations of each loop. *)
Fixpoint start (fuel : nat) : M unit :=
  match fuel with
  | O => cut
  | S fuel' =>
      c <- socket_accept ;;
      modify_self (set_client_socket (Some c)) ;;
      start_time <- time_time ;;
      let led_game_counter := 0 in
      poll_loop fuel' (start fuel') start_time led_game_counter ;;
      finish_session
  end.

(** ** Reading a trace *)

(** Completed loop iterations. *)
Fixpoint cycles_done (tr : list Event) : nat :=
  match tr with
  | [] => O
  | EvCycle :: rest => S (cycles_done rest)
  | _ :: rest => cycles_done rest
  end.

Definition is_request (kind : Z) (e : Event) : bool :=
  match e with
  | EvSend _ (k :: _) => k =? kind
  | _ => false
  end.

(** The cycles (numbered from [k]) during which a request of the given kind
    was sent, one entry per request. *)
Fixpoint request_cycles_from (kind : Z) (k : nat) (tr : list Event)
  : list nat :=
  match tr with
  | [] => []
  | EvCycle :: rest => request_cycles_from kind (S k) rest
  | e :: rest =>
      if is_request kind e
      then k :: request_cycles_from kind k rest
      else request_cycles_from kind k rest
  end.

Definition led_game_cycles (tr : list Event) : list nat :=
  request_cycles_from REQ_START_LED_GAME 1 tr.

(** [10; 20; ...; 10 * n]. *)
Definition tens (n : nat) : list nat := map (fun i => 10 * i)%nat (seq 1 n).

(** The kinds of the requests sent among [evs], in order. *)
Fixpoint sent_kinds (evs : list Event) : list Z :=
  match evs with
  | [] => []
  | EvSend _ (k :: _) :: rest => k :: sent_kinds rest
  | _ :: rest => sent_kinds rest
  end.

(** Number of auxiliary-game responses received among [evs]. *)
Fixpoint led_replies (evs : list Event) : nat :=
  match evs with
  | [] => O
  | EvRecv t _ :: rest =>
      if t =? REQ_START_LED_GAME then S (led_replies rest)
      else led_replies rest
  | _ :: rest => led_replies rest
  end.

(** A device that only answers: every response received directly follows
    the request of its kind ([prev] is the kind of the request just sent,
    if the last event was a request). *)
Fixpoint conforming (prev : option Z) (tr : list Event) : Prop :=
  match tr with
  | [] => True
  | EvSend _ (k :: _) :: rest => conforming (Some k) rest
  | EvRecv t _ :: rest => prev = Some t /\ conforming None rest
  | _ :: rest => conforming None rest
  end.

Definition game_results (log : list LogEntry) : nat :=
  List.length (filter (fun e => String.eqb (entry_type e) "led_game") log).

(** Non-decreasing sequence of rationals. *)
Fixpoint nondecreasing (l : list Q) : Prop :=
  match l with
  | x :: (y :: _) as rest => (x <= y)%Q /\ nondecreasing rest
  | _ => True
  end.

(** A clock that never goes back. *)
Definition monotone_clock (clk : nat -> Q) : Prop :=
  forall i j, (i <= j)%nat -> (clk i <= clk j)%Q.

(** ** Channels *)

Inductive Channel : Type := Acceleration | Gyroscope | Magnetometer.

Definition request_kind (ch : Channel) : Z :=
  match ch with
  | Acceleration => REQ_READ_ACCELERATION
  | Gyroscope => REQ_READ_GYROSCOPE
  | Magnetometer => REQ_READ_MAGNETOMETER
  end.

Definition channel_name (ch : Channel) : string :=
  match ch with
  | Acceleration => "acceleration"
  | Gyroscope => "gyroscope"
  | Magnetometer => "magnetometer"
  end.

Definition xyz : Type := pyfloat * pyfloat * pyfloat.

(** The last-known value of a channel ([self.last_*]). *)
Definition cache (ch : Channel) (s : IMU_Server) : xyz :=
  match ch with
  | Acceleration => (last_accel_x s, last_accel_y s, last_accel_z s)
  | Gyroscope => (last_gyro_x s, last_gyro_y s, last_gyro_z s)
  | Magnetometer => (last_mag_x s, last_mag_y s, last_mag_z s)
  end.

(** The three sequences of a channel in the dataset. *)
Definition channel_lists (ch : Channel) (d : Dataset)
  : list pyfloat * list pyfloat * list pyfloat :=
  match ch with
  | Acceleration => (acc_x d, acc_y d, acc_z d)
  | Gyroscope => (gyro_x d, gyro_y d, gyro_z d)
  | Magnetometer => (mag_x d, mag_y d, mag_z d)
  end.

Definition push_xyz (ls : list pyfloat * list pyfloat * list pyfloat)
                    (v : xyz) : list pyfloat * list pyfloat * list pyfloat :=
  let '(xs, ys, zs) := ls in
  let '(x, y, z) := v in
  (xs ++ [x], ys ++ [y], zs ++ [z]).

(** The value decoded from the most recent response of the channel's kind
    among [evs], or [cur] when there is none. *)
Fixpoint latest (ch : Channel) (evs : list Event) (cur : xyz) : xyz :=
  match evs with
  | [] => cur
  | EvRecv t payload :: rest =>
      latest ch rest
        (if t =? request_kind ch
         then match unpack_fff payload with
              | Some v => v
              | None => cur
              end
         else cur)
  | _ :: rest => latest ch rest cur
  end.

(** No response of the channel's kind among [evs]. *)
Fixpoint undecoded (ch : Channel) (evs : list Event) : Prop :=
  match evs with
  | [] => True
  | EvRecv t _ :: rest => t <> request_kind ch /\ undecoded ch rest
  | _ :: rest => undecoded ch rest
  end.

(** The three [recv] results that deliver one well-formed response. *)
Definition device_reply (k : byte) (reserved payload : list byte)
  : list recv_result :=
  [RecvData [k]; RecvData reserved; RecvData payload].

Definition request_frame (kind : Z) : list byte := [kind; 0x01; 0x02; 0x03].

(** ** Runs *)

Definition initial_world (clk : nat -> Q) (sends : list bool)
  (recvs : list recv_result) (writes : list bool) : World :=
  {| clock := clk; ticks := O;
     send_script := sends; recv_script := recvs; write_script := writes;
     accepted := O; log_file := []; trace := [] |}.

Definition initial_state (w : World) : State :=
  {| self := init_server; world := w |}.

(** The state a run from a fresh server reaches with the given budget. *)
Definition run (fuel : nat) (w : World) : State :=
  state_of (start fuel (initial_state w)).

(** The state in which a re-entered [start] begins its loop: a new client
    accepted, the clock read once; dataset and caches as they were. *)
Definition reconnected (s : State) : State :=
  let w := world s in
  let c := S (accepted w) in
  {| self := set_client_socket (Some c) (self s);
     world := {| clock := clock w; ticks := S (ticks w);
                 send_script := send_script w; recv_script := recv_script w;
                 write_script := write_script w; accepted := c;
                 log_file := log_file w;
                 trace := trace w ++ [EvAccept c] |} |}.

(** The state after one reading of the clock. *)
Definition ticked (s : State) : State :=
  let w := world s in
  {| self := self s;
     world := {| clock := clock w; ticks := S (ticks w);
                 send_script := send_script w; recv_script := recv_script w;
                 write_script := write_script w; accepted := accepted w;
                 log_file := log_file w; trace := trace w |} |}.

(** The part of an iteration that follows the reconnection check. *)
Definition cycle_body (start_time : Q) (led_game_counter : Z) : M Z :=
  poll_sensors ;;
  store_sample start_time ;;
  led_game_counter <- led_game_step led_game_counter ;;
  emit EvCycle ;;
  ret led_game_counter.

(** [led_game_counter] after an iteration. *)
Definition next_counter (k : Z) : Z := if 10 <=? k + 1 then 0 else k + 1.

(** The requests of one iteration, given the counter at its start. *)
Definition cycle_requests (k : Z) : list Z :=
  [REQ_READ_ACCELERATION; REQ_READ_GYROSCOPE; REQ_READ_MAGNETOMETER]
  ++ (if 10 <=? k + 1 then [REQ_START_LED_GAME] else []).

(** ** Vocabulary of the statements *)

(** Events of the socket traffic. *)
Definition io_event (e : Event) : Prop :=
  match e with
  | EvSend _ _ | EvRecv _ _ | EvClose _ => True
  | _ => False
  end.

Definition not_send (e : Event) : Prop :=
  match e with
  | EvSend _ _ => False
  | _ => True
  end.

(** What a request/response step may change: it appends socket events
    [evs] to the trace, may drop the client socket, and changes a cache
    exactly as the responses received in [evs] dictate; the dataset, the
    clock and the accept count stay as they are. *)
Definition net_step (evs : list Event) (s s' : State) : Prop :=
  full_dataset (self s') = full_dataset (self s)
  /\ clock (world s') = clock (world s)
  /\ ticks (world s') = ticks (world s)
  /\ accepted (world s') = accepted (world s)
  /\ trace (world s') = trace (world s) ++ evs
  /\ Forall io_event evs
  /\ (forall ch, cache ch (self s') = latest ch evs (cache ch (self s)))
  /\ (client_socket (self s') = client_socket (self s)
      \/ client_socket (self s') = None).

(** What one iteration does once past the reconnection check: [evs1] are
    the socket events of the three sensor exchanges, [evs2] those of the
    auxiliary-game exchange; the record appended to every channel is the
    cache as the sensor exchanges left it. *)
Definition cycle_step (t : Q) (evs1 evs2 : list Event) (s s' : State) : Prop :=
  trace (world s') = trace (world s) ++ evs1 ++ evs2 ++ [EvCycle]
  /\ Forall io_event evs1 /\ Forall io_event evs2
  /\ timestamps (full_dataset (self s'))
     = timestamps (full_dataset (self s))
       ++ [(clock (world s) (ticks (world s)) - t)%Q]
  /\ (forall ch,
         channel_lists ch (full_dataset (self s'))
         = push_xyz (channel_lists ch (full_dataset (self s)))
                    (latest ch evs1 (cache ch (self s))))
  /\ (forall ch,
         cache ch (self s') = latest ch (evs1 ++ evs2) (cache ch (self s)))
  /\ clock (world s') = clock (world s)
  /\ ticks (world s') = S (ticks (world s))
  /\ accepted (world s') = accepted (world s)
  /\ (client_socket (self s') = client_socket (self s)
      \/ client_socket (self s') = None).

(** Every sequence of the dataset that the loop appends to has length [n]. *)
Definition all_lengths (d : Dataset) (n : nat) : Prop :=
  List.length (acc_x d) = n /\ List.length (acc_y d) = n
  /\ List.length (acc_z d) = n
  /\ List.length (gyro_x d) = n /\ List.length (gyro_y d) = n
  /\ List.length (gyro_z d) = n
  /\ List.length (mag_x d) = n /\ List.length (mag_y d) = n
  /\ List.length (mag_z d) = n
  /\ List.length (timestamps d) = n.

(** How a later state of a session relates to an earlier one: the trace has
    grown by some events, every cache holds what the responses among those
    events dictate, and every sequence has grown by one element per
    completed iteration. *)
Definition session_rel (s s' : State) : Prop :=
  clock (world s') = clock (world s)
  /\ exists evs,
       trace (world s') = trace (world s) ++ evs
       /\ (forall ch, cache ch (self s') = latest ch evs (cache ch (self s)))
       /\ (forall n, all_lengths (full_dataset (self s)) n ->
                     all_lengths (full_dataset (self s'))
                                 (n + cycles_done evs)).

(** The computation did not raise, and the state it reached (on return, or
    when its iteration budget ran out) satisfies [R]. *)
Definition reaches {A} (R : State -> Prop) (r : Res A) : Prop :=
  match r with
  | Ok _ s' | Cut s' => R s'
  | Exn _ _ => False
  end.

(** An environment in which no send, receive or log write raises. *)
Definition quiet (w : World) : Prop :=
  Forall (fun b => b = true) (send_script w)
  /\ Forall (fun r => r <> RecvFail) (recv_script w)
  /\ Forall (fun b => b = true) (write_script w).

(** A connected server in a quiet environment. *)
Definition steady (c : nat) (s : State) : Prop :=
  client_socket (self s) = Some c /\ quiet (world s).

(** A request/response step of a connected server in a quiet environment:
    the connection and the quiet environment persist, [ks] are the kinds of
    the requests sent, and the log gains at most one game result per
    auxiliary-game response received. *)
Definition steady_step (c : nat) (ks : list Z) (evs : list Event)
                       (s s' : State) : Prop :=
  steady c s'
  /\ full_dataset (self s') = full_dataset (self s)
  /\ clock (world s') = clock (world s)
  /\ ticks (world s') = ticks (world s)
  /\ trace (world s') = trace (world s) ++ evs
  /\ cycles_done evs = O
  /\ sent_kinds evs = ks
  /\ (game_results (log_file (world s'))
      <= game_results (log_file (world s)) + led_replies evs)%nat.

(** One iteration of a connected server in a quiet environment. *)
Definition steady_cycle (c : nat) (t : Q) (k : Z) (evs : list Event)
                        (s s' : State) : Prop :=
  steady c s'
  /\ clock (world s') = clock (world s)
  /\ ticks (world s') = S (ticks (world s))
  /\ trace (world s') = trace (world s) ++ evs ++ [EvCycle]
  /\ cycles_done evs = O
  /\ sent_kinds evs = cycle_requests k
  /\ timestamps (full_dataset (self s'))
     = timestamps (full_dataset (self s))
       ++ [(clock (world s) (ticks (world s)) - t)%Q]
  /\ (game_results (log_file (world s'))
      <= game_results (log_file (world s)) + led_replies evs)%nat.

(** Loop invariant for the cadence of auxiliary-game requests: the counter
    is the number of completed iterations modulo ten, and the requests went
    out on the multiples of ten. *)
Definition cadence_inv (c : nat) (k : Z) (s : State) : Prop :=
  steady c s
  /\ k = Z.of_nat (cycles_done (trace (world s)) mod 10)
  /\ led_game_cycles (trace (world s))
     = tens (cycles_done (trace (world s)) / 10)
  /\ (game_results (log_file (world s))
      <= led_replies (trace (world s)))%nat.

(** Loop invariant for the timestamps of a session started at [t]: they
    are in order and none is later than any reading still to come. *)
Definition timeline_inv (c : nat) (clk : nat -> Q) (t : Q)
                        (k : Z) (s : State) : Prop :=
  steady c s
  /\ clock (world s) = clk
  /\ nondecreasing (timestamps (full_dataset (self s)))
  /\ Forall (fun x => forall j, (ticks (world s) <= j)%nat ->
                                (x <= clk j - t)%Q)
            (timestamps (full_dataset (self s))).

(** A receive during which one of the three [recv] calls raises. *)
Definition recv_raises (script : list recv_result) : Prop :=
  match script with
  | RecvFail :: _ => True
  | RecvData (_ :: _) :: RecvFail :: _ => True
  | RecvData (_ :: _) :: RecvData _ :: RecvFail :: _ => True
  | _ => False
  end.

(** A receive that comes back short: no byte at all for the response kind,
    or fewer than twelve payload bytes. *)
Definition short_read (script : list recv_result) : Prop :=
  match script with
  | [] => True
  | RecvData [] :: _ => True
  | [RecvData (_ :: _)] => True
  | [RecvData (_ :: _); RecvData _] => True
  | RecvData (_ :: _) :: RecvData _ :: RecvData p :: _ =>
      (List.length p < 12)%nat
  | _ => False
  end.

(** ** The metrics as the specification words them *)







(** Values that are not negative: NaN and the positive infinity count, as
    they arise from sums of squares and of absolute values. *)
Definition nonneg (v : f64) : Prop :=
  match v with
  | Fin q => (0 <= q)%Q
  | Inf s => s = false
  | NaN => True
  end.

(** ** Sample values and environments *)

(** binary32 constants: 0.0 is [zero_float]. *)
Definition f32_1_0 : pyfloat := S754_finite false 8388608 (-23).
Definition f32_2_0 : pyfloat := S754_finite false 8388608 (-22).
Definition f32_9_8 : pyfloat := S754_finite false 10276045 (-20).
Definition f32_10_0 : pyfloat := S754_finite false 10485760 (-20).

(** A server whose first client has just been accepted. *)
Definition connected_state (w : World) : State :=
  {| self := set_client_socket (Some 1%nat) init_server; world := w |}.

(** A clock that advances by [step] at every reading. *)
Definition linear_clock (step : Q) (n : nat) : Q :=
  (inject_Z (Z.of_nat n) * step)%Q.

(** A dataset holding the given acceleration and gyroscope sequences. *)
Definition dataset_of (ax ay az gx gy gz : list pyfloat) : Dataset :=
  {| acc_x := ax; acc_y := ay; acc_z := az;
     gyro_x := gx; gyro_y := gy; gyro_z := gz;
     mag_x := []; mag_y := []; mag_z := [];
     timestamps := []; reaction_times := [] |}.





(** A silent device and a clock of 0.3 s per reading: fifty iterations fit
    in the thirty seconds of a session. *)
Definition fifty_cycle_world : World :=
  initial_world (linear_clock (3 # 10)) [] [] [].

(** The first send of the tenth iteration fails; 1.5 s per reading. *)
Definition drop_at_cycle10_world : World :=
  initial_world (linear_clock (3 # 2)) (repeat true 27 ++ [false]) [] [].

(** The first send of the third iteration fails and a new client is
    accepted afterwards; 1 s per reading. *)
Definition reconnect_world : World :=
  initial_world (linear_clock 1) (repeat true 6 ++ [false]) [] [].

(** A connected server about to read an acceleration response of which
    only five payload bytes arrive. *)
Definition short_payload_state : State :=
  connected_state
    (initial_world (linear_clock 1) []
       (device_reply REQ_READ_ACCELERATION [0; 0; 0] [1; 2; 3; 4; 5]) []).

(** A connected server about to read a complete acceleration response
    while the log file cannot be written. *)
Definition log_failure_state : State :=
  connected_state
    (initial_world (linear_clock 1) []
       (device_reply REQ_READ_ACCELERATION [0; 0; 0]
          (pack_fff f32_1_0 zero_float f32_9_8)) [false]).

(** A connected server facing a silent device. *)
Definition silent_state : State :=
  connected_state (initial_world (linear_clock 1) [] [] []).

(** A connected server facing a device that answers each of the three
    sensor requests with an auxiliary-game response. *)
Definition chatty_state : State :=
  let reply := device_reply REQ_START_LED_GAME [0; 0; 0]
                            (pack_6H [3; 2; 3; 3; 3; 1]) in
  connected_state
    (initial_world (linear_clock 1) [] (reply ++ reply ++ reply) []).

(** The device of the end-to-end scenario: it answers every request with a
    response of the request's kind, always acceleration (1, 0, 9.8),
    gyroscope (0, 0, 0), magnetometer (10, 10, 10), and a fixed game
    result. *)
Definition scenario_cycle (i : nat) : list recv_result :=
  device_reply REQ_READ_ACCELERATION [0; 0; 0]
               (pack_fff f32_1_0 zero_float f32_9_8)
  ++ device_reply REQ_READ_GYROSCOPE [0; 0; 0]
                  (pack_fff zero_float zero_float zero_float)
  ++ device_reply REQ_READ_MAGNETOMETER [0; 0; 0]
                  (pack_fff f32_10_0 f32_10_0 f32_10_0)
  ++ (if (i mod 10 =? 0)%nat
      then device_reply REQ_START_LED_GAME [0; 0; 0]
                        (pack_6H [3; 2; 3; 3; 3; 1])
      else []).

Definition scenario_world : World :=
  initial_world (linear_clock (3 # 10)) []
                (List.concat (map scenario_cycle (seq 1 50))) [].

(** ** Connections, log and schedule as read off a trace *)

(** The four request kinds of the wire contract. *)
Definition request_kinds : list Z :=
  [REQ_READ_ACCELERATION; REQ_READ_GYROSCOPE; REQ_READ_MAGNETOMETER;
   REQ_START_LED_GAME].

(** A frame [send_request] builds for one of the four kinds. *)
Definition is_request_frame (f : list byte) : bool :=
  match f with
  | [k; 1; 2; 3] => existsb (Z.eqb k) request_kinds
  | _ => false
  end.

(** Replays a trace against the client connection: [connection_after open
    tr] is the client that is open after [tr] when [open] was open before
    it, and [None] when [tr] breaks the discipline: a client accepted while
    another is open, a frame sent to or a response read from a client that
    is not the open one, a client closed that is not open, or a frame that
    is not a request frame. *)
Fixpoint connection_after (open : option nat) (tr : list Event)
  : option (option nat) :=
  match tr with
  | [] => Some open
  | EvAccept c :: rest =>
      match open with
      | None => connection_after (Some c) rest
      | Some _ => None
      end
  | EvSend c f :: rest =>
      match open with
      | Some c' =>
          if (c =? c')%nat && is_request_frame f
          then connection_after open rest
          else None
      | None => None
      end
  | EvRecv _ _ :: rest =>
      match open with
      | Some _ => connection_after open rest
      | None => None
      end
  | EvClose c :: rest =>
      match open with
      | Some c' =>
          if (c =? c')%nat then connection_after None rest else None
      | None => None
      end
  | _ :: rest => connection_after open rest
  end.

(** The clients accepted along a trace, in order. *)
Fixpoint accepts (tr : list Event) : list nat :=
  match tr with
  | [] => []
  | EvAccept c :: rest => c :: accepts rest
  | _ :: rest => accepts rest
  end.

(** The trace respects the connection discipline, the open client is the
    server's [client_socket], and the clients accepted so far are numbered
    1, 2, ... in order. *)
Definition connection_inv (s : State) : Prop :=
  connection_after None (trace (world s)) = Some (client_socket (self s))
  /\ accepts (trace (world s)) = seq 1 (accepted (world s)).

(** The line [receive_response] hands to [_log_data] for a complete
    response; none for a response kind it does not know. *)
Definition log_line (resp_type : byte) (payload : list byte)
  : option LogEntry :=
  if resp_type =? REQ_READ_ACCELERATION then
    match unpack_fff payload with
    | Some (x, y, z) =>
        Some {| entry_type := "acceleration"; entry_data := DataXYZ x y z |}
    | None => None
    end
  else if resp_type =? REQ_READ_GYROSCOPE then
    match unpack_fff payload with
    | Some (x, y, z) =>
        Some {| entry_type := "gyroscope"; entry_data := DataXYZ x y z |}
    | None => None
    end
  else if resp_type =? REQ_READ_MAGNETOMETER then
    match unpack_fff payload with
    | Some (x, y, z) =>
        Some {| entry_type := "magnetometer"; entry_data := DataXYZ x y z |}
    | None => None
    end
  else if resp_type =? REQ_START_LED_GAME then
    match unpack_6H payload with
    | Some [d0; d1; d2; d3; d4; d5] =>
        Some {| entry_type := "led_game";
                entry_data := DataLedGame d0 d1 d2 d3 d4 d5 |}
    | _ => None
    end
  else None.

(** The lines of the complete responses among [evs], in order. *)
Fixpoint logged (evs : list Event) : list LogEntry :=
  match evs with
  | [] => []
  | EvRecv t p :: rest =>
      match log_line t p with
      | Some e => e :: logged rest
      | None => logged rest
      end
  | _ :: rest => logged rest
  end.

Definition writes_succeed (w : World) : Prop :=
  Forall (fun b => b = true) (write_script w).

(** How the log of a later state relates to that of an earlier one: it has
    grown by lines of responses received in between, and by all of them
    in order if no write fails. *)
Definition log_step (s s' : State) : Prop :=
  exists evs new,
    trace (world s') = trace (world s) ++ evs
    /\ log_file (world s') = log_file (world s) ++ new
    /\ incl new (logged evs)
    /\ (List.length new <= List.length (logged evs))%nat
    /\ (writes_succeed (world s) ->
        new = logged evs /\ writes_succeed (world s')).

(** The requests of the [i]-th iteration of a session, counted from 1:
    the three sensors in the order of the loop body, and the auxiliary
    game on every tenth. *)
Definition requests_of_cycle (i : nat) : list Z :=
  [REQ_READ_ACCELERATION; REQ_READ_GYROSCOPE; REQ_READ_MAGNETOMETER]
  ++ (if (i mod 10 =? 0)%nat then [REQ_START_LED_GAME] else []).

(** The requests of the first [n] iterations. *)
Definition schedule (n : nat) : list Z := flat_map requests_of_cycle (seq 1 n).

(** Loop invariant for the order of the requests. *)
Definition schedule_inv (c : nat) (k : Z) (s : State) : Prop :=
  steady c s
  /\ k = Z.of_nat (cycles_done (trace (world s)) mod 10)
  /\ sent_kinds (trace (world s)) = schedule (cycles_done (trace (world s))).

(** Loop invariant for the thirty-second bound of a session started at
    [t]: no timestamp is negative or later than a reading still to come,
    and all but the last were taken before the bound. *)
Definition deadline_inv (c : nat) (clk : nat -> Q) (t : Q)
                        (k : Z) (s : State) : Prop :=
  steady c s
  /\ clock (world s) = clk
  /\ Forall (fun x => forall j, (ticks (world s) <= j)%nat ->
                                (x <= clk j - t)%Q)
            (timestamps (full_dataset (self s)))
  /\ Forall (fun x => (0 <= x)%Q) (timestamps (full_dataset (self s)))
  /\ Forall (fun x => (x < 30)%Q)
            (removelast (timestamps (full_dataset (self s)))).

(** The reports generated along a trace, in order. *)
Fixpoint reports (tr : list Event) : list Metrics :=
  match tr with
  | [] => []
  | EvReport m :: rest => m :: reports rest
  | _ :: rest => reports rest
  end.

(** Loop invariant for the report: none is generated inside the loop, and
    the dataset holds one timestamp per completed iteration. *)
Definition report_inv (c : nat) (k : Z) (s : State) : Prop :=
  steady c s
  /\ reports (trace (world s)) = []
  /\ List.length (timestamps (full_dataset (self s)))
     = cycles_done (trace (world s)).

(** The values decoded from the responses of the channel's kind among
    [evs], in order of arrival. *)
Fixpoint decoded (ch : Channel) (evs : list Event) : list xyz :=
  match evs with
  | [] => []
  | EvRecv t payload :: rest =>
      if t =? request_kind ch
      then match unpack_fff payload with
           | Some v => v :: decoded ch rest
           | None => decoded ch rest
           end
      else decoded ch rest
  | _ :: rest => decoded ch rest
  end.

(** The records of a channel: the i-th holds the i-th element of each of
    its three sequences. *)
Definition records (ch : Channel) (d : Dataset) : list xyz :=
  let '(xs, ys, zs) := channel_lists ch d in
  combine (combine xs ys) zs.

(** The value every cache holds in a fresh server. *)
Definition origin : xyz := (zero_float, zero_float, zero_float).

(** Every cache and every record holds the initial value or a value
    decoded from a response of its channel's kind; the three sequences of
    a channel have the same length. *)
Definition provenance_inv (s : State) : Prop :=
  forall ch,
    (let '(xs, ys, zs) := channel_lists ch (full_dataset (self s)) in
     List.length xs = List.length ys /\ List.length ys = List.length zs)
    /\ In (cache ch (self s)) (origin :: decoded ch (trace (world s)))
    /\ Forall (fun v => In v (origin :: decoded ch (trace (world s))))
              (records ch (full_dataset (self s))).

(** ** Samples that are not numbers *)

(** A stored sample that is an infinity or NaN; the device can send one,
    as any twelve bytes decode. *)
Definition non_finite (x : pyfloat) : Prop :=
  match x with
  | S754_infinity _ | S754_nan => True
  | _ => False
  end.

Definition unbounded (v : f64) : Prop :=
  match v with
  | Fin _ => False
  | _ => True
  end.

(** NaN or the positive infinity. *)
Definition saturated (v : f64) : Prop := v = NaN \/ v = Inf false.

(** ** Iterations as read off a trace *)

(** A point of a trace at which no iteration is under way: its beginning,
    or just after the mark of a completed iteration. *)
Definition at_boundary (pre : list Event) : Prop :=
  pre = [] \/ exists p, pre = p ++ [EvCycle].

(** What holds of a channel at every state of a run from a fresh server:
    its three sequences have one element per completed iteration; its
    cache holds what the responses received so far dictate; and the record
    of an iteration during which no response of the channel's kind arrived
    is what the responses before that iteration dictate. *)
Definition fallback_inv (ch : Channel) (s : State) : Prop :=
  (let '(xs, ys, zs) := channel_lists ch (full_dataset (self s)) in
   List.length xs = cycles_done (trace (world s))
   /\ List.length ys = cycles_done (trace (world s))
   /\ List.length zs = cycles_done (trace (world s)))
  /\ cache ch (self s) = latest ch (trace (world s)) origin
  /\ forall pre seg post,
       trace (world s) = pre ++ seg ++ EvCycle :: post ->
       at_boundary pre ->
       cycles_done seg = O ->
       undecoded ch seg ->
       nth_error (records ch (full_dataset (self s))) (cycles_done pre)
       = Some (latest ch pre origin).

(** A device that answers the first acceleration request with
    (1, 0, 9.8) and is silent from then on; 5 s per clock reading. *)
Definition one_reply_world : World :=
  initial_world (linear_clock 5) []
    (device_reply REQ_READ_ACCELERATION [0; 0; 0]
       (pack_fff f32_1_0 zero_float f32_9_8)) [].

(** ** Failures as read off the scripts *)

Definition not_close (e : Event) : Prop :=
  match e with
  | EvClose _ => False
  | _ => True
  end.

(** Among the script entries a step used up there is a failure: a send or
    a log write that failed, or a [recv] that raised. *)
Definition faulty (us : list bool) (ur : list recv_result) (uw : list bool)
  : Prop :=
  In false us \/ In RecvFail ur \/ In false uw.

Definition faultless (us : list bool) (ur : list recv_result)
                     (uw : list bool) : Prop :=
  Forall (fun b => b = true) us
  /\ Forall (fun r => r <> RecvFail) ur
  /\ Forall (fun b => b = true) uw.

(** The entries of the three scripts used up between [s] and [s']. *)
Definition used_up (us : list bool) (ur : list recv_result) (uw : list bool)
                   (s s' : State) : Prop :=
  send_script (world s) = us ++ send_script (world s')
  /\ recv_script (world s) = ur ++ recv_script (world s')
  /\ write_script (world s) = uw ++ write_script (world s').

(** How a sequence of request/response steps that is to send the requests
    [ks] to the client [c] has ended: either nothing failed, the client is
    still connected and all of [ks] went out; or something failed, the
    socket is closed and cleared, the close is the last event, and the
    requests that went out before it are an initial part of [ks]. *)
Definition verdict (c : nat) (ks : list Z) (evs : list Event)
                   (us : list bool) (ur : list recv_result) (uw : list bool)
                   (s' : State) : Prop :=
  (faultless us ur uw
   /\ client_socket (self s') = Some c
   /\ sent_kinds evs = ks
   /\ Forall not_close evs)
  \/ (faulty us ur uw
      /\ client_socket (self s') = None
      /\ exists front rest,
           evs = front ++ [EvClose c]
           /\ Forall not_close front
           /\ ks = sent_kinds front ++ rest).

Definition outcome (c : nat) (ks : list Z) (evs : list Event)
                   (us : list bool) (ur : list recv_result) (uw : list bool)
                   (s s' : State) : Prop :=
  trace (world s') = trace (world s) ++ evs
  /\ used_up us ur uw s s'
  /\ verdict c ks evs us ur uw s'.

(** A computation that sends the requests [ks] when a client is connected
    and does nothing when none is. *)
Definition handles (c : nat) (ks : list Z) (m : M unit) : Prop :=
  (forall s, client_socket (self s) = Some c ->
             exists s' evs us ur uw,
               m s = Ok tt s' /\ outcome c ks evs us ur uw s s')
  /\ (forall s, client_socket (self s) = None -> m s = Ok tt s).

(** Every sequence of a channel in [d'] begins with the one in [d]. *)
Definition extends (d d' : Dataset) : Prop :=
  forall ch,
    exists lx ly lz,
      channel_lists ch d'
      = (fst (fst (channel_lists ch d)) ++ lx,
         snd (fst (channel_lists ch d)) ++ ly,
         snd (channel_lists ch d) ++ lz).

(** Cadence of the auxiliary-game requests counted from the events [base]:
    the invariant of a loop that began after them. *)
Definition cadence_from_holds (base : list Event) (c : nat) (k : Z)
                              (s : State) : Prop :=
  steady c s
  /\ exists rel,
       trace (world s) = base ++ rel
       /\ k = Z.of_nat (cycles_done rel mod 10)
       /\ led_game_cycles rel = tens (cycles_done rel / 10).

(** A connected server whose second send (the gyroscope request) fails. *)
Definition second_send_fails_state : State :=
  connected_state (initial_world (linear_clock 1) [true; false] [] []).

(** A connected server whose first [recv] raises. *)
Definition first_recv_fails_state : State :=
  connected_state (initial_world (linear_clock 1) [] [RecvFail] []).

(** The server after the iteration in which the second send failed. *)
Definition dropped_state : State :=
  state_of (poll_cycle (start 0) 0 2 second_send_fails_state).

(** * Properties *)

(** ** Codec *)

Lemma le_uint_le_bytes (n : nat) :
  forall v, 0 <= v < 256 ^ Z.of_nat n -> le_uint (le_bytes n v) = v.
Proof.
  induction n as [|n IH]; intros v Hv.
  - simpl in *. lia.
  - rewrite Nat2Z.inj_succ, Z.pow_succ_r in Hv by lia.
    cbn [le_bytes le_uint]. rewrite IH.
    + pose proof (Z.div_mod v 256). lia.
    + split; [apply Z.div_pos; lia | apply Z.div_lt_upper_bound; lia].
Qed.

Lemma le_uint_bound (bs : list byte) :
  Forall is_byte bs -> 0 <= le_uint bs < 256 ^ Z.of_nat (List.length bs).
Proof.
  induction 1 as [|b bs Hb _ IH].
  - simpl. lia.
  - cbn [le_uint List.length]. rewrite Nat2Z.inj_succ, Z.pow_succ_r by lia.
    unfold is_byte in Hb. lia.
Qed.

Lemma le_bytes_le_uint (bs : list byte) :
  Forall is_byte bs -> le_bytes (List.length bs) (le_uint bs) = bs.
Proof.
  induction 1 as [|b bs Hb _ IH].
  - reflexivity.
  - cbn [le_uint List.length le_bytes]. unfold is_byte in Hb.
    replace ((b + 256 * le_uint bs) mod 256) with b.
    + replace ((b + 256 * le_uint bs) / 256) with (le_uint bs).
      * now rewrite IH.
      * symmetry. rewrite Z.mul_comm, Z.div_add by lia.
        rewrite Z.div_small; lia.
    + symmetry. rewrite Z.mul_comm, Z.mod_add by lia. apply Z.mod_small; lia.
Qed.

(** The three fields of a binary32 word. *)
Lemma f32_fields (s : bool) (e m : Z) :
  0 <= e < 256 -> 0 <= m < 2 ^ 23 ->
  let w := sign_bit s + e * 2 ^ 23 + m in
  Z.testbit w 31 = s
  /\ Z.land (Z.shiftr w 23) 255 = e
  /\ Z.land w (Z.ones 23) = m.
Proof.
  intros He Hm w.
  assert (Hw : w = sign_bit s + e * 2 ^ 23 + m) by reflexivity.
  clearbody w.
  change 255 with (Z.ones 8).
  rewrite !Z.land_ones, Z.shiftr_div_pow2 by lia.
  change (2 ^ 23) with 8388608 in *. change (2 ^ 8) with 256.
  repeat split.
  - destruct s; unfold sign_bit in Hw; change (2 ^ 31) with 2147483648 in Hw.
    + apply Z.testbit_true; [lia|]. change (2 ^ 31) with 2147483648.
      rewrite <- (Z.div_unique w 2147483648 1 (e * 8388608 + m)) by lia.
      reflexivity.
    + apply Z.testbit_false; [lia|]. change (2 ^ 31) with 2147483648.
      rewrite Z.div_small by lia. reflexivity.
  - destruct s; unfold sign_bit in Hw; change (2 ^ 31) with 2147483648 in Hw.
    + rewrite <- (Z.div_unique w 8388608 (256 + e) m) by lia.
      symmetry. apply (Z.mod_unique (256 + e) 256 1 e); lia.
    + rewrite <- (Z.div_unique w 8388608 e m) by lia.
      apply Z.mod_small; lia.
  - destruct s; unfold sign_bit in Hw; change (2 ^ 31) with 2147483648 in Hw.
    + symmetry. apply (Z.mod_unique w 8388608 (256 + e) m); lia.
    + symmetry. apply (Z.mod_unique w 8388608 e m); lia.
Qed.

Lemma bits_of_f32_range (x : spec_float) :
  is_f32 x -> 0 <= bits_of_f32 x < 2 ^ 32.
Proof.
  destruct x as [s|s| |s m e]; cbn [is_f32 bits_of_f32]; intros H.
  - destruct s; cbn; lia.
  - destruct s; cbn; lia.
  - cbn; lia.
  - change (2 ^ 23) with 8388608 in *. change (2 ^ 24) with 16777216 in *.
    change (2 ^ 32) with 4294967296.
    destruct (Z.leb_spec 8388608 (Z.pos m));
      destruct s; unfold sign_bit; change (2 ^ 31) with 2147483648; lia.
Qed.

(** Decoding the encoding of a binary32 value gives the value back. *)
Lemma f32_of_bits_of_f32 (x : spec_float) :
  is_f32 x -> f32_of_bits (bits_of_f32 x) = x.
Proof.
  destruct x as [s|s| |s m e]; cbn [is_f32 bits_of_f32]; intros H.
  - destruct (f32_fields s 0 0) as (H1 & H2 & H3); try (cbn; lia).
    cbv zeta in *. rewrite Z.mul_0_l, !Z.add_0_r in *.
    unfold f32_of_bits. rewrite H1, H2, H3. reflexivity.
  - destruct (f32_fields s 255 0) as (H1 & H2 & H3); try (cbn; lia).
    cbv zeta in *. rewrite Z.add_0_r in *.
    unfold f32_of_bits. rewrite H1, H2, H3. reflexivity.
  - reflexivity.
  - destruct (Z.leb_spec (2 ^ 23) (Z.pos m)) as [Hn|Hs].
    + assert (Hr : 2 ^ 23 <= Z.pos m < 2 ^ 24 /\ -149 <= e <= 104).
      { destruct H as [H|[H _]]; [exact H | lia]. }
      destruct (f32_fields s (e + 150) (Z.pos m - 2 ^ 23)) as (H1 & H2 & H3);
        try (change (2 ^ 23) with 8388608 in *;
             change (2 ^ 24) with 16777216 in *; lia).
      cbv zeta in *. unfold f32_of_bits. rewrite H1, H2, H3.
      destruct (Z.eqb_spec (e + 150) 0); [lia|].
      destruct (Z.eqb_spec (e + 150) 255); [lia|].
      replace (Z.pos m - 2 ^ 23 + 2 ^ 23) with (Z.pos m) by lia.
      f_equal. lia.
    + assert (He : e = -149).
      { destruct H as [[H _]|[_ H]]; [lia | exact H]. }
      destruct (f32_fields s 0 (Z.pos m)) as (H1 & H2 & H3); try lia.
      cbv zeta in *. rewrite Z.mul_0_l, Z.add_0_r in *.
      unfold f32_of_bits. rewrite H1, H2, H3. subst e. reflexivity.
Qed.

(** Every 32-bit word decodes to a binary32 value, and re-encoding it gives
    the word back unless it was one of the NaN patterns. *)
Lemma bits_of_f32_of_bits (w : Z) :
  0 <= w < 2 ^ 32 ->
  is_f32 (f32_of_bits w)
  /\ (f32_of_bits w <> S754_nan -> bits_of_f32 (f32_of_bits w) = w).
Proof.
  intros Hw.
  set (s := Z.testbit w 31).
  set (e := Z.land (Z.shiftr w 23) 255).
  set (m := Z.land w (Z.ones 23)).
  assert (He : 0 <= e < 256).
  { unfold e. change 255 with (Z.ones 8). rewrite Z.land_ones by lia.
    apply Z.mod_pos_bound. reflexivity. }
  assert (Hm : 0 <= m < 2 ^ 23).
  { unfold m. rewrite Z.land_ones by lia. apply Z.mod_pos_bound. reflexivity. }
  assert (Hdec : w = sign_bit s + e * 2 ^ 23 + m).
  { unfold s, e, m. change 255 with (Z.ones 8).
    rewrite !Z.land_ones, Z.shiftr_div_pow2 by lia.
    assert (Hs : sign_bit (Z.testbit w 31) = 2 ^ 31 * (w / 2 ^ 31)).
    { destruct (Z.testbit w 31) eqn:Hb.
      - apply Z.testbit_true in Hb; [|lia]. unfold sign_bit.
        change (2 ^ 31) with 2147483648 in *.
        change (2 ^ 32) with 4294967296 in *.
        assert (w / 2147483648 < 2) by (apply Z.div_lt_upper_bound; lia).
        assert (0 <= w / 2147483648) by (apply Z.div_pos; lia).
        assert (w / 2147483648 = 1).
        { destruct (Z.eq_dec (w / 2147483648) 0) as [E|E];
            [rewrite E in Hb; discriminate | lia]. }
        lia.
      - apply Z.testbit_false in Hb; [|lia]. unfold sign_bit.
        change (2 ^ 31) with 2147483648 in *.
        change (2 ^ 32) with 4294967296 in *.
        assert (w / 2147483648 < 2) by (apply Z.div_lt_upper_bound; lia).
        assert (0 <= w / 2147483648) by (apply Z.div_pos; lia).
        assert (w / 2147483648 = 0).
        { destruct (Z.eq_dec (w / 2147483648) 1) as [E|E];
            [rewrite E in Hb; discriminate | lia]. }
        lia. }
    rewrite Hs.
    change (2 ^ 31) with 2147483648. change (2 ^ 23) with 8388608.
    change (2 ^ 8) with 256.
    pose proof (Z.div_mod w 8388608).
    pose proof (Z.div_mod (w / 8388608) 256).
    assert (w / 8388608 / 256 = w / 2147483648).
    { rewrite Z.div_div by lia. reflexivity. }
    lia. }
  unfold f32_of_bits. fold s e m.
  destruct (Z.eqb_spec e 0) as [E0|E0].
  - destruct m as [|p|p] eqn:Em.
    + split; [exact I|]. intros _. cbn [bits_of_f32]. lia.
    + split.
      * cbn [is_f32]. right. split; [lia | reflexivity].
      * intros _. cbn [bits_of_f32].
        destruct (Z.leb_spec (2 ^ 23) (Z.pos p)); lia.
    + lia.
  - destruct (Z.eqb_spec e 255) as [E1|E1].
    + destruct (Z.eqb_spec m 0) as [M0|M0].
      * split; [exact I|]. intros _. cbn [bits_of_f32]. lia.
      * split; [exact I|]. intros H. now elim H.
    + destruct (m + 2 ^ 23) as [|p|p] eqn:Em.
      * change (2 ^ 23) with 8388608 in *. lia.
      * split.
        -- cbn [is_f32]. left.
           change (2 ^ 23) with 8388608 in *.
           change (2 ^ 24) with 16777216. lia.
        -- intros _. cbn [bits_of_f32].
           change (2 ^ 23) with 8388608 in *.
           destruct (Z.leb_spec 8388608 (Z.pos p)); lia.
      * change (2 ^ 23) with 8388608 in *. lia.
Qed.

Lemma digits2_pos_bounds (m : positive) :
  2 ^ (Zpos (digits2_pos m) - 1) <= Zpos m < 2 ^ Zpos (digits2_pos m).
Proof.
  induction m as [m IH|m IH|]; cbn [digits2_pos].
  - rewrite Pos2Z.inj_succ.
    replace (Z.succ (Z.pos (digits2_pos m)) - 1) with (Z.pos (digits2_pos m))
      by lia.
    rewrite Z.pow_succ_r by lia.
    replace (Z.pos (digits2_pos m))
      with (Z.succ (Z.pos (digits2_pos m) - 1)) at 1 by lia.
    rewrite Z.pow_succ_r by lia. lia.
  - rewrite Pos2Z.inj_succ.
    replace (Z.succ (Z.pos (digits2_pos m)) - 1) with (Z.pos (digits2_pos m))
      by lia.
    rewrite Z.pow_succ_r by lia.
    replace (Z.pos (digits2_pos m))
      with (Z.succ (Z.pos (digits2_pos m) - 1)) at 1 by lia.
    rewrite Z.pow_succ_r by lia. lia.
  - cbn. lia.
Qed.

(** [is_f32] is the validity predicate of the standard library at the
    binary32 parameters (24-bit precision, exponent bound 128). *)
Lemma is_f32_valid_binary (x : spec_float) :
  is_f32 x <-> valid_binary 24 128 x = true.
Proof.
  destruct x as [s|s| |s m e]; cbn [is_f32 valid_binary];
    try (split; auto; fail).
  unfold bounded, canonical_mantissa, fexp, emin.
  pose proof (digits2_pos_bounds m) as [Hlo Hhi].
  set (d := Z.pos (digits2_pos m)) in *.
  assert (Hd : 0 < d) by (unfold d; lia).
  assert (H23 : d <= 23 <-> Z.pos m < 2 ^ 23).
  { split; intros H.
    - eapply Z.lt_le_trans; [exact Hhi|]. apply Z.pow_le_mono_r; lia.
    - destruct (Z_le_gt_dec d 23) as [L|G]; [exact L|].
      assert (2 ^ 23 <= 2 ^ (d - 1)) by (apply Z.pow_le_mono_r; lia). lia. }
  assert (H24 : d <= 24 <-> Z.pos m < 2 ^ 24).
  { split; intros H.
    - eapply Z.lt_le_trans; [exact Hhi|]. apply Z.pow_le_mono_r; lia.
    - destruct (Z_le_gt_dec d 24) as [L|G]; [exact L|].
      assert (2 ^ 24 <= 2 ^ (d - 1)) by (apply Z.pow_le_mono_r; lia). lia. }
  rewrite andb_true_iff, Z.eqb_eq, Z.leb_le.
  change (2 ^ 23) with 8388608 in *. change (2 ^ 24) with 16777216 in *.
  lia.
Qed.

Lemma unpack_pack_f (x : spec_float) : is_f32 x -> unpack_f (pack_f x) = x.
Proof.
  intros H. unfold unpack_f, pack_f.
  rewrite (le_uint_le_bytes 4) by (apply bits_of_f32_range, H).
  now apply f32_of_bits_of_f32.
Qed.

Lemma pack_unpack_f (b0 b1 b2 b3 : byte) :
  Forall is_byte [b0; b1; b2; b3] ->
  unpack_f [b0; b1; b2; b3] <> S754_nan ->
  pack_f (unpack_f [b0; b1; b2; b3]) = [b0; b1; b2; b3].
Proof.
  intros Hb Hn. unfold unpack_f, pack_f in *.
  destruct (bits_of_f32_of_bits (le_uint [b0; b1; b2; b3])) as [_ H].
  { apply (le_uint_bound [b0; b1; b2; b3] Hb). }
  rewrite (H Hn). exact (le_bytes_le_uint [b0; b1; b2; b3] Hb).
Qed.

Lemma unpack_pack_H (v : Z) : 0 <= v < 65536 -> unpack_H (pack_H v) = v.
Proof. intros H. apply (le_uint_le_bytes 2). exact H. Qed.

Lemma pack_f_length (x : spec_float) : List.length (pack_f x) = 4%nat.
Proof. reflexivity. Qed.

Lemma unpack_pack_fff (x y z : spec_float) :
  is_f32 x -> is_f32 y -> is_f32 z ->
  unpack_fff (pack_fff x y z) = Some (x, y, z).
Proof.
  intros Hx Hy Hz.
  rewrite <- (unpack_pack_f x Hx) at 2.
  rewrite <- (unpack_pack_f y Hy) at 2.
  rewrite <- (unpack_pack_f z Hz) at 2.
  reflexivity.
Qed.

Lemma unpack_pack_6H (v0 v1 v2 v3 v4 v5 : Z) :
  Forall (fun v => 0 <= v < 65536) [v0; v1; v2; v3; v4; v5] ->
  unpack_6H (pack_6H [v0; v1; v2; v3; v4; v5]) = Some [v0; v1; v2; v3; v4; v5].
Proof.
  intros H.
  repeat match goal with
         | H : Forall _ (_ :: _) |- _ =>
             let a := fresh "Hv" in
             let b := fresh "Hr" in
             apply Forall_cons_iff in H; destruct H as [a b]
         end.
  rewrite <- (unpack_pack_H v0) at 2 by assumption.
  rewrite <- (unpack_pack_H v1) at 2 by assumption.
  rewrite <- (unpack_pack_H v2) at 2 by assumption.
  rewrite <- (unpack_pack_H v3) at 2 by assumption.
  rewrite <- (unpack_pack_H v4) at 2 by assumption.
  rewrite <- (unpack_pack_H v5) at 2 by assumption.
  reflexivity.
Qed.

(** ** Request/response steps *)

#[local] Arguments firstn : simpl never.
#[local] Arguments unpack_fff : simpl never.
#[local] Arguments unpack_6H : simpl never.

Ltac unfold_monad :=
  unfold send_request, receive_response, handle_disconnection,
    processAcceleration, processGyroscope, processMagnetometer,
    processLEDGame, _log_data, socket_send, socket_recv, socket_close,
    socket_accept, time_time, emit, try_except, bind, ret, raise, cut,
    get_self, get_world, put_world, modify_self in *.

Ltac unfold_consts :=
  unfold RESPONSE_PAYLOAD_SIZE, REQ_READ_ACCELERATION, REQ_READ_GYROSCOPE,
    REQ_READ_MAGNETOMETER, REQ_START_LED_GAME in *.

(** Case split on the scrutinee of an innermost [match] of the goal. *)
Ltac break_match :=
  match goal with
  | |- context [match ?x with _ => _ end] =>
      lazymatch x with
      | context [match _ with _ => _ end] => fail
      | _ => destruct x eqn:?
      end
  end.

Ltac trace_eq :=
  first [ reflexivity
        | symmetry; apply app_nil_r
        | rewrite <- app_assoc; reflexivity ].

Ltac leaf_start := eexists; eexists; split; [reflexivity|].

Ltac net_step_tac :=
  unfold net_step; cbn;
  split; [reflexivity|]; split; [reflexivity|]; split; [reflexivity|];
  split; [reflexivity|]; split; [trace_eq|];
  split; [repeat constructor|].

Ltac kinds_tac :=
  repeat match goal with
         | H : (_ =? _) = true |- _ => apply Z.eqb_eq in H; subst
         end.

Ltac rewrite_hyps :=
  repeat match goal with
         | H : ?x = _ |- context [?x] => rewrite H
         end.

Lemma latest_app (ch : Channel) (evs1 evs2 : list Event) (cur : xyz) :
  latest ch (evs1 ++ evs2) cur = latest ch evs2 (latest ch evs1 cur).
Proof.
  revert cur. induction evs1 as [|e evs1 IH]; intros cur; [reflexivity|].
  destruct e; simpl; apply IH.
Qed.

Lemma latest_undecoded (ch : Channel) (evs : list Event) (cur : xyz) :
  undecoded ch evs -> latest ch evs cur = cur.
Proof.
  revert cur. induction evs as [|e evs IH]; intros cur H; [reflexivity|].
  destruct e; simpl in *; try (apply IH; exact H).
  destruct H as [Hk H]. destruct (Z.eqb_spec resp_type (request_kind ch)).
  - contradiction.
  - apply IH; exact H.
Qed.

Lemma cycles_done_app (tr1 tr2 : list Event) :
  cycles_done (tr1 ++ tr2) = (cycles_done tr1 + cycles_done tr2)%nat.
Proof.
  induction tr1 as [|e tr1 IH]; [reflexivity|].
  destruct e; simpl; rewrite IH; reflexivity.
Qed.

Lemma cycles_done_io (evs : list Event) :
  Forall io_event evs -> cycles_done evs = O.
Proof.
  induction 1 as [|e evs He _ IH]; [reflexivity|].
  destruct e; simpl in *; try contradiction; exact IH.
Qed.

Lemma net_step_refl (s : State) : net_step [] s s.
Proof.
  unfold net_step. rewrite app_nil_r. repeat split; auto.
Qed.

Lemma net_step_trans (evs1 evs2 : list Event) (s s1 s2 : State) :
  net_step evs1 s s1 -> net_step evs2 s1 s2 -> net_step (evs1 ++ evs2) s s2.
Proof.
  intros (A1 & A2 & A3 & A4 & A5 & A6 & A7 & A8)
         (B1 & B2 & B3 & B4 & B5 & B6 & B7 & B8).
  unfold net_step. repeat split; try congruence.
  - rewrite B5, A5. symmetry. apply app_assoc.
  - apply Forall_app; split; assumption.
  - intros ch. rewrite latest_app, B7, A7. reflexivity.
  - destruct B8 as [B8|B8]; [|right; exact B8].
    rewrite B8. exact A8.
Qed.

(** [send_request] always returns; it adds at most the request frame or a
    close event. *)
Lemma send_request_spec (k : Z) (s : State) :
  exists s' evs,
    send_request k s = Ok tt s' /\ net_step evs s s'
    /\ Forall (fun e => forall c f, e = EvSend c f -> f = request_frame k) evs.
Proof.
  destruct s as [sv w]. destruct w as [clk tk ss rs ws ac lg tr].
  unfold_monad. cbn.
  destruct (client_socket sv) as [c|] eqn:Hc; cbn.
  - unfold pack_B3s.
    destruct ((0 <=? k) && (k <=? 255))%bool; cbn.
    + destruct ss as [|[] ss]; cbn; rewrite ?Hc; cbn.
      all: leaf_start; split; [net_step_tac|].
      all: try (split; [intros []; reflexivity | auto]).
      all: repeat constructor; intros ? ? [= ]; subst; reflexivity.
    + rewrite Hc; cbn. leaf_start; split; [net_step_tac|].
      * split; [intros []; reflexivity | auto].
      * repeat constructor; intros ? ? [= ].
  - leaf_start; split; [net_step_tac|].
    + split; [intros []; reflexivity | auto].
    + constructor.
Qed.

(** [receive_response] always returns: every exception raised while
    receiving, decoding or logging is caught. *)
Lemma receive_response_spec (s : State) :
  exists s' evs,
    receive_response s = Ok tt s' /\ net_step evs s s' /\ Forall not_send evs.
Proof.
  destruct s as [sv w]. destruct w as [clk tk ss rs ws ac lg tr].
  unfold_monad. unfold_consts. cbn.
  repeat (break_match; cbn; rewrite ?Heqo; cbn).
  all: leaf_start; (split; [net_step_tac | repeat constructor]).
  all: split; [|auto].
  all: intros ch; cbn.
  all: try reflexivity.
  all: kinds_tac.
  all: destruct ch; cbn; unfold_consts; cbn.
  all: rewrite_hyps; try reflexivity.
Qed.

Lemma firstn_exact {A} (n : nat) (l : list A) :
  List.length l = n -> firstn n l = l.
Proof. intros <-. apply firstn_all. Qed.

(** A request answered by a complete sensor response of the same kind. *)
Lemma exchange_sensor (ch : Channel) (s : State) (c : nat)
      (reserved p : list byte) (rest : list recv_result) (x y z : pyfloat) :
  client_socket (self s) = Some c ->
  hd true (send_script (world s)) = true ->
  hd true (write_script (world s)) = true ->
  recv_script (world s) = device_reply (request_kind ch) reserved p ++ rest ->
  List.length p = 12%nat ->
  unpack_fff p = Some (x, y, z) ->
  exists s',
    (send_request (request_kind ch) ;; receive_response) s = Ok tt s'
    /\ trace (world s') = trace (world s)
         ++ [EvSend c (request_frame (request_kind ch));
             EvRecv (request_kind ch) p]
    /\ cache ch (self s') = (x, y, z)
    /\ log_file (world s') = log_file (world s)
         ++ [{| entry_type := channel_name ch; entry_data := DataXYZ x y z |}].
Proof.
  intros Hc Hs Hw Hr Hl Hu.
  destruct s as [sv w]. destruct w as [clk tk ss rs ws ac lg tr].
  cbn in Hc, Hs, Hw, Hr. subst rs.
  unfold_monad. unfold_consts. unfold device_reply. cbn. rewrite Hc. cbn.
  replace (pack_B3s (request_kind ch) [1; 2; 3])
    with (Some (request_frame (request_kind ch))) by (destruct ch; reflexivity).
  cbn. rewrite Hs. cbn. rewrite Hc. cbn.
  change (firstn 1 [request_kind ch]) with [request_kind ch]. cbn.
  rewrite (firstn_exact 12 p Hl), Hl. cbn.
  destruct ch; cbn; rewrite Hu; cbn; rewrite Hw; cbn.
  all: eexists; split; [reflexivity|]; cbn.
  all: rewrite <- app_assoc; repeat split; reflexivity.
Qed.

(** An auxiliary-game request answered by a complete game response. *)
Lemma exchange_led_game (s : State) (c : nat)
      (reserved p : list byte) (rest : list recv_result)
      (v0 v1 v2 v3 v4 v5 : Z) :
  client_socket (self s) = Some c ->
  hd true (send_script (world s)) = true ->
  hd true (write_script (world s)) = true ->
  recv_script (world s) = device_reply REQ_START_LED_GAME reserved p ++ rest ->
  List.length p = 12%nat ->
  unpack_6H p = Some [v0; v1; v2; v3; v4; v5] ->
  exists s',
    (send_request REQ_START_LED_GAME ;; receive_response) s = Ok tt s'
    /\ trace (world s') = trace (world s)
         ++ [EvSend c (request_frame REQ_START_LED_GAME);
             EvRecv REQ_START_LED_GAME p]
    /\ log_file (world s') = log_file (world s)
         ++ [{| entry_type := "led_game";
                entry_data := DataLedGame v0 v1 v2 v3 v4 v5 |}].
Proof.
  intros Hc Hs Hw Hr Hl Hu.
  destruct s as [sv w]. destruct w as [clk tk ss rs ws ac lg tr].
  cbn in Hc, Hs, Hw, Hr. subst rs.
  unfold_monad. unfold_consts. unfold device_reply. cbn. rewrite Hc. cbn.
  rewrite Hs. cbn. rewrite Hc. cbn.
  change (firstn 1 [84]) with [84]. cbn.
  rewrite (firstn_exact 12 p Hl), Hl. cbn.
  rewrite Hu; cbn; rewrite Hw; cbn.
  eexists; split; [reflexivity|]; cbn.
  rewrite <- app_assoc; repeat split; reflexivity.
Qed.

(** C3: for each of the four request kinds, when the device answers the
    request with a frame of that kind carrying the little-endian encoding of
    its values, the server decodes exactly those values: three binary32
    floats land in the channel's cache and in the log for the sensor kinds,
    six 16-bit unsigned integers land in the log for the auxiliary game.
    Conversely any 12-byte payload that decodes to non-NaN floats is the
    encoding of what it decodes to. *)
Theorem wire_round_trip (s : State) (c : nat) (reserved : list byte)
        (rest : list recv_result) :
  client_socket (self s) = Some c ->
  hd true (send_script (world s)) = true ->
  hd true (write_script (world s)) = true ->
  (forall ch x y z,
      is_f32 x -> is_f32 y -> is_f32 z ->
      recv_script (world s)
      = device_reply (request_kind ch) reserved (pack_fff x y z) ++ rest ->
      exists s',
        (send_request (request_kind ch) ;; receive_response) s = Ok tt s'
        /\ trace (world s') = trace (world s)
             ++ [EvSend c (request_frame (request_kind ch));
                 EvRecv (request_kind ch) (pack_fff x y z)]
        /\ cache ch (self s') = (x, y, z)
        /\ log_file (world s') = log_file (world s)
             ++ [{| entry_type := channel_name ch;
                    entry_data := DataXYZ x y z |}])
  /\ (forall v0 v1 v2 v3 v4 v5,
      Forall (fun v => 0 <= v < 65536) [v0; v1; v2; v3; v4; v5] ->
      recv_script (world s)
      = device_reply REQ_START_LED_GAME reserved
                     (pack_6H [v0; v1; v2; v3; v4; v5]) ++ rest ->
      exists s',
        (send_request REQ_START_LED_GAME ;; receive_response) s = Ok tt s'
        /\ trace (world s') = trace (world s)
             ++ [EvSend c (request_frame REQ_START_LED_GAME);
                 EvRecv REQ_START_LED_GAME (pack_6H [v0; v1; v2; v3; v4; v5])]
        /\ log_file (world s') = log_file (world s)
             ++ [{| entry_type := "led_game";
                    entry_data := DataLedGame v0 v1 v2 v3 v4 v5 |}])
  /\ (forall payload x y z,
      Forall is_byte payload ->
      unpack_fff payload = Some (x, y, z) ->
      x <> S754_nan -> y <> S754_nan -> z <> S754_nan ->
      pack_fff x y z = payload).
Proof.
  intros Hc Hs Hw. split; [|split].
  - intros ch x y z Hx Hy Hz Hr.
    apply (exchange_sensor ch s c reserved (pack_fff x y z) rest); auto.
    now apply unpack_pack_fff.
  - intros v0 v1 v2 v3 v4 v5 Hv Hr.
    apply (exchange_led_game s c reserved
             (pack_6H [v0; v1; v2; v3; v4; v5]) rest); auto.
    now apply unpack_pack_6H.
  - intros payload x y z Hb Hu Hx Hy Hz.
    do 13 (destruct payload as [|? payload]; try discriminate Hu).
    unfold unpack_fff in Hu. injection Hu as <- <- <-.
    repeat match goal with
           | H : Forall _ (_ :: _) |- _ =>
               let a := fresh "Hb" in
               let b := fresh "Hr" in
               apply Forall_cons_iff in H; destruct H as [a b]
           end.
    unfold pack_fff.
    rewrite (pack_unpack_f b b0 b1 b2), (pack_unpack_f b3 b4 b5 b6),
      (pack_unpack_f b7 b8 b9 b10);
      try assumption;
      try (repeat (apply Forall_cons; [assumption|]); apply Forall_nil).
    reflexivity.
Qed.

Lemma wire_round_trip_witness :
  exists s',
    (send_request REQ_READ_ACCELERATION ;; receive_response)
      (connected_state
         (initial_world (linear_clock 1) [] 
            (device_reply REQ_READ_ACCELERATION [0; 0; 0]
               (pack_fff f32_1_0 zero_float f32_9_8)) [])) = Ok tt s'
    /\ cache Acceleration (self s') = (f32_1_0, zero_float, f32_9_8).
Proof.
  destruct (wire_round_trip
              (connected_state
                 (initial_world (linear_clock 1) []
                    (device_reply REQ_READ_ACCELERATION [0; 0; 0]
                       (pack_fff f32_1_0 zero_float f32_9_8)) []))
              1%nat [0; 0; 0] [] eq_refl eq_refl eq_refl) as [H _].
  destruct (H Acceleration f32_1_0 zero_float f32_9_8) as (s' & E & _ & C & _).
  - unfold is_f32, f32_1_0. lia.
  - exact I.
  - unfold is_f32, f32_9_8. lia.
  - reflexivity.
  - exists s'. split; [exact E | exact C].
Defined.

(** ** Metrics *)

Lemma Qltb_false_of_le (x : Q) : (0 <= x)%Q -> Qltb x 0 = false.
Proof.
  intros H. unfold Qltb. apply (proj2 (Qle_bool_iff 0 x)) in H.
  rewrite H. reflexivity.
Qed.

Lemma fadd_nonneg (a b : f64) : nonneg a -> nonneg b -> nonneg (fadd a b).
Proof.
  destruct a as [x|s|], b as [y|t|]; cbn [nonneg fadd]; intros Ha Hb; auto.
  - rewrite Qred_correct. lra.
  - subst. reflexivity.
Qed.

Lemma fdiv_nonneg (a : f64) (y : Q) :
  nonneg a -> (0 <= y)%Q -> nonneg (fdiv a (Fin y)).
Proof.
  destruct a as [x|s|]; cbn [nonneg fdiv]; intros Ha Hy; auto.
  - destruct (Qeq_bool y 0) eqn:Ey.
    + destruct (Qeq_bool x 0); cbn [nonneg]; [exact I|].
      apply Qltb_false_of_le, Ha.
    + cbn [nonneg]. rewrite Qred_correct. unfold Qdiv.
      apply Qmult_le_0_compat; [exact Ha|].
      apply Qinv_le_0_compat, Hy.
  - subst s. rewrite (Qltb_false_of_le y Hy). reflexivity.
Qed.


Lemma fabs_nonneg (d : f64) : nonneg (fabs d).
Proof.
  destruct d as [x|s|]; cbn [nonneg fabs]; auto. apply Qabs_nonneg.
Qed.

Lemma fold_fadd_nonneg (a : list f64) :
  Forall nonneg a -> forall acc, nonneg acc -> nonneg (fold_left fadd a acc).
Proof.
  induction 1 as [|v a Hv _ IH]; intros acc Hacc; simpl; [exact Hacc|].
  apply IH, fadd_nonneg; assumption.
Qed.

Lemma np_count_nonneg (a : list f64) :
  exists y, np_count a = Fin y /\ (0 <= y)%Q.
Proof.
  exists (inject_Z (Z.of_nat (List.length a))). split; [reflexivity|].
  unfold Qle; simpl. lia.
Qed.

Lemma np_mean_nonneg (a : list f64) :
  Forall nonneg a -> nonneg (np_mean a).
Proof.
  intros H. unfold np_mean.
  destruct (np_count_nonneg a) as (y & -> & Hy).
  apply fdiv_nonneg; [|exact Hy].
  apply fold_fadd_nonneg; [exact H|]. simpl. lra.
Qed.


Lemma np_abs_nonneg (a : list f64) : Forall nonneg (np_abs a).
Proof.
  apply Forall_map, Forall_forall. intros v _. apply fabs_nonneg.
Qed.


#[local] Open Scope Q_scope.






















(** ** One loop iteration *)

#[local] Close Scope Q_scope.

Lemma bind_ok {A B} (m : M A) (k : A -> M B) (s s1 : State) (a : A) :
  m s = Ok a s1 -> bind m k s = k a s1.
Proof. intros H. unfold bind. rewrite H. reflexivity. Qed.

Lemma exchange_spec (k : Z) (s : State) :
  exists s' evs,
    (send_request k ;; receive_response) s = Ok tt s' /\ net_step evs s s'.
Proof.
  destruct (send_request_spec k s) as (s1 & evs1 & E1 & N1 & _).
  destruct (receive_response_spec s1) as (s2 & evs2 & E2 & N2 & _).
  exists s2, (evs1 ++ evs2). split.
  - rewrite (bind_ok _ _ _ _ _ E1). exact E2.
  - eapply net_step_trans; eassumption.
Qed.

Lemma poll_sensors_spec (s : State) :
  exists s' evs, poll_sensors s = Ok tt s' /\ net_step evs s s'.
Proof.
  destruct (exchange_spec REQ_READ_ACCELERATION s) as (s1 & e1 & E1 & N1).
  destruct (exchange_spec REQ_READ_GYROSCOPE s1) as (s2 & e2 & E2 & N2).
  destruct (exchange_spec REQ_READ_MAGNETOMETER s2) as (s3 & e3 & E3 & N3).
  exists s3, ((e1 ++ e2) ++ e3). split.
  - unfold poll_sensors. unfold bind in *.
    destruct (send_request REQ_READ_ACCELERATION s) as [[] sa|?|?];
      try discriminate E1.
    rewrite E1.
    destruct (send_request REQ_READ_GYROSCOPE s1) as [[] sb|?|?];
      try discriminate E2.
    rewrite E2.
    destruct (send_request REQ_READ_MAGNETOMETER s2) as [[] sc|?|?];
      try discriminate E3.
    exact E3.
  - eapply net_step_trans; [eapply net_step_trans|]; eassumption.
Qed.

Lemma led_game_step_spec (k : Z) (s : State) :
  exists s' evs,
    led_game_step k s = Ok (next_counter k) s' /\ net_step evs s s'.
Proof.
  unfold led_game_step, next_counter.
  destruct (10 <=? k + 1).
  - destruct (exchange_spec REQ_START_LED_GAME s) as (s1 & e1 & E1 & N1).
    exists s1, e1. split; [|exact N1].
    unfold bind in *.
    destruct (send_request REQ_START_LED_GAME s) as [[] sa|?|?];
      try discriminate E1.
    rewrite E1. reflexivity.
  - exists s, []. split; [reflexivity|apply net_step_refl].
Qed.

Lemma push_xyz_lists (ch : Channel) (t : Q) (sv : IMU_Server) :
  channel_lists ch (full_dataset (append_sample t sv))
  = push_xyz (channel_lists ch (full_dataset sv)) (cache ch sv).
Proof. destruct ch; reflexivity. Qed.

Lemma cache_append_sample (ch : Channel) (t : Q) (sv : IMU_Server) :
  cache ch (append_sample t sv) = cache ch sv.
Proof. destruct ch; reflexivity. Qed.

(** An iteration, with the state [s1] in which the sensor exchanges leave
    the server. *)
Lemma cycle_body_split (t : Q) (k : Z) (s : State) :
  exists s1 s' evs1 evs2,
    poll_sensors s = Ok tt s1 /\ net_step evs1 s s1
    /\ cycle_body t k s = Ok (next_counter k) s'
    /\ cycle_step t evs1 evs2 s s'.
Proof.
  destruct (poll_sensors_spec s) as (s1 & evs1 & E1 & N1).
  exists s1.
  set (s2 := {| self := append_sample
                          (clock (world s1) (ticks (world s1)) - t)%Q (self s1);
                world := {| clock := clock (world s1);
                            ticks := S (ticks (world s1));
                            send_script := send_script (world s1);
                            recv_script := recv_script (world s1);
                            write_script := write_script (world s1);
                            accepted := accepted (world s1);
                            log_file := log_file (world s1);
                            trace := trace (world s1) |} |}).
  assert (E2 : store_sample t s1 = Ok tt s2) by reflexivity.
  destruct (led_game_step_spec k s2) as (s3 & evs2 & E3 & N3).
  eexists. exists evs1, evs2.
  split; [exact E1|]. split; [exact N1|]. split.
  - unfold cycle_body.
    rewrite (bind_ok _ _ _ _ _ E1), (bind_ok _ _ _ _ _ E2),
      (bind_ok _ _ _ _ _ E3).
    reflexivity.
  - destruct N1 as (A1 & A2 & A3 & A4 & A5 & A6 & A7 & A8).
    destruct N3 as (B1 & B2 & B3 & B4 & B5 & B6 & B7 & B8).
    assert (C1 : self s2 = append_sample
                   (clock (world s1) (ticks (world s1)) - t)%Q (self s1))
      by reflexivity.
    assert (C2 : trace (world s2) = trace (world s1)) by reflexivity.
    assert (C3 : clock (world s2) = clock (world s1)) by reflexivity.
    assert (C4 : ticks (world s2) = S (ticks (world s1))) by reflexivity.
    assert (C5 : accepted (world s2) = accepted (world s1)) by reflexivity.
    assert (C6 : client_socket (self s2) = client_socket (self s1))
      by reflexivity.
    clearbody s2. clear E2 E3.
    unfold cycle_step. cbn [self world trace clock ticks accepted].
    repeat split.
    + rewrite B5, C2, A5. rewrite <- !app_assoc. reflexivity.
    + exact A6.
    + exact B6.
    + rewrite B1, C1. cbn. rewrite A1, A2, A3. reflexivity.
    + intros ch. rewrite B1, C1, push_xyz_lists, A1, A7. reflexivity.
    + intros ch.
      rewrite latest_app, B7, C1, cache_append_sample, A7. reflexivity.
    + congruence.
    + congruence.
    + congruence.
    + destruct B8 as [B8|B8]; [|right; exact B8].
      rewrite B8, C6. exact A8.
Qed.

Lemma cycle_body_spec (t : Q) (k : Z) (s : State) :
  exists s' evs1 evs2,
    cycle_body t k s = Ok (next_counter k) s' /\ cycle_step t evs1 evs2 s s'.
Proof.
  destruct (cycle_body_split t k s) as (s1 & s' & e1 & e2 & _ & _ & E & C).
  exists s', e1, e2. split; assumption.
Qed.

(** ** The session relation through [start] *)

Lemma session_rel_refl (s : State) : session_rel s s.
Proof.
  split; [reflexivity|]. exists []. rewrite app_nil_r.
  split; [reflexivity|]. split; [reflexivity|].
  intros n H. simpl. rewrite Nat.add_0_r. exact H.
Qed.

Lemma session_rel_trans (s s1 s2 : State) :
  session_rel s s1 -> session_rel s1 s2 -> session_rel s s2.
Proof.
  intros (A0 & e1 & A1 & A2 & A3) (B0 & e2 & B1 & B2 & B3).
  split; [congruence|]. exists (e1 ++ e2). split; [|split].
  - rewrite B1, A1. symmetry. apply app_assoc.
  - intros ch. rewrite latest_app, B2, A2. reflexivity.
  - intros n H. rewrite cycles_done_app, Nat.add_assoc. apply B3, A3, H.
Qed.

Lemma push_xyz_lengths (ch : Channel) (d d' : Dataset) (v : xyz) (n : nat) :
  channel_lists ch d' = push_xyz (channel_lists ch d) v ->
  let '(xs, ys, zs) := channel_lists ch d in
  let '(xs', ys', zs') := channel_lists ch d' in
  List.length xs = n -> List.length ys = n -> List.length zs = n ->
  List.length xs' = S n /\ List.length ys' = S n /\ List.length zs' = S n.
Proof.
  intros H. destruct (channel_lists ch d) as [[xs ys] zs].
  destruct (channel_lists ch d') as [[xs' ys'] zs'].
  destruct v as [[x y] z]. simpl in H. injection H as -> -> ->.
  intros L1 L2 L3. rewrite !length_app. simpl. lia.
Qed.

Lemma cycle_step_session (t : Q) (evs1 evs2 : list Event) (s s' : State) :
  cycle_step t evs1 evs2 s s' -> session_rel s s'.
Proof.
  intros (H1 & H2 & H3 & H4 & H5 & H6 & H7 & H8 & H9 & H10).
  split; [exact H7|]. exists (evs1 ++ evs2 ++ [EvCycle]). split; [|split].
  - exact H1.
  - intros ch. rewrite H6, app_assoc, (latest_app ch (evs1 ++ evs2) [EvCycle]).
    reflexivity.
  - intros n (L1 & L2 & L3 & L4 & L5 & L6 & L7 & L8 & L9 & L10).
    rewrite !cycles_done_app, (cycles_done_io evs1 H2),
      (cycles_done_io evs2 H3). simpl. replace (n + 1)%nat with (S n) by lia.
    pose proof (push_xyz_lengths Acceleration _ _ _ n (H5 Acceleration)) as Pa.
    pose proof (push_xyz_lengths Gyroscope _ _ _ n (H5 Gyroscope)) as Pg.
    pose proof (push_xyz_lengths Magnetometer _ _ _ n (H5 Magnetometer)) as Pm.
    simpl in Pa, Pg, Pm.
    destruct (Pa L1 L2 L3) as (? & ? & ?).
    destruct (Pg L4 L5 L6) as (? & ? & ?).
    destruct (Pm L7 L8 L9) as (? & ? & ?).
    unfold all_lengths. repeat split; try assumption.
    rewrite H4, length_app, L10. simpl. lia.
Qed.


Lemma reaches_weaken {A} (R R' : State -> Prop) (r : Res A) :
  (forall s, R s -> R' s) -> reaches R r -> reaches R' r.
Proof. intros H. destruct r; simpl; auto. Qed.

Lemma reaches_session_trans {A} (s s1 : State) (r : Res A) :
  session_rel s s1 -> reaches (session_rel s1) r -> reaches (session_rel s) r.
Proof.
  intros H. apply reaches_weaken. intros s2. now apply session_rel_trans.
Qed.

Lemma reaches_bind {A B} (m : M A) (k : A -> M B) (s : State) :
  reaches (session_rel s) (m s) ->
  (forall a s1, reaches (session_rel s1) (k a s1)) ->
  reaches (session_rel s) (bind m k s).
Proof.
  intros Hm Hk. unfold bind. destruct (m s) as [a s1|e s1|s1]; simpl in *.
  - apply (reaches_session_trans s s1); [exact Hm|apply Hk].
  - exact Hm.
  - exact Hm.
Qed.

Lemma cache_set_client_socket (ch : Channel) (c : option nat)
      (sv : IMU_Server) :
  cache ch (set_client_socket c sv) = cache ch sv.
Proof. destruct ch; reflexivity. Qed.

(** A step that only appends events other than [EvCycle] and responses,
    and leaves dataset and caches alone. *)
Lemma session_rel_quiet_events (s s' : State) (evs : list Event) :
  clock (world s') = clock (world s) ->
  trace (world s') = trace (world s) ++ evs ->
  cycles_done evs = O ->
  (forall ch cur, latest ch evs cur = cur) ->
  full_dataset (self s') = full_dataset (self s) ->
  (forall ch, cache ch (self s') = cache ch (self s)) ->
  session_rel s s'.
Proof.
  intros H1 H2 H3 H4 H5 H6. split; [exact H1|]. exists evs.
  split; [exact H2|]. split.
  - intros ch. rewrite H4. apply H6.
  - intros n H. rewrite H3, Nat.add_0_r, H5. exact H.
Qed.

Lemma session_rel_reconnected (s : State) : session_rel s (reconnected s).
Proof.
  apply (session_rel_quiet_events _ _ [EvAccept (S (accepted (world s)))]);
    try reflexivity;
    try (intros ch; apply cache_set_client_socket).
Qed.

Lemma start_unfold (fuel : nat) (s : State) :
  start (S fuel) s
  = (poll_loop fuel (start fuel) (clock (world s) (ticks (world s))) 0 ;;
     finish_session) (reconnected s).
Proof. destruct s as [sv w]. reflexivity. Qed.

Lemma finish_session_spec (s : State) :
  exists s', finish_session s = Ok tt s' /\ session_rel s s'
             /\ client_socket (self s') = None.
Proof.
  destruct s as [sv w]. unfold finish_session. unfold_monad. cbn.
  destruct (timestamps (full_dataset sv)) as [|t ts];
    destruct (client_socket sv) as [c|] eqn:Hc; cbn; rewrite ?Hc; cbn.
  all: eexists; split; [reflexivity|]; split; [|first [reflexivity|exact Hc]].
  all: eapply session_rel_quiet_events; cbn;
    try reflexivity; try trace_eq; try reflexivity;
    try (intros ch; try apply cache_set_client_socket; reflexivity).
Qed.

Lemma time_time_spec (s : State) :
  exists s', time_time s = Ok (clock (world s) (ticks (world s))) s'
             /\ session_rel s s'
             /\ self s' = self s
             /\ ticks (world s') = S (ticks (world s)).
Proof.
  destruct s as [sv w]. eexists. split; [reflexivity|]. cbn.
  split; [|split; reflexivity].
  apply (session_rel_quiet_events _ _ []); cbn; try reflexivity.
  symmetry. apply app_nil_r.
Qed.

Lemma poll_cycle_session (restart : M unit) (t : Q) (k : Z) :
  (forall s, reaches (session_rel s) (restart s)) ->
  forall s, reaches (session_rel s) (poll_cycle restart t k s).
Proof.
  intros Hr s.
  change (poll_cycle restart t k)
    with (bind (bind get_self (fun sv => match client_socket sv with
                                         | None => restart
                                         | Some _ => ret tt
                                         end))
               (fun _ => cycle_body t k)).
  apply reaches_bind.
  - unfold bind, get_self. destruct (client_socket (self s)).
    + simpl. apply session_rel_refl.
    + apply Hr.
  - intros _ s1. destruct (cycle_body_spec t k s1) as (s2 & e1 & e2 & E & C).
    rewrite E. simpl. eapply cycle_step_session, C.
Qed.

Lemma poll_loop_session (restart : M unit) (t : Q) :
  (forall s, reaches (session_rel s) (restart s)) ->
  forall n k s, reaches (session_rel s) (poll_loop n restart t k s).
Proof.
  intros Hr. induction n as [|n IH]; intros k s.
  - simpl. apply session_rel_refl.
  - cbn [poll_loop]. apply reaches_bind.
    + destruct (time_time_spec s) as (s' & -> & R & _). exact R.
    + intros now s1. destruct (Qltb (now - t) 30).
      * apply reaches_bind; [apply poll_cycle_session, Hr|].
        intros k' s2. apply IH.
      * simpl. apply session_rel_refl.
Qed.

Lemma start_session (fuel : nat) :
  forall s, reaches (session_rel s) (start fuel s).
Proof.
  induction fuel as [|fuel IH]; intros s.
  - simpl. apply session_rel_refl.
  - rewrite start_unfold.
    apply (reaches_session_trans s (reconnected s));
      [apply session_rel_reconnected|].
    apply reaches_bind.
    + apply poll_loop_session, IH.
    + intros _ s1. destruct (finish_session_spec s1) as (s2 & -> & R & _).
      exact R.
Qed.

(** ** Connected server, quiet environment *)

Lemma Forall_tl {A} (P : A -> Prop) (l : list A) :
  Forall P l -> Forall P (tl l).
Proof. destruct 1; simpl; auto. Qed.

Lemma Forall_hd {A} (P : A -> Prop) (d : A) (l : list A) :
  P d -> Forall P l -> P (hd d l).
Proof. destruct 2; simpl; auto. Qed.

Lemma game_results_app (lg : list LogEntry) (e : LogEntry) :
  game_results (lg ++ [e])
  = (game_results lg
     + if String.eqb (entry_type e) "led_game" then 1 else 0)%nat.
Proof.
  unfold game_results. rewrite filter_app, length_app. simpl.
  destruct (String.eqb (entry_type e) "led_game"); reflexivity.
Qed.

Lemma unpack_fff_total (p : list byte) :
  negb (List.length p =? 12)%nat = false -> unpack_fff p <> None.
Proof.
  intros H. apply negb_false_iff, Nat.eqb_eq in H.
  do 13 (destruct p as [|? p]; try discriminate H). discriminate.
Qed.

Lemma unpack_6H_total (p : list byte) :
  negb (List.length p =? 12)%nat = false ->
  exists d0 d1 d2 d3 d4 d5, unpack_6H p = Some [d0; d1; d2; d3; d4; d5].
Proof.
  intros H. apply negb_false_iff, Nat.eqb_eq in H.
  do 13 (destruct p as [|? p]; try discriminate H).
  do 6 eexists. reflexivity.
Qed.

Ltac absurd_branch :=
  exfalso;
  first
    [ congruence
    | match goal with
      | Hl : negb _ = false, Hu : unpack_fff _ = None |- _ =>
          exact (unpack_fff_total _ Hl Hu)
      end
    | match goal with
      | Hl : negb _ = false, Hu : unpack_6H ?p = _ |- _ =>
          destruct (unpack_6H_total p Hl) as (? & ? & ? & ? & ? & ? & E);
          congruence
      end ].

Lemma send_request_steady (c : nat) (k : Z) (s : State) :
  0 <= k <= 255 -> steady c s ->
  exists s', send_request k s = Ok tt s'
             /\ steady_step c [k] [EvSend c (request_frame k)] s s'
             /\ self s' = self s.
Proof.
  intros Hk [Hc (Q1 & Q2 & Q3)].
  destruct s as [sv w]. destruct w as [clk tk ss rs ws ac lg tr].
  cbn in Hc, Q1, Q2, Q3.
  pose proof (Forall_hd _ true ss eq_refl Q1) as Hh.
  pose proof (Forall_tl _ ss Q1) as Ht.
  unfold_monad. cbn. rewrite Hc. cbn. unfold pack_B3s.
  replace ((0 <=? k) && (k <=? 255))%bool with true
    by (symmetry; apply andb_true_intro; split; apply Z.leb_le; lia).
  cbn. rewrite Hh. cbn.
  eexists. split; [reflexivity|]. split; [|reflexivity].
  unfold steady_step, steady, quiet. cbn.
  repeat split; auto; try reflexivity; lia.
Qed.

Lemma receive_response_steady (c : nat) (s : State) :
  steady c s ->
  exists s' evs, receive_response s = Ok tt s'
                 /\ steady_step c [] evs s s'.
Proof.
  intros [Hc (Q1 & Q2 & Q3)].
  destruct s as [sv w]. destruct w as [clk tk ss rs ws ac lg tr].
  cbn in Hc, Q1, Q2, Q3.
  assert (N : RecvData [] <> RecvFail) by discriminate.
  pose proof (Forall_hd _ _ rs N Q2) as H1.
  pose proof (Forall_hd _ _ (tl rs) N (Forall_tl _ _ Q2)) as H2.
  pose proof (Forall_hd _ _ (tl (tl rs)) N
                (Forall_tl _ _ (Forall_tl _ _ Q2))) as H3.
  pose proof (Forall_hd _ true ws eq_refl Q3) as Hw.
  pose proof (Forall_tl _ _ Q2) as T1.
  pose proof (Forall_tl _ _ T1) as T2.
  pose proof (Forall_tl _ _ T2) as T3.
  pose proof (Forall_tl _ _ Q3) as Tw.
  unfold_monad. unfold_consts. cbn. rewrite Hc. cbn.
  repeat (break_match; cbn; rewrite ?Hc; cbn); try absurd_branch.
  all: eexists; eexists; split; [reflexivity|].
  all: unfold steady_step, steady, quiet; cbn -[game_results].
  all: rewrite ?game_results_app; cbn -[game_results].
  all: split; [repeat split; try first [assumption|reflexivity]|].

  all: split; [reflexivity|]; split; [reflexivity|]; split; [reflexivity|].
  all: split; [trace_eq|].
  all: kinds_tac; cbn; repeat split; lia.
Qed.

Lemma sent_kinds_app (e1 e2 : list Event) :
  sent_kinds (e1 ++ e2) = sent_kinds e1 ++ sent_kinds e2.
Proof.
  induction e1 as [|e e1 IH]; [reflexivity|].
  destruct e as [| c [|k f] | | | | ]; simpl; rewrite IH; reflexivity.
Qed.

Lemma led_replies_app (e1 e2 : list Event) :
  led_replies (e1 ++ e2) = (led_replies e1 + led_replies e2)%nat.
Proof.
  induction e1 as [|e e1 IH]; [reflexivity|].
  destruct e; simpl; rewrite ?IH; try reflexivity.
  destruct (resp_type =? REQ_START_LED_GAME); simpl; rewrite ?IH; reflexivity.
Qed.

Lemma steady_step_trans (c : nat) (ks1 ks2 : list Z) (e1 e2 : list Event)
      (s s1 s2 : State) :
  steady_step c ks1 e1 s s1 -> steady_step c ks2 e2 s1 s2 ->
  steady_step c (ks1 ++ ks2) (e1 ++ e2) s s2.
Proof.
  intros (A1 & A2 & A3 & A4 & A5 & A6 & A7 & A8)
         (B1 & B2 & B3 & B4 & B5 & B6 & B7 & B8).
  unfold steady_step. repeat split; try congruence; try apply B1.
  - rewrite B5, A5. symmetry. apply app_assoc.
  - rewrite cycles_done_app, A6, B6. reflexivity.
  - rewrite sent_kinds_app, A7, B7. reflexivity.
  - rewrite led_replies_app. lia.
Qed.

Lemma exchange_steady (c : nat) (k : Z) (s : State) :
  0 <= k <= 255 -> steady c s ->
  exists s' evs,
    (send_request k ;; receive_response) s = Ok tt s'
    /\ steady_step c [k] evs s s'.
Proof.
  intros Hk Hs.
  destruct (send_request_steady c k s Hk Hs) as (s1 & E1 & N1 & _).
  destruct (receive_response_steady c s1 (proj1 N1)) as (s2 & e2 & E2 & N2).
  exists s2, ([EvSend c (request_frame k)] ++ e2). split.
  - rewrite (bind_ok _ _ _ _ _ E1). exact E2.
  - apply (steady_step_trans c [k] [] _ _ s s1 s2); assumption.
Qed.

Lemma poll_sensors_steady (c : nat) (s : State) :
  steady c s ->
  exists s' evs,
    poll_sensors s = Ok tt s'
    /\ steady_step c [REQ_READ_ACCELERATION; REQ_READ_GYROSCOPE;
                      REQ_READ_MAGNETOMETER] evs s s'.
Proof.
  intros Hs.
  destruct (exchange_steady c REQ_READ_ACCELERATION s) as (s1 & e1 & E1 & N1);
    [unfold_consts; lia|exact Hs|].
  destruct (exchange_steady c REQ_READ_GYROSCOPE s1) as (s2 & e2 & E2 & N2);
    [unfold_consts; lia|exact (proj1 N1)|].
  destruct (exchange_steady c REQ_READ_MAGNETOMETER s2)
    as (s3 & e3 & E3 & N3); [unfold_consts; lia|exact (proj1 N2)|].
  exists s3, ((e1 ++ e2) ++ e3). split.
  - unfold poll_sensors. unfold bind in *.
    destruct (send_request REQ_READ_ACCELERATION s) as [[] sa|?|?];
      try discriminate E1.
    rewrite E1.
    destruct (send_request REQ_READ_GYROSCOPE s1) as [[] sb|?|?];
      try discriminate E2.
    rewrite E2.
    destruct (send_request REQ_READ_MAGNETOMETER s2) as [[] sc|?|?];
      try discriminate E3.
    exact E3.
  - apply (steady_step_trans c [_; _] [_] (e1 ++ e2) e3 s s2 s3);
      [|exact N3].
    apply (steady_step_trans c [_] [_] e1 e2 s s1 s2); assumption.
Qed.

Lemma led_game_step_steady (c : nat) (k : Z) (s : State) :
  steady c s ->
  exists s' evs,
    led_game_step k s = Ok (next_counter k) s'
    /\ steady_step c (if 10 <=? k + 1 then [REQ_START_LED_GAME] else [])
                   evs s s'.
Proof.
  intros Hs. unfold led_game_step, next_counter.
  destruct (10 <=? k + 1).
  - destruct (exchange_steady c REQ_START_LED_GAME s) as (s1 & e1 & E1 & N1);
      [unfold_consts; lia|exact Hs|].
    exists s1, e1. split; [|exact N1].
    unfold bind in *.
    destruct (send_request REQ_START_LED_GAME s) as [[] sa|?|?];
      try discriminate E1.
    rewrite E1. reflexivity.
  - exists s, []. split; [reflexivity|].
    unfold steady_step. rewrite app_nil_r. repeat split; auto; try apply Hs.
    simpl. lia.
Qed.

Lemma cycle_body_steady (c : nat) (t : Q) (k : Z) (s : State) :
  steady c s ->
  exists s' evs,
    cycle_body t k s = Ok (next_counter k) s' /\ steady_cycle c t k evs s s'.
Proof.
  intros Hs.
  destruct (poll_sensors_steady c s Hs) as (s1 & evs1 & E1 & N1).
  set (s2 := {| self := append_sample
                          (clock (world s1) (ticks (world s1)) - t)%Q (self s1);
                world := world (ticked s1) |}).
  assert (E2 : store_sample t s1 = Ok tt s2) by reflexivity.
  assert (Hs2 : steady c s2).
  { destruct N1 as [[Hc Hq] _]. split; [exact Hc|exact Hq]. }
  destruct (led_game_step_steady c k s2 Hs2) as (s3 & evs2 & E3 & N3).
  eexists. exists (evs1 ++ evs2). split.
  - unfold cycle_body.
    rewrite (bind_ok _ _ _ _ _ E1), (bind_ok _ _ _ _ _ E2),
      (bind_ok _ _ _ _ _ E3).
    reflexivity.
  - destruct N1 as (A1 & A2 & A3 & A4 & A5 & A6 & A7 & A8).
    destruct N3 as (B1 & B2 & B3 & B4 & B5 & B6 & B7 & B8).
    assert (C1 : full_dataset (self s2)
                 = full_dataset (append_sample
                     (clock (world s1) (ticks (world s1)) - t)%Q (self s1)))
      by reflexivity.
    assert (C2 : trace (world s2) = trace (world s1)) by reflexivity.
    assert (C3 : clock (world s2) = clock (world s1)) by reflexivity.
    assert (C4 : ticks (world s2) = S (ticks (world s1))) by reflexivity.
    assert (C5 : log_file (world s2) = log_file (world s1)) by reflexivity.
    clearbody s2. clear E2 E3.
    unfold steady_cycle.
    cbn [self world trace clock ticks accepted log_file].
    repeat split; try apply B1.
    + congruence.
    + congruence.
    + rewrite B5, C2, A5. rewrite <- !app_assoc. reflexivity.
    + rewrite cycles_done_app, A6, B6. reflexivity.
    + rewrite sent_kinds_app, A7, B7. reflexivity.
    + rewrite B2, C1. cbn. rewrite A2, A3, A4. reflexivity.
    + rewrite led_replies_app. rewrite C5 in B8. lia.
Qed.

Lemma time_time_ticked (s : State) :
  time_time s = Ok (clock (world s) (ticks (world s))) (ticked s).
Proof. destruct s as [sv w]. reflexivity. Qed.

Lemma steady_ticked (c : nat) (s : State) : steady c s -> steady c (ticked s).
Proof. intros [H1 H2]. split; [exact H1|exact H2]. Qed.

(** While the server stays connected in a quiet environment the loop never
    re-enters [start]: an invariant kept by a clock reading and by an
    iteration holds wherever the loop stops. *)
Lemma poll_loop_steady (c : nat) (P : Z -> State -> Prop)
      (restart : M unit) (t : Q) :
  (forall k s, P k s -> steady c s) ->
  (forall k s, P k s -> P k (ticked s)) ->
  (forall k s s' evs, P k s -> steady_cycle c t k evs s s' ->
                      P (next_counter k) s') ->
  forall n k s, P k s ->
    reaches (fun s' => exists k', P k' s') (poll_loop n restart t k s).
Proof.
  intros Hst Htick Hcyc. induction n as [|n IH]; intros k s HP.
  - simpl. exists k. exact HP.
  - cbn [poll_loop]. rewrite (bind_ok _ _ _ _ _ (time_time_ticked s)).
    destruct (Qltb _ 30).
    + pose proof (Htick k s HP) as HP1.
      destruct (Hst _ _ HP1) as [Hc Hq].
      destruct (cycle_body_steady c t k (ticked s) (conj Hc Hq))
        as (s2 & evs & E & C).
      assert (Ep : poll_cycle restart t k (ticked s) = Ok (next_counter k) s2).
      { change (poll_cycle restart t k)
          with (bind (bind get_self
                        (fun sv => match client_socket sv with
                                   | None => restart
                                   | Some _ => ret tt
                                   end))
                     (fun _ => cycle_body t k)).
        unfold bind at 1. unfold bind at 1. unfold get_self.
        rewrite Hc. exact E. }
      rewrite (bind_ok _ _ _ _ _ Ep).
      apply IH. eapply Hcyc; eassumption.
    + simpl. exists k. apply Htick, HP.
Qed.

Lemma request_cycles_from_app (kind : Z) (tr1 tr2 : list Event) :
  forall k,
    request_cycles_from kind k (tr1 ++ tr2)
    = request_cycles_from kind k tr1
      ++ request_cycles_from kind (k + cycles_done tr1) tr2.
Proof.
  induction tr1 as [|e tr1 IH]; intros k.
  - simpl. rewrite Nat.add_0_r. reflexivity.
  - destruct e; cbn [app request_cycles_from cycles_done];
      try (destruct (is_request kind _)); rewrite IH; cbn [app];
      try reflexivity.
    rewrite Nat.add_succ_r. reflexivity.
Qed.

Lemma request_cycles_no_cycle (kind : Z) (k : nat) (evs : list Event) :
  cycles_done evs = O ->
  request_cycles_from kind k evs
  = map (fun _ => k) (filter (fun x => x =? kind) (sent_kinds evs)).
Proof.
  induction evs as [|e evs IH]; intros H; [reflexivity|].
  destruct e as [| c [|k0 f] | | | | ]; cbn in *; try discriminate H;
    try (apply IH; exact H).
  destruct (k0 =? kind); cbn; rewrite IH by exact H; reflexivity.
Qed.

Lemma tens_succ (n : nat) : tens (S n) = tens n ++ [(10 * S n)%nat].
Proof. unfold tens. rewrite seq_S, map_app. reflexivity. Qed.

(** The multiples of ten up to [m + 1] are those up to [m], plus [m + 1]
    when it is one. *)
Lemma tens_step (m : nat) :
  tens (S m / 10)
  = tens (m / 10) ++ (if (m mod 10 =? 9)%nat then [S m] else []).
Proof.
  pose proof (Nat.div_mod_eq m 10) as E1.
  pose proof (Nat.div_mod_eq (S m) 10) as E2.
  pose proof (Nat.mod_upper_bound m 10) as B1.
  pose proof (Nat.mod_upper_bound (S m) 10) as B2.
  destruct (Nat.eqb_spec (m mod 10) 9) as [E|E].
  - replace (S m / 10)%nat with (S (m / 10)) by lia.
    rewrite tens_succ. f_equal. f_equal. lia.
  - replace (S m / 10)%nat with (m / 10)%nat by lia.
    symmetry. apply app_nil_r.
Qed.

Lemma next_counter_mod (m : nat) :
  next_counter (Z.of_nat (m mod 10)) = Z.of_nat (S m mod 10).
Proof.
  pose proof (Nat.div_mod_eq m 10) as E1.
  pose proof (Nat.div_mod_eq (S m) 10) as E2.
  pose proof (Nat.mod_upper_bound m 10) as B1.
  pose proof (Nat.mod_upper_bound (S m) 10) as B2.
  unfold next_counter.
  destruct (Z.leb_spec 10 (Z.of_nat (m mod 10) + 1)); lia.
Qed.

(** The requests of an iteration that count as auxiliary-game requests. *)
Lemma led_requests_of_cycle (m : nat) :
  filter (fun x => x =? REQ_START_LED_GAME)
         (cycle_requests (Z.of_nat (m mod 10)))
  = if (m mod 10 =? 9)%nat then [REQ_START_LED_GAME] else [].
Proof.
  pose proof (Nat.mod_upper_bound m 10) as B1.
  unfold cycle_requests.
  destruct (Nat.eqb_spec (m mod 10) 9) as [E|E];
    destruct (Z.leb_spec 10 (Z.of_nat (m mod 10) + 1)); try lia;
    reflexivity.
Qed.

Lemma led_game_cycles_step (tr evs : list Event) :
  cycles_done evs = O ->
  sent_kinds evs = cycle_requests (Z.of_nat (cycles_done tr mod 10)) ->
  led_game_cycles tr = tens (cycles_done tr / 10) ->
  led_game_cycles (tr ++ evs ++ [EvCycle])
  = tens (cycles_done (tr ++ evs ++ [EvCycle]) / 10).
Proof.
  intros H0 Hk Hl. unfold led_game_cycles in *.
  rewrite !cycles_done_app, H0. cbn [cycles_done].
  replace (cycles_done tr + (0 + 1))%nat with (S (cycles_done tr)) by lia.
  rewrite !request_cycles_from_app, Hl, H0.
  rewrite (request_cycles_no_cycle _ _ evs H0), Hk, led_requests_of_cycle.
  cbn [request_cycles_from]. rewrite app_nil_r, tens_step.
  f_equal. destruct (cycles_done tr mod 10 =? 9)%nat; [|reflexivity].
  cbn. f_equal; lia.
Qed.

(** ** Cadence of the auxiliary-game requests *)

Lemma reaches_state_of {A} (R : State -> Prop) (r : Res A) :
  reaches R r -> R (state_of r).
Proof. destruct r; simpl; auto. intros []. Qed.

Lemma reaches_bind_gen {A B} (R1 R2 : State -> Prop) (m : M A)
      (k : A -> M B) (s : State) :
  reaches R1 (m s) ->
  (forall a s1, R1 s1 -> reaches R2 (k a s1)) ->
  (forall s1, R1 s1 -> R2 s1) ->
  reaches R2 (bind m k s).
Proof.
  intros Hm Hk Hc. unfold bind. destruct (m s) as [a s1|e s1|s1]; simpl in *.
  - apply Hk, Hm.
  - exact Hm.
  - apply Hc, Hm.
Qed.

(** The events [finish_session] adds carry no request, response or
    iteration mark; it changes neither the dataset nor the log. *)
Lemma finish_session_events (s : State) :
  exists s' evs,
    finish_session s = Ok tt s'
    /\ trace (world s') = trace (world s) ++ evs
    /\ cycles_done evs = O /\ sent_kinds evs = [] /\ led_replies evs = O
    /\ log_file (world s') = log_file (world s)
    /\ full_dataset (self s') = full_dataset (self s).
Proof.
  destruct s as [sv w]. unfold finish_session. unfold_monad. cbn.
  destruct (timestamps (full_dataset sv)) as [|t ts];
    destruct (client_socket sv) as [c|] eqn:Hc; cbn; rewrite ?Hc; cbn.
  all: eexists; eexists; split; [reflexivity|]; cbn.
  all: split; [trace_eq|]; repeat split; reflexivity.
Qed.

Lemma cadence_cycle (c : nat) (t : Q) (k : Z) (s s' : State)
      (evs : list Event) :
  cadence_inv c k s -> steady_cycle c t k evs s s' ->
  cadence_inv c (next_counter k) s'.
Proof.
  intros (I1 & I2 & I3 & I4) (S1 & S2 & S3 & S4 & S5 & S6 & S7 & S8).
  subst k. unfold cadence_inv. rewrite S4. repeat split; try apply S1.
  - rewrite !cycles_done_app, S5. cbn [cycles_done].
    replace (cycles_done (trace (world s)) + (0 + 1))%nat
      with (S (cycles_done (trace (world s)))) by lia.
    apply next_counter_mod.
  - apply led_game_cycles_step; assumption.
  - rewrite !led_replies_app. cbn [led_replies]. lia.
Qed.

Lemma cadence_ticked (c : nat) (k : Z) (s : State) :
  cadence_inv c k s -> cadence_inv c k (ticked s).
Proof. intros (I1 & I2 & I3 & I4). repeat split; try apply I1; assumption. Qed.

Lemma request_cycles_length (kind : Z) (tr : list Event) :
  forall k,
    List.length (request_cycles_from kind k tr)
    = List.length (filter (fun x => x =? kind) (sent_kinds tr)).
Proof.
  induction tr as [|e tr IH]; intros k; [reflexivity|].
  destruct e as [| c [|k0 f] | | | | ]; cbn; try apply IH.
  destruct (k0 =? kind); cbn; rewrite IH; reflexivity.
Qed.

Lemma conforming_led_replies (tr : list Event) :
  forall prev,
    conforming prev tr ->
    (led_replies tr
     <= List.length (filter (fun x => Z.eqb x REQ_START_LED_GAME)
                            (sent_kinds tr))
        + match prev with
          | Some k => if Z.eqb k REQ_START_LED_GAME then 1 else 0
          | None => 0
          end)%nat.
Proof.
  induction tr as [|e tr IH]; intros prev H; [simpl; lia|].
  destruct e as [| c [|k0 f] | t p | | | ]; cbn in *;
    try (specialize (IH None H); cbn in IH; lia).
  - specialize (IH (Some k0) H). cbn in IH.
    destruct (k0 =? REQ_START_LED_GAME); cbn; lia.
  - destruct H as [-> H]. specialize (IH None H). cbn in IH.
    destruct (t =? REQ_START_LED_GAME); lia.
Qed.

Lemma tens_length (n : nat) : List.length (tens n) = n.
Proof. unfold tens. rewrite length_map, length_seq. reflexivity. Qed.

(** The cadence facts at every state a run from a fresh server reaches. *)
Lemma start_cadence (clk : nat -> Q) (sends : list bool)
      (recvs : list recv_result) (writes : list bool) (fuel : nat) :
  quiet (initial_world clk sends recvs writes) ->
  reaches (fun s' =>
             led_game_cycles (trace (world s'))
             = tens (cycles_done (trace (world s')) / 10)
             /\ (game_results (log_file (world s'))
                 <= led_replies (trace (world s')))%nat)
          (start fuel (initial_state (initial_world clk sends recvs writes))).
Proof.
  intros Hq. destruct fuel as [|fuel].
  - simpl. split; [reflexivity|apply le_n].
  - rewrite start_unfold.
    eapply reaches_bind_gen.
    + apply (poll_loop_steady 1 (cadence_inv 1)).
      * intros k s H. apply H.
      * apply cadence_ticked.
      * intros k s s' evs. apply cadence_cycle.
      * repeat split; try apply Hq; try reflexivity.
    + intros _ s1 (k & I1 & I2 & I3 & I4).
      destruct (finish_session_events s1)
        as (s2 & evs & -> & T & C0 & K0 & L0 & Lg & _).
      simpl. rewrite T, Lg.
      unfold led_game_cycles in *.
      rewrite request_cycles_from_app, cycles_done_app, C0, Nat.add_0_r.
      rewrite (request_cycles_no_cycle _ _ evs C0), K0, led_replies_app, L0.
      cbn. rewrite app_nil_r. split; [exact I3|lia].
    + intros s1 (k & I1 & I2 & I3 & I4). split; assumption.
Qed.

(** C6 (amended): in a run from a fresh server in which no send, receive
    or log write raises, auxiliary-game requests go out exactly in the
    iterations 10, 20, 30, ...; fifty iterations send exactly five; and when
    the device only answers the requests it gets, the log holds at most one
    game result per ten iterations. *)
Theorem led_game_cadence (clk : nat -> Q) (sends : list bool)
        (recvs : list recv_result) (writes : list bool) (fuel : nat) :
  quiet (initial_world clk sends recvs writes) ->
  let s' := run fuel (initial_world clk sends recvs writes) in
  let n := cycles_done (trace (world s')) in
  led_game_cycles (trace (world s')) = tens (n / 10)
  /\ (n = 50%nat ->
      led_game_cycles (trace (world s')) = [10; 20; 30; 40; 50]%nat)
  /\ (conforming None (trace (world s')) ->
      (game_results (log_file (world s')) <= n / 10)%nat).
Proof.
  intros Hq s' n.
  destruct (reaches_state_of _ _ (start_cadence clk sends recvs writes fuel Hq))
    as [H1 H2].
  fold (run fuel (initial_world clk sends recvs writes)) in H1, H2.
  fold s' in H1, H2. fold n in H1.
  split; [exact H1|]. split.
  - intros E. rewrite H1, E. reflexivity.
  - intros Hc. apply conforming_led_replies in Hc. cbn in Hc.
    rewrite Nat.add_0_r in Hc.
    rewrite <- (request_cycles_length REQ_START_LED_GAME _ 1%nat) in Hc.
    fold (led_game_cycles (trace (world s'))) in Hc.
    rewrite H1, tens_length in Hc. lia.
Qed.

Lemma led_game_cadence_witness :
  led_game_cycles (trace (world (run 60 fifty_cycle_world)))
  = [10; 20; 30; 40; 50]%nat.
Proof.
  apply (led_game_cadence (linear_clock (3 # 10)) [] [] [] 60).
  - repeat split; constructor.
  - vm_compute. reflexivity.
Defined.

(** The claim as stated fails when the connection drops: ten iterations
    complete, the tenth with the socket already closed, and no
    auxiliary-game request is sent.  Nor is a game result tied to the
    tenth iteration: a device that answers the sensor requests with
    auxiliary-game responses gets three of them logged in one iteration. *)
Lemma led_game_claim_fails :
  (let s := run 20 drop_at_cycle10_world in
   cycles_done (trace (world s)) = 10%nat
   /\ led_game_cycles (trace (world s)) = []
   /\ led_game_cycles (trace (world s))
      <> tens (cycles_done (trace (world s)) / 10))
  /\ (let s := state_of (cycle_body 0 0 chatty_state) in
      cycles_done (trace (world s)) = 1%nat
      /\ game_results (log_file (world s)) = 3%nat).
Proof.
  vm_compute. repeat split; try reflexivity. discriminate.
Qed.

(** ** Sequence lengths and timestamps *)

Lemma nondecreasing_snoc (l : list Q) (y : Q) :
  nondecreasing l -> Forall (fun x => (x <= y)%Q) l ->
  nondecreasing (l ++ [y]).
Proof.
  induction l as [|a l IH]; intros Hn Hf; [exact I|].
  destruct l as [|b l].
  - simpl. split; [|exact I]. now inversion Hf.
  - change (nondecreasing ((a :: b :: l) ++ [y]))
      with ((a <= b)%Q /\ nondecreasing ((b :: l) ++ [y])).
    destruct Hn as [Hab Hn]. split; [exact Hab|].
    apply IH; [exact Hn|]. now inversion Hf.
Qed.

Lemma timeline_ticked (c : nat) (clk : nat -> Q) (t : Q) (k : Z) (s : State) :
  timeline_inv c clk t k s -> timeline_inv c clk t k (ticked s).
Proof.
  intros (I1 & I2 & I3 & I4). repeat split; try apply I1; try assumption.
  cbn. eapply Forall_impl; [|exact I4]. cbn. intros x H j Hj. apply H. lia.
Qed.

Lemma timeline_cycle (c : nat) (clk : nat -> Q) (t : Q) (k : Z)
      (s s' : State) (evs : list Event) :
  monotone_clock clk ->
  timeline_inv c clk t k s -> steady_cycle c t k evs s s' ->
  timeline_inv c clk t (next_counter k) s'.
Proof.
  intros Hm (I1 & I2 & I3 & I4) (S1 & S2 & S3 & S4 & S5 & S6 & S7 & S8).
  unfold timeline_inv. rewrite S7, S3, I2.
  split; [exact S1|]. split; [congruence|]. split.
  - apply nondecreasing_snoc; [exact I3|].
    eapply Forall_impl; [|exact I4]. cbn. intros x H. apply H. lia.
  - apply Forall_app. split.
    + eapply Forall_impl; [|exact I4]. cbn. intros x H j Hj. apply H. lia.
    + constructor; [|constructor]. intros j Hj.
      assert (clk (ticks (world s)) <= clk j)%Q by (apply Hm; lia).
      lra.
Qed.

(** Timestamps of a run without disconnection under a clock that never
    goes back. *)
Lemma start_timeline (clk : nat -> Q) (sends : list bool)
      (recvs : list recv_result) (writes : list bool) (fuel : nat) :
  monotone_clock clk ->
  quiet (initial_world clk sends recvs writes) ->
  reaches (fun s' => nondecreasing (timestamps (full_dataset (self s'))))
          (start fuel (initial_state (initial_world clk sends recvs writes))).
Proof.
  intros Hm Hq. destruct fuel as [|fuel].
  - simpl. exact I.
  - rewrite start_unfold.
    eapply reaches_bind_gen.
    + apply (poll_loop_steady 1 (timeline_inv 1 clk (clk O))).
      * intros k s H. apply H.
      * apply timeline_ticked.
      * intros k s s' evs. apply timeline_cycle, Hm.
      * repeat split; try apply Hq; try reflexivity. constructor.
    + intros _ s1 (k & I1 & I2 & I3 & I4).
      destruct (finish_session_events s1)
        as (s2 & evs & -> & _ & _ & _ & _ & _ & D).
      simpl. rewrite D. exact I3.
    + intros s1 (k & I1 & I2 & I3 & I4). exact I3.
Qed.

(** C4 (amended): at every state a run from a fresh server reaches, each
    of the nine sensor sequences and the timestamp sequence has exactly as
    many elements as iterations have completed, whatever failed on the way;
    and when the clock never goes back and no send, receive or log write
    raises (so that [start] is not re-entered), the timestamps are
    non-decreasing. *)
Theorem session_lengths (clk : nat -> Q) (sends : list bool)
        (recvs : list recv_result) (writes : list bool) (fuel : nat) :
  let w := initial_world clk sends recvs writes in
  let s' := run fuel w in
  all_lengths (full_dataset (self s')) (cycles_done (trace (world s')))
  /\ (monotone_clock clk -> quiet w ->
      nondecreasing (timestamps (full_dataset (self s')))).
Proof.
  intros w s'. split.
  - pose proof (start_session fuel (initial_state w)) as H.
    apply reaches_state_of in H. fold (run fuel w) in H. fold s' in H.
    destruct H as (_ & evs & T & _ & L).
    rewrite T. cbn. apply (L O). repeat split; reflexivity.
  - intros Hm Hq.
    exact (reaches_state_of _ _ (start_timeline clk sends recvs writes fuel Hm Hq)).
Qed.

Lemma linear_clock_monotone (step : Q) :
  (0 <= step)%Q -> monotone_clock (linear_clock step).
Proof.
  intros Hs i j Hij. unfold linear_clock.
  apply Qmult_le_compat_r; [|exact Hs].
  unfold Qle. simpl. lia.
Qed.

Lemma session_lengths_witness :
  nondecreasing (timestamps (full_dataset (self (run 60 fifty_cycle_world)))).
Proof.
  apply (session_lengths (linear_clock (3 # 10)) [] [] [] 60).
  - apply linear_clock_monotone. discriminate.
  - repeat split; constructor.
Defined.

(** The timestamps of the claim as stated: after a disconnection the
    re-entered [start] measures time from its own start, so the sequence
    drops back although the clock never does. *)
Lemma timestamps_decrease_after_reconnect :
  monotone_clock (linear_clock 1)
  /\ ~ nondecreasing
       (timestamps (full_dataset (self (run 40 reconnect_world)))).
Proof.
  split.
  - apply linear_clock_monotone. discriminate.
  - vm_compute. intros H. decompose [and] H.
    match goal with H : _ = Gt -> False |- _ => apply H; reflexivity end.
Qed.

(** ** Failures inside an iteration *)

Lemma poll_cycle_connected (restart : M unit) (t : Q) (k : Z) (s : State)
      (c : nat) :
  client_socket (self s) = Some c ->
  poll_cycle restart t k s = cycle_body t k s.
Proof.
  intros Hc.
  change (poll_cycle restart t k)
    with (bind (bind get_self (fun sv => match client_socket sv with
                                         | None => restart
                                         | Some _ => ret tt
                                         end))
               (fun _ => cycle_body t k)).
  unfold bind at 1. unfold bind at 1. unfold get_self. rewrite Hc.
  reflexivity.
Qed.

Lemma poll_cycle_disconnected (restart : M unit) (t : Q) (k : Z) (s : State) :
  client_socket (self s) = None ->
  poll_cycle restart t k s = (restart ;; cycle_body t k) s.
Proof.
  intros Hc.
  change (poll_cycle restart t k)
    with (bind (bind get_self (fun sv => match client_socket sv with
                                         | None => restart
                                         | Some _ => ret tt
                                         end))
               (fun _ => cycle_body t k)).
  unfold bind at 1. unfold bind at 1. unfold get_self. rewrite Hc.
  reflexivity.
Qed.

(** [send_request] and [receive_response] do nothing without a client. *)
Lemma no_socket_no_traffic (k : Z) (s : State) :
  client_socket (self s) = None ->
  send_request k s = Ok tt s /\ receive_response s = Ok tt s.
Proof.
  intros H. unfold send_request, receive_response, bind, get_self.
  rewrite H. split; reflexivity.
Qed.

Lemma receive_raises (s : State) (c : nat) :
  client_socket (self s) = Some c ->
  recv_raises (recv_script (world s)) ->
  exists s',
    receive_response s = Ok tt s'
    /\ client_socket (self s') = None
    /\ trace (world s') = trace (world s) ++ [EvClose c]
    /\ (forall ch, cache ch (self s') = cache ch (self s)).
Proof.
  intros Hc Hr.
  destruct s as [sv w]. destruct w as [clk tk ss rs ws ac lg tr].
  cbn in Hc, Hr.
  destruct rs as [|[[|b bs]|] [|[r|] [|[p|] rs]]]; cbn in Hr; try contradiction.
  all: unfold_monad; unfold_consts; cbn; rewrite Hc; cbn; rewrite ?Hc; cbn.
  all: try (destruct (firstn 1 (b :: bs)) as [|b' bs'] eqn:Ef;
            [discriminate Ef|]; cbn; rewrite ?Hc; cbn).
  all: eexists; split; [reflexivity|]; cbn.
  all: repeat split; try reflexivity; intros ch; destruct ch; reflexivity.
Qed.

Lemma firstn_short {A} (n : nat) (l : list A) :
  (List.length l < n)%nat -> (List.length (firstn n l) =? n)%nat = false.
Proof.
  intros H. apply Nat.eqb_neq. rewrite length_firstn. lia.
Qed.

Lemma receive_short (s : State) (c : nat) :
  client_socket (self s) = Some c ->
  short_read (recv_script (world s)) ->
  exists s',
    receive_response s = Ok tt s'
    /\ self s' = self s
    /\ trace (world s') = trace (world s)
    /\ log_file (world s') = log_file (world s).
Proof.
  intros Hc Hr.
  destruct s as [sv w]. destruct w as [clk tk ss rs ws ac lg tr].
  cbn in Hc, Hr.
  destruct rs as [|[[|b bs]|] [|[r|] [|[p|] rs]]]; cbn in Hr; try contradiction.
  all: unfold_monad; unfold_consts; cbn; rewrite Hc; cbn; rewrite ?Hc; cbn.
  all: try (destruct (firstn 1 (b :: bs)) as [|b' bs'] eqn:Ef;
            [discriminate Ef|]; cbn; rewrite ?Hc; cbn).
  all: try (rewrite (firstn_short 12 p Hr); cbn).
  all: try (change (firstn 12 []) with (@nil byte); cbn).
  all: eexists; split; [reflexivity|]; cbn; repeat split; reflexivity.
Qed.

(** C8 (amended): a receive during which [recv] raises is treated as a
    failure: the client socket is closed and cleared, and from then on no
    request is sent and no response read until [start] is re-entered.  A
    short read raises nothing: the response is dropped, the connection
    stays up, the server and the log are unchanged, and polling goes on. *)
Theorem receive_failure_handling (s : State) (c : nat) :
  client_socket (self s) = Some c ->
  (recv_raises (recv_script (world s)) ->
   exists s',
     receive_response s = Ok tt s'
     /\ client_socket (self s') = None
     /\ trace (world s') = trace (world s) ++ [EvClose c]
     /\ (forall k, send_request k s' = Ok tt s'
                   /\ receive_response s' = Ok tt s'))
  /\ (short_read (recv_script (world s)) ->
      exists s',
        receive_response s = Ok tt s'
        /\ client_socket (self s') = Some c
        /\ self s' = self s
        /\ trace (world s') = trace (world s)
        /\ log_file (world s') = log_file (world s)).
Proof.
  intros Hc. split.
  - intros Hr. destruct (receive_raises s c Hc Hr) as (s' & E & C & T & _).
    exists s'. repeat split; try assumption;
      apply (no_socket_no_traffic k s' C).
  - intros Hr. destruct (receive_short s c Hc Hr) as (s' & E & S & T & L).
    exists s'. repeat split; try assumption. rewrite S. exact Hc.
Qed.

Lemma receive_failure_handling_witness :
  exists s',
    receive_response
      (connected_state (initial_world (linear_clock 1) [] [RecvFail] []))
    = Ok tt s'
    /\ client_socket (self s') = None
    /\ trace (world s') = [EvClose 1].
Proof.
  destruct (receive_failure_handling
              (connected_state
                 (initial_world (linear_clock 1) [] [RecvFail] []))
              1%nat eq_refl) as [H _].
  destruct (H I) as (s' & E & C & T & _).
  exists s'. split; [exact E|]. split; [exact C|exact T].
Defined.

(** The claim as stated fails on a short read: five payload bytes instead
    of twelve leave the socket open and nothing is closed. *)
Lemma short_read_keeps_connection :
  short_read (recv_script (world short_payload_state))
  /\ exists s',
       receive_response short_payload_state = Ok tt s'
       /\ client_socket (self s') = Some 1%nat
       /\ ~ In (EvClose 1) (trace (world s')).
Proof.
  split; [simpl; lia|].
  eexists. split; [vm_compute; reflexivity|].
  split; [reflexivity|]. intros [].
Qed.

(** A complete response whose log write fails. *)
Lemma receive_log_failure_sensor (ch : Channel) (s : State) (c : nat)
      (reserved p : list byte) (rest : list recv_result) (x y z : pyfloat) :
  client_socket (self s) = Some c ->
  hd true (write_script (world s)) = false ->
  recv_script (world s) = device_reply (request_kind ch) reserved p ++ rest ->
  List.length p = 12%nat ->
  unpack_fff p = Some (x, y, z) ->
  exists s',
    receive_response s = Ok tt s'
    /\ client_socket (self s') = None
    /\ trace (world s') = trace (world s)
         ++ [EvRecv (request_kind ch) p; EvClose c]
    /\ log_file (world s') = log_file (world s)
    /\ cache ch (self s') = (x, y, z)
    /\ full_dataset (self s') = full_dataset (self s).
Proof.
  intros Hc Hw Hr Hl Hu.
  destruct s as [sv w]. destruct w as [clk tk ss rs ws ac lg tr].
  cbn in Hc, Hw, Hr. subst rs.
  unfold_monad. unfold_consts. unfold device_reply. cbn. rewrite Hc. cbn.
  change (firstn 1 [request_kind ch]) with [request_kind ch]. cbn.
  rewrite (firstn_exact 12 p Hl), Hl. cbn.
  destruct ch; cbn; rewrite Hu; cbn; rewrite Hw; cbn; rewrite Hc; cbn.
  all: eexists; split; [reflexivity|]; cbn.
  all: rewrite <- app_assoc; repeat split; reflexivity.
Qed.

Lemma receive_log_failure_game (s : State) (c : nat)
      (reserved p : list byte) (rest : list recv_result) :
  client_socket (self s) = Some c ->
  hd true (write_script (world s)) = false ->
  recv_script (world s) = device_reply REQ_START_LED_GAME reserved p ++ rest ->
  List.length p = 12%nat ->
  exists s',
    receive_response s = Ok tt s'
    /\ client_socket (self s') = None
    /\ trace (world s') = trace (world s)
         ++ [EvRecv REQ_START_LED_GAME p; EvClose c]
    /\ log_file (world s') = log_file (world s).
Proof.
  intros Hc Hw Hr Hl.
  assert (Hn : negb (List.length p =? 12)%nat = false) by (rewrite Hl; reflexivity).
  destruct (unpack_6H_total p Hn) as (d0 & d1 & d2 & d3 & d4 & d5 & Hu).
  destruct s as [sv w]. destruct w as [clk tk ss rs ws ac lg tr].
  cbn in Hc, Hw, Hr. subst rs.
  unfold_monad. unfold_consts. unfold device_reply. cbn. rewrite Hc. cbn.
  change (firstn 1 [84]) with [84]. cbn.
  rewrite (firstn_exact 12 p Hl), Hl. cbn.
  rewrite Hu; cbn; rewrite Hw; cbn; rewrite Hc; cbn.
  eexists; split; [reflexivity|]; cbn.
  rewrite <- app_assoc; repeat split; reflexivity.
Qed.

(** C9 (amended): a failure to write the log is not escalated.
    [receive_response] never raises; when the log write of a decoded
    response fails, the exception handler treats it as a disconnection:
    the client socket is closed and cleared and the call returns normally.
    The decoded sample is lost for the log but already in the cache, and
    the next stored record carries it. *)
Theorem log_failure_is_disconnection (s : State) (c : nat)
        (reserved p : list byte) (rest : list recv_result) :
  client_socket (self s) = Some c ->
  hd true (write_script (world s)) = false ->
  List.length p = 12%nat ->
  (forall s0, exists s', receive_response s0 = Ok tt s')
  /\ (forall ch x y z,
        recv_script (world s)
        = device_reply (request_kind ch) reserved p ++ rest ->
        unpack_fff p = Some (x, y, z) ->
        exists s',
          receive_response s = Ok tt s'
          /\ client_socket (self s') = None
          /\ trace (world s') = trace (world s)
               ++ [EvRecv (request_kind ch) p; EvClose c]
          /\ log_file (world s') = log_file (world s)
          /\ cache ch (self s') = (x, y, z)
          /\ (forall t, exists s'',
                 store_sample t s' = Ok tt s''
                 /\ channel_lists ch (full_dataset (self s''))
                    = push_xyz (channel_lists ch (full_dataset (self s)))
                               (x, y, z)))
  /\ (recv_script (world s)
      = device_reply REQ_START_LED_GAME reserved p ++ rest ->
      exists s',
        receive_response s = Ok tt s'
        /\ client_socket (self s') = None
        /\ trace (world s') = trace (world s)
             ++ [EvRecv REQ_START_LED_GAME p; EvClose c]
        /\ log_file (world s') = log_file (world s)).
Proof.
  intros Hc Hw Hl. split; [|split].
  - intros s0. destruct (receive_response_spec s0) as (s' & evs & E & _).
    exists s'. exact E.
  - intros ch x y z Hr Hu.
    destruct (receive_log_failure_sensor ch s c reserved p rest x y z
                Hc Hw Hr Hl Hu) as (s' & E & C & T & L & K & D).
    exists s'. repeat split; try assumption.
    intros t. eexists. split; [reflexivity|]. cbn [self].
    rewrite push_xyz_lists, D, K. reflexivity.
  - intros Hr. apply (receive_log_failure_game s c reserved p rest);
      assumption.
Qed.

Lemma log_failure_payload :
  unpack_fff (pack_fff f32_1_0 zero_float f32_9_8)
  = Some (f32_1_0, zero_float, f32_9_8).
Proof. vm_compute. reflexivity. Qed.

Lemma log_failure_is_disconnection_witness :
  exists s',
    receive_response log_failure_state = Ok tt s'
    /\ client_socket (self s') = None
    /\ log_file (world s') = []
    /\ cache Acceleration (self s') = (f32_1_0, zero_float, f32_9_8).
Proof.
  destruct (log_failure_is_disconnection log_failure_state 1%nat [0; 0; 0]
              (pack_fff f32_1_0 zero_float f32_9_8) []
              eq_refl eq_refl eq_refl) as (_ & H & _).
  destruct (H Acceleration f32_1_0 zero_float f32_9_8 eq_refl
              log_failure_payload) as (s' & E & C & _ & L & K & _).
  exists s'. repeat split; assumption.
Defined.

(** The claim as stated fails: with the log file unwritable the receive
    returns normally, nothing is raised to the caller, and the failure is
    turned into a disconnection. *)
Lemma log_failure_swallowed :
  exists s',
    receive_response log_failure_state = Ok tt s'
    /\ client_socket (self s') = None
    /\ In (EvClose 1) (trace (world s'))
    /\ forall e s'', receive_response log_failure_state <> Exn e s''.
Proof.
  eexists. split; [vm_compute; reflexivity|].
  split; [reflexivity|]. split; [right; left; reflexivity|].
  intros e s'' H. vm_compute in H. discriminate H.
Qed.

(** ** A complete session *)

(** The end-to-end scenario of the specification. *)
Example end_to_end_scenario :
  let s := run 60 scenario_world in
  all_lengths (full_dataset (self s)) 50
  /\ _calculate_stability_index (full_dataset (self s)) = Fin 100
  /\ _calculate_movement_efficiency (full_dataset (self s)) = Fin 100
  /\ led_game_cycles (trace (world s)) = [10; 20; 30; 40; 50]%nat
  /\ game_results (log_file (world s)) = 5%nat
  /\ client_socket (self s) = None.
Proof. vm_compute. repeat split; reflexivity. Qed.

(** * Invariants of every run *)

Section RunInvariant.

Variable R : State -> State -> Prop.

Hypothesis R_refl : forall s, R s s.
Hypothesis R_trans : forall s s1 s2, R s s1 -> R s1 s2 -> R s s2.
Hypothesis R_send :
  forall k s, In k request_kinds ->
              exists s', send_request k s = Ok tt s' /\ R s s'.
Hypothesis R_recv : forall s, exists s', receive_response s = Ok tt s' /\ R s s'.
Hypothesis R_tick : forall s, R s (ticked s).
Hypothesis R_append :
  forall t s, R s {| self := append_sample t (self s); world := world s |}.
Hypothesis R_mark : forall s, R s (state_of (emit EvCycle s)).
Hypothesis R_accept :
  forall s, client_socket (self s) = None -> R s (reconnected s).
Hypothesis R_finish : forall s, R s (state_of (finish_session s)).

Lemma reaches_step {A B} (m : M A) (k : A -> M B) (s : State) :
  reaches (R s) (m s) ->
  (forall a s1, reaches (R s1) (k a s1)) ->
  reaches (R s) (bind m k s).
Proof.
  intros Hm Hk. apply (reaches_bind_gen (R s) (R s)); [exact Hm| |auto].
  intros a s1 H1. eapply reaches_weaken; [|apply Hk].
  intros s2. apply R_trans, H1.
Qed.

Lemma exchange_inv (k : Z) (s : State) :
  In k request_kinds ->
  reaches (R s) ((send_request k ;; receive_response) s).
Proof.
  intros Hk. apply reaches_step.
  - destruct (R_send k s Hk) as (s1 & -> & H). exact H.
  - intros _ s1. destruct (R_recv s1) as (s2 & -> & H). exact H.
Qed.

Lemma cycle_body_inv (t : Q) (k : Z) (s : State) :
  reaches (R s) (cycle_body t k s).
Proof.
  assert (Hx : forall k s, In k request_kinds ->
                 reaches (R s) (send_request k s)).
  { intros k0 s0 Hk. destruct (R_send k0 s0 Hk) as (s1 & -> & H). exact H. }
  assert (Hr : forall s, reaches (R s) (receive_response s)).
  { intros s0. destruct (R_recv s0) as (s1 & -> & H). exact H. }
  unfold cycle_body, poll_sensors, store_sample, led_game_step.
  apply reaches_step.
  { apply reaches_step; [apply Hx; simpl; tauto|intros _ s1].
    apply reaches_step; [apply Hr|intros _ s2].
    apply reaches_step; [apply Hx; simpl; tauto|intros _ s3].
    apply reaches_step; [apply Hr|intros _ s4].
    apply reaches_step; [apply Hx; simpl; tauto|intros _ s5].
    apply Hr. }
  intros _ s1. apply reaches_step.
  { apply reaches_step.
    - rewrite time_time_ticked. apply R_tick.
    - intros now s2. apply (R_append _ s2). }
  intros _ s2. apply reaches_step.
  { destruct (10 <=? k + 1).
    - apply reaches_step; [apply Hx; simpl; tauto|intros _ s3].
      apply reaches_step; [apply Hr|intros _ s4]. apply R_refl.
    - apply R_refl. }
  intros k' s3. apply reaches_step.
  - pose proof (R_mark s3) as Hm. destruct s3 as [? []]. exact Hm.
  - intros _ s4. apply R_refl.
Qed.

Lemma poll_cycle_inv (restart : M unit) (t : Q) (k : Z) :
  (forall s, client_socket (self s) = None -> reaches (R s) (restart s)) ->
  forall s, reaches (R s) (poll_cycle restart t k s).
Proof.
  intros Hr s.
  change (poll_cycle restart t k)
    with (bind (bind get_self (fun sv => match client_socket sv with
                                         | None => restart
                                         | Some _ => ret tt
                                         end))
               (fun _ => cycle_body t k)).
  apply reaches_step.
  - unfold bind, get_self. destruct (client_socket (self s)) eqn:E.
    + apply R_refl.
    + apply Hr, E.
  - intros _ s1. apply cycle_body_inv.
Qed.

Lemma poll_loop_inv (restart : M unit) (t : Q) :
  (forall s, client_socket (self s) = None -> reaches (R s) (restart s)) ->
  forall n k s, reaches (R s) (poll_loop n restart t k s).
Proof.
  intros Hr. induction n as [|n IH]; intros k s.
  - apply R_refl.
  - cbn [poll_loop]. apply reaches_step.
    + rewrite time_time_ticked. apply R_tick.
    + intros now s1. destruct (Qltb (now - t) 30).
      * apply reaches_step; [apply poll_cycle_inv, Hr|].
        intros k' s2. apply IH.
      * apply R_refl.
Qed.

(** A relation that every step of the server respects holds between the
    state in which [start] is called without a client and every state the
    call reaches. *)
Lemma start_inv (fuel : nat) :
  forall s, client_socket (self s) = None -> reaches (R s) (start fuel s).
Proof.
  induction fuel as [|fuel IH]; intros s Hs.
  - apply R_refl.
  - rewrite start_unfold.
    eapply reaches_weaken; [intros s2; apply R_trans, (R_accept s Hs)|].
    apply reaches_step.
    + apply poll_loop_inv, IH.
    + intros _ s1. pose proof (R_finish s1) as H.
      destruct (finish_session_spec s1) as (s2 & E & _). rewrite E in *.
      exact H.
Qed.

End RunInvariant.

(** ** One client at a time *)

Lemma connection_after_app (tr1 tr2 : list Event) :
  forall open,
    connection_after open (tr1 ++ tr2)
    = match connection_after open tr1 with
      | Some open' => connection_after open' tr2
      | None => None
      end.
Proof.
  induction tr1 as [|e tr1 IH]; intros open; [reflexivity|].
  destruct e; destruct open as [c'|]; cbn [app connection_after];
    try apply IH; try reflexivity.
  - destruct ((c =? c')%nat && is_request_frame frame); [apply IH|reflexivity].
  - destruct (c =? c')%nat; [apply IH|reflexivity].
Qed.

Lemma accepts_app (tr1 tr2 : list Event) :
  accepts (tr1 ++ tr2) = accepts tr1 ++ accepts tr2.
Proof.
  induction tr1 as [|e tr1 IH]; [reflexivity|].
  destruct e; simpl; rewrite IH; reflexivity.
Qed.

(** A step that accepts no client keeps the invariant when its events
    respect the discipline. *)
Lemma connection_inv_step (s s' : State) (evs : list Event) :
  trace (world s') = trace (world s) ++ evs ->
  connection_after (client_socket (self s)) evs
  = Some (client_socket (self s')) ->
  accepts evs = [] ->
  accepted (world s') = accepted (world s) ->
  connection_inv s -> connection_inv s'.
Proof.
  intros T C A N [I1 I2]. unfold connection_inv.
  rewrite T, connection_after_app, accepts_app, I1, C, A, N, app_nil_r.
  split; [reflexivity|exact I2].
Qed.

Lemma send_request_connection (k : Z) (s : State) :
  In k request_kinds ->
  exists s', send_request k s = Ok tt s'
             /\ (connection_inv s -> connection_inv s').
Proof.
  intros Hk.
  assert (Hf : pack_B3s k [1; 2; 3] = Some (request_frame k)
               /\ is_request_frame (request_frame k) = true).
  { simpl in Hk. decompose [or] Hk; subst; try contradiction;
      split; reflexivity. }
  destruct Hf as [Hp Hf]. cbn in Hf.
  destruct s as [sv w]. destruct w as [clk tk ss rs ws ac lg tr].
  unfold_monad. cbn.
  destruct (client_socket sv) as [c|] eqn:Hc; cbn.
  - rewrite Hp. cbn.
    destruct ss as [|[] ss]; cbn; rewrite ?Hc; cbn.
    all: eexists; split; [reflexivity|].
    all: eapply connection_inv_step; cbn; try reflexivity; try trace_eq.
    all: cbn; rewrite ?Hc; cbn; rewrite ?Nat.eqb_refl, ?Hf; reflexivity.
  - eexists; split; [reflexivity|].
    apply (connection_inv_step _ _ []); cbn; try reflexivity; try trace_eq.
Qed.

Lemma receive_response_connection (s : State) :
  exists s', receive_response s = Ok tt s'
             /\ (connection_inv s -> connection_inv s').
Proof.
  destruct s as [sv w]. destruct w as [clk tk ss rs ws ac lg tr].
  unfold_monad. unfold_consts. cbn.
  repeat (break_match; cbn; rewrite ?Heqo; cbn).
  all: eexists; split; [reflexivity|].
  all: eapply connection_inv_step; cbn; try reflexivity; try trace_eq.
  all: cbn; rewrite ?Heqo; cbn; rewrite ?Nat.eqb_refl; reflexivity.
Qed.

Lemma connection_inv_reconnected (s : State) :
  client_socket (self s) = None ->
  connection_inv s -> connection_inv (reconnected s).
Proof.
  intros Hs [I1 I2]. unfold connection_inv, reconnected.
  cbn [self world trace accepted client_socket set_client_socket].
  rewrite connection_after_app, accepts_app, I1, I2, Hs, seq_S.
  split; reflexivity.
Qed.

Lemma finish_session_connection (s : State) :
  connection_inv s -> connection_inv (state_of (finish_session s)).
Proof.
  destruct s as [sv w]. unfold finish_session. unfold_monad. cbn.
  destruct (timestamps (full_dataset sv)) as [|t ts];
    destruct (client_socket sv) as [c|] eqn:Hc; cbn; rewrite ?Hc; cbn.
  all: eapply connection_inv_step; cbn; try reflexivity; try trace_eq.
  all: cbn; rewrite ?Hc; cbn; rewrite ?Nat.eqb_refl; reflexivity.
Qed.

(** The invariant at every state a call of [start] without a client
    reaches. *)
Lemma start_connection (fuel : nat) (s : State) :
  client_socket (self s) = None ->
  connection_inv s ->
  reaches connection_inv (start fuel s).
Proof.
  intros Hs Hi.
  eapply reaches_weaken;
    [|apply (start_inv (fun s s' => connection_inv s -> connection_inv s'));
      try exact Hs].
  - cbn. intros s' H. apply H, Hi.
  - auto.
  - auto.
  - apply send_request_connection.
  - apply receive_response_connection.
  - intros s0. apply (connection_inv_step _ _ []); try reflexivity.
    cbn. symmetry. apply app_nil_r.
  - intros t s0. apply (connection_inv_step _ _ []); try reflexivity.
    cbn. symmetry. apply app_nil_r.
  - intros [sv w]. apply (connection_inv_step _ _ [EvCycle]); reflexivity.
  - apply connection_inv_reconnected.
  - apply finish_session_connection.
Qed.

(** X1: in a run from a fresh server the socket traffic respects the
    connection discipline at every state reached, whatever fails on the
    way: a client is accepted only while none is open, frames go only to
    the open client and are request frames of the four kinds, responses
    are read only while a client is open, only the open client is closed;
    the client left open is the server's [client_socket]; and the clients
    are accepted in the order 1, 2, 3, ... *)
Theorem connection_discipline (clk : nat -> Q) (sends : list bool)
        (recvs : list recv_result) (writes : list bool) (fuel : nat) :
  let s' := run fuel (initial_world clk sends recvs writes) in
  connection_after None (trace (world s'))
  = Some (client_socket (self s'))
  /\ accepts (trace (world s')) = seq 1 (accepted (world s')).
Proof.
  intros s'.
  apply (reaches_state_of connection_inv
           (start fuel
              (initial_state (initial_world clk sends recvs writes)))).
  apply start_connection; [reflexivity|].
  split; reflexivity.
Qed.

(** X2: when [start] returns, no client is left open: the server holds no
    client socket and every client accepted during the run has been
    closed. *)
Theorem no_client_left_open (clk : nat -> Q) (sends : list bool)
        (recvs : list recv_result) (writes : list bool) (fuel : nat)
        (s' : State) :
  start fuel (initial_state (initial_world clk sends recvs writes))
  = Ok tt s' ->
  client_socket (self s') = None
  /\ connection_after None (trace (world s')) = Some None.
Proof.
  intros E.
  assert (Hn : client_socket (self s') = None).
  { destruct fuel as [|fuel]; [discriminate E|].
    rewrite start_unfold in E. unfold bind at 1 in E.
    destruct (poll_loop _ _ _ _ _) as [[] s1|e s1|s1]; try discriminate E.
    destruct (finish_session_spec s1) as (s2 & E2 & _ & H).
    rewrite E2 in E. injection E as <-. exact H. }
  split; [exact Hn|].
  pose proof (start_connection fuel
                (initial_state (initial_world clk sends recvs writes))
                eq_refl (conj eq_refl eq_refl)) as H.
  rewrite E in H. destruct H as [H _]. rewrite H, Hn. reflexivity.
Qed.

Lemma no_client_left_open_run :
  start 3 (initial_state (initial_world (linear_clock 20) [] [] []))
  = Ok tt (run 3 (initial_world (linear_clock 20) [] [] [])).
Proof. vm_compute. reflexivity. Qed.

Lemma no_client_left_open_witness :
  connection_after None
    (trace (world (run 3 (initial_world (linear_clock 20) [] [] []))))
  = Some None.
Proof.
  apply (no_client_left_open (linear_clock 20) [] [] [] 3).
  exact no_client_left_open_run.
Defined.

(** ** The log file *)

Lemma logged_app (e1 e2 : list Event) :
  logged (e1 ++ e2) = logged e1 ++ logged e2.
Proof.
  induction e1 as [|e e1 IH]; [reflexivity|].
  destruct e; simpl; rewrite ?IH; try reflexivity.
  destruct (log_line resp_type payload); rewrite ?IH; reflexivity.
Qed.

Lemma log_step_refl (s : State) : log_step s s.
Proof.
  exists [], []. rewrite !app_nil_r. repeat split; auto.
  apply incl_refl.
Qed.

Lemma log_step_trans (s s1 s2 : State) :
  log_step s s1 -> log_step s1 s2 -> log_step s s2.
Proof.
  intros (e1 & n1 & A1 & A2 & A3 & A4 & A5) (e2 & n2 & B1 & B2 & B3 & B4 & B5).
  exists (e1 ++ e2), (n1 ++ n2). rewrite logged_app.
  split; [rewrite B1, A1; symmetry; apply app_assoc|].
  split; [rewrite B2, A2; symmetry; apply app_assoc|].
  split; [apply incl_app_app; assumption|].
  split; [rewrite !length_app; lia|].
  intros W. destruct (A5 W) as [-> W1]. destruct (B5 W1) as [-> W2].
  split; [reflexivity|exact W2].
Qed.

(** A step that touches neither the log nor the write script and receives
    no response. *)
Lemma log_step_silent (s s' : State) (evs : list Event) :
  trace (world s') = trace (world s) ++ evs ->
  logged evs = [] ->
  log_file (world s') = log_file (world s) ->
  write_script (world s') = write_script (world s) ->
  log_step s s'.
Proof.
  intros T L F W. exists evs, []. rewrite L, app_nil_r.
  split; [exact T|]. split; [exact F|]. split; [apply incl_refl|].
  split; [apply le_n|]. unfold writes_succeed. rewrite W. auto.
Qed.

Lemma send_request_log (k : Z) (s : State) :
  exists s', send_request k s = Ok tt s' /\ log_step s s'.
Proof.
  destruct s as [sv w]. destruct w as [clk tk ss rs ws ac lg tr].
  unfold_monad. cbn.
  destruct (client_socket sv) as [c|] eqn:Hc; cbn.
  - destruct (pack_B3s k [1; 2; 3]); cbn.
    + destruct ss as [|[] ss]; cbn; rewrite ?Hc; cbn.
      all: eexists; split; [reflexivity|].
      all: eapply log_step_silent; cbn; try reflexivity; try trace_eq;
        reflexivity.
    + rewrite Hc; cbn. eexists; split; [reflexivity|].
      eapply log_step_silent; cbn; try reflexivity; try trace_eq;
        reflexivity.
  - eexists; split; [reflexivity|]. apply log_step_refl.
Qed.

Lemma receive_response_log (s : State) :
  exists s', receive_response s = Ok tt s' /\ log_step s s'.
Proof.
  destruct s as [sv w]. destruct w as [clk tk ss rs ws ac lg tr].
  unfold_monad. unfold_consts. cbn.
  repeat (break_match; cbn; rewrite ?Heqo; cbn).
  all: eexists; split; [reflexivity|].
  all: unfold log_step, writes_succeed; cbn.
  all: eexists; eexists.
  all: split; [trace_eq|].
  all: split; [first [reflexivity | symmetry; apply app_nil_r]|].
  all: cbn; unfold log_line; unfold_consts; rewrite_hyps; cbn.
  all: split; [first [apply incl_refl | intros ? []]|].
  all: split; [first [apply le_n | apply Nat.le_0_l]|].
  all: intros W.
  all: first [ split; [reflexivity|first [exact (Forall_tl _ _ W) | exact W]]
             | pose proof (Forall_hd _ true _ eq_refl W); congruence ].
Qed.

Lemma finish_session_log (s : State) : log_step s (state_of (finish_session s)).
Proof.
  destruct s as [sv w]. unfold finish_session. unfold_monad. cbn.
  destruct (timestamps (full_dataset sv)) as [|t ts];
    destruct (client_socket sv) as [c|] eqn:Hc; cbn; rewrite ?Hc; cbn.
  all: eapply log_step_silent; cbn; try reflexivity; try trace_eq;
    reflexivity.
Qed.

(** The log relation between the state in which [start] is called and
    every state the call reaches. *)
Lemma start_log (fuel : nat) (s : State) :
  client_socket (self s) = None -> reaches (log_step s) (start fuel s).
Proof.
  intros Hs. apply (start_inv log_step); try exact Hs.
  - apply log_step_refl.
  - apply log_step_trans.
  - intros k s0 _. apply send_request_log.
  - apply receive_response_log.
  - intros s0. apply (log_step_silent _ _ []); try reflexivity.
    cbn. symmetry. apply app_nil_r.
  - intros t s0. apply (log_step_silent _ _ []); try reflexivity.
    cbn. symmetry. apply app_nil_r.
  - intros [sv w]. apply (log_step_silent _ _ [EvCycle]); reflexivity.
  - intros s0 _.
    apply (log_step_silent _ _ [EvAccept (S (accepted (world s0)))]);
      reflexivity.
  - apply finish_session_log.
Qed.

(** X3: the log file written during a run from a fresh server holds only
    lines of complete responses received during the run, never more lines
    than such responses; and when no write to the log file fails it holds
    exactly the line of every complete response of a known kind, once
    each, in the order of arrival. *)
Theorem log_mirrors_responses (clk : nat -> Q) (sends : list bool)
        (recvs : list recv_result) (writes : list bool) (fuel : nat) :
  let s' := run fuel (initial_world clk sends recvs writes) in
  incl (log_file (world s')) (logged (trace (world s')))
  /\ (List.length (log_file (world s'))
      <= List.length (logged (trace (world s'))))%nat
  /\ (Forall (fun b => b = true) writes ->
      log_file (world s') = logged (trace (world s'))).
Proof.
  intros s'.
  pose proof (reaches_state_of _ _
                (start_log fuel
                   (initial_state (initial_world clk sends recvs writes))
                   eq_refl)) as (evs & new & T & L & I & N & W).
  fold (run fuel (initial_world clk sends recvs writes)) in T, L, W.
  fold s' in T, L, W. cbn in T, L. rewrite T, L.
  split; [exact I|]. split; [exact N|].
  intros H. apply W, H.
Qed.

Lemma log_mirrors_responses_witness :
  log_file (world (run 60 scenario_world))
  = logged (trace (world (run 60 scenario_world))).
Proof.
  unfold scenario_world.
  apply (log_mirrors_responses (linear_clock (3 # 10)) []
           (List.concat (map scenario_cycle (seq 1 50))) [] 60).
  constructor.
Defined.

(** ** Order of the requests *)

Lemma cycle_requests_of_cycle (m : nat) :
  cycle_requests (Z.of_nat (m mod 10)) = requests_of_cycle (S m).
Proof.
  pose proof (Nat.div_mod_eq m 10) as E1.
  pose proof (Nat.div_mod_eq (S m) 10) as E2.
  pose proof (Nat.mod_upper_bound m 10) as B1.
  pose proof (Nat.mod_upper_bound (S m) 10) as B2.
  unfold cycle_requests, requests_of_cycle.
  destruct (Z.leb_spec 10 (Z.of_nat (m mod 10) + 1));
    destruct (Nat.eqb_spec (S m mod 10) 0); try reflexivity; lia.
Qed.

Lemma schedule_succ (n : nat) :
  schedule (S n) = schedule n ++ requests_of_cycle (S n).
Proof.
  unfold schedule. rewrite seq_S, flat_map_app. cbn [flat_map].
  rewrite app_nil_r. reflexivity.
Qed.

Lemma schedule_cycle (c : nat) (t : Q) (k : Z) (s s' : State)
      (evs : list Event) :
  schedule_inv c k s -> steady_cycle c t k evs s s' ->
  schedule_inv c (next_counter k) s'.
Proof.
  intros (I1 & I2 & I3) (S1 & S2 & S3 & S4 & S5 & S6 & S7 & S8).
  subst k. unfold schedule_inv. rewrite S4.
  rewrite !cycles_done_app, S5. cbn [cycles_done].
  replace (cycles_done (trace (world s)) + (0 + 1))%nat
    with (S (cycles_done (trace (world s)))) by lia.
  split; [exact S1|]. split; [apply next_counter_mod|].
  rewrite !sent_kinds_app, I3, S6, schedule_succ, cycle_requests_of_cycle.
  cbn [sent_kinds]. rewrite app_nil_r. reflexivity.
Qed.

Lemma start_schedule (clk : nat -> Q) (sends : list bool)
      (recvs : list recv_result) (writes : list bool) (fuel : nat) :
  quiet (initial_world clk sends recvs writes) ->
  reaches (fun s' => sent_kinds (trace (world s'))
                     = schedule (cycles_done (trace (world s'))))
          (start fuel (initial_state (initial_world clk sends recvs writes))).
Proof.
  intros Hq. destruct fuel as [|fuel].
  - reflexivity.
  - rewrite start_unfold.
    eapply reaches_bind_gen.
    + apply (poll_loop_steady 1 (schedule_inv 1)).
      * intros k s H. apply H.
      * intros k s (I1 & I2 & I3). repeat split; try apply I1; assumption.
      * intros k s s' evs. apply schedule_cycle.
      * repeat split; try apply Hq; reflexivity.
    + intros _ s1 (k & I1 & I2 & I3).
      destruct (finish_session_events s1)
        as (s2 & evs & -> & T & C0 & K0 & _).
      simpl. rewrite T, sent_kinds_app, cycles_done_app, K0, C0, I3.
      rewrite app_nil_r, Nat.add_0_r. reflexivity.
    + intros s1 (k & I1 & I2 & I3). exact I3.
Qed.

(** X4: in a run from a fresh server in which no send, receive or log
    write raises, the requests go out in a fixed order: every iteration
    asks for acceleration, then gyroscope, then magnetometer, and every
    tenth iteration then asks for the auxiliary game; nothing else is
    sent. *)
Theorem request_schedule (clk : nat -> Q) (sends : list bool)
        (recvs : list recv_result) (writes : list bool) (fuel : nat) :
  quiet (initial_world clk sends recvs writes) ->
  let s' := run fuel (initial_world clk sends recvs writes) in
  sent_kinds (trace (world s')) = schedule (cycles_done (trace (world s'))).
Proof.
  intros Hq.
  exact (reaches_state_of _ _ (start_schedule clk sends recvs writes fuel Hq)).
Qed.

Lemma request_schedule_witness :
  sent_kinds (trace (world (run 60 fifty_cycle_world)))
  = schedule (cycles_done (trace (world (run 60 fifty_cycle_world)))).
Proof.
  apply (request_schedule (linear_clock (3 # 10)) [] [] [] 60).
  repeat split; constructor.
Defined.

(** ** The thirty-second bound *)

Lemma poll_loop_steady_guard (c : nat) (P : Z -> State -> Prop)
      (restart : M unit) (t : Q) :
  (forall k s, P k s -> steady c s) ->
  (forall k s, P k s -> P k (ticked s)) ->
  (forall k s s' evs,
      P k s ->
      Qltb (clock (world s) (ticks (world s)) - t) 30 = true ->
      cycle_body t k (ticked s) = Ok (next_counter k) s' ->
      steady_cycle c t k evs (ticked s) s' ->
      P (next_counter k) s') ->
  forall n k s, P k s ->
    reaches (fun s' => exists k', P k' s') (poll_loop n restart t k s).
Proof.
  intros Hst Htick Hcyc. induction n as [|n IH]; intros k s HP.
  - simpl. exists k. exact HP.
  - cbn [poll_loop]. rewrite (bind_ok _ _ _ _ _ (time_time_ticked s)).
    destruct (Qltb _ 30) eqn:Hg.
    + destruct (Hst _ _ (Htick k s HP)) as [Hc Hq].
      destruct (cycle_body_steady c t k (ticked s) (conj Hc Hq))
        as (s2 & evs & E & C).
      assert (Ep : poll_cycle restart t k (ticked s) = Ok (next_counter k) s2).
      { change (poll_cycle restart t k)
          with (bind (bind get_self
                        (fun sv => match client_socket sv with
                                   | None => restart
                                   | Some _ => ret tt
                                   end))
                     (fun _ => cycle_body t k)).
        unfold bind at 1. unfold bind at 1. unfold get_self.
        rewrite Hc. exact E. }
      rewrite (bind_ok _ _ _ _ _ Ep).
      apply IH. eapply Hcyc; eassumption.
    + simpl. exists k. apply Htick, HP.
Qed.

Lemma Qltb_lt (a b : Q) : Qltb a b = true -> (a < b)%Q.
Proof.
  unfold Qltb. intros H. apply negb_true_iff in H.
  apply Qnot_le_lt. intros L. apply Qle_bool_iff in L. congruence.
Qed.

Lemma deadline_cycle (c : nat) (clk : nat -> Q) (t : Q) (k : Z)
      (s s' : State) (evs : list Event) :
  monotone_clock clk -> (t <= clk O)%Q ->
  deadline_inv c clk t k s ->
  Qltb (clock (world s) (ticks (world s)) - t) 30 = true ->
  steady_cycle c t k evs (ticked s) s' ->
  deadline_inv c clk t (next_counter k) s'.
Proof.
  intros Hm Ht (I1 & I2 & I3 & I4 & I5) Hg
         (S1 & S2 & S3 & S4 & S5 & S6 & S7 & S8).
  apply Qltb_lt in Hg. rewrite I2 in Hg.
  cbn [ticked self world clock ticks] in S2, S3, S7.
  unfold deadline_inv. rewrite S7, S3, I2, removelast_last.
  split; [exact S1|]. split; [congruence|]. split; [|split].
  - apply Forall_app. split.
    + eapply Forall_impl; [|exact I3]. cbn. intros x H j Hj. apply H. lia.
    + constructor; [|constructor]. intros j Hj.
      assert (clk (S (ticks (world s))) <= clk j)%Q by (apply Hm; lia).
      lra.
  - apply Forall_app. split; [exact I4|].
    constructor; [|constructor].
    assert (clk O <= clk (S (ticks (world s))))%Q by (apply Hm; lia).
    lra.
  - eapply Forall_impl; [|exact I3]. cbn. intros x H.
    specialize (H (ticks (world s)) (le_n _)). lra.
Qed.

Lemma start_deadline (clk : nat -> Q) (sends : list bool)
      (recvs : list recv_result) (writes : list bool) (fuel : nat) :
  monotone_clock clk ->
  quiet (initial_world clk sends recvs writes) ->
  reaches (fun s' =>
             Forall (fun x => (0 <= x)%Q) (timestamps (full_dataset (self s')))
             /\ Forall (fun x => (x < 30)%Q)
                       (removelast (timestamps (full_dataset (self s')))))
          (start fuel (initial_state (initial_world clk sends recvs writes))).
Proof.
  intros Hm Hq. destruct fuel as [|fuel].
  - simpl. split; constructor.
  - rewrite start_unfold.
    eapply reaches_bind_gen.
    + apply (poll_loop_steady_guard 1 (deadline_inv 1 clk (clk O))).
      * intros k s H. apply H.
      * intros k s (I1 & I2 & I3 & I4 & I5).
        repeat split; try apply I1; try assumption.
        cbn. eapply Forall_impl; [|exact I3]. cbn. intros x H j Hj.
        apply H. lia.
      * intros k s s' evs I G _. revert I G.
        apply deadline_cycle; [exact Hm|apply Qle_refl].
      * repeat split; try apply Hq; try reflexivity; constructor.
    + intros _ s1 (k & I1 & I2 & I3 & I4 & I5).
      destruct (finish_session_events s1)
        as (s2 & evs & -> & _ & _ & _ & _ & _ & D).
      simpl. rewrite D. split; assumption.
    + intros s1 (k & I1 & I2 & I3 & I4 & I5). split; assumption.
Qed.

(** X5: in a run from a fresh server in which no send, receive or log
    write raises and the clock never goes back, no timestamp is negative
    and every timestamp but the last is below thirty seconds: the loop is
    left at the first clock reading that is thirty seconds or more past
    the start, so only the record of the iteration under way may fall
    beyond the bound. *)
Theorem session_deadline (clk : nat -> Q) (sends : list bool)
        (recvs : list recv_result) (writes : list bool) (fuel : nat) :
  monotone_clock clk ->
  quiet (initial_world clk sends recvs writes) ->
  let s' := run fuel (initial_world clk sends recvs writes) in
  Forall (fun x => (0 <= x)%Q) (timestamps (full_dataset (self s')))
  /\ Forall (fun x => (x < 30)%Q)
            (removelast (timestamps (full_dataset (self s')))).
Proof.
  intros Hm Hq.
  exact (reaches_state_of _ _ (start_deadline clk sends recvs writes fuel Hm Hq)).
Qed.

Lemma session_deadline_witness :
  Forall (fun x => (x < 30)%Q)
         (removelast
            (timestamps (full_dataset (self (run 60 fifty_cycle_world))))).
Proof.
  apply (session_deadline (linear_clock (3 # 10)) [] [] [] 60).
  - apply linear_clock_monotone. discriminate.
  - repeat split; constructor.
Defined.

(** ** The report *)

Lemma reports_app (tr1 tr2 : list Event) :
  reports (tr1 ++ tr2) = reports tr1 ++ reports tr2.
Proof.
  induction tr1 as [|e tr1 IH]; [reflexivity|].
  destruct e; simpl; rewrite IH; reflexivity.
Qed.

Lemma reports_io (evs : list Event) : Forall io_event evs -> reports evs = [].
Proof.
  induction 1 as [|e evs He _ IH]; [reflexivity|].
  destruct e; simpl in *; try contradiction; exact IH.
Qed.

Lemma report_cycle (c : nat) (t : Q) (k : Z) (s s' : State) :
  report_inv c k s ->
  steady c s' ->
  cycle_body t k s = Ok (next_counter k) s' ->
  report_inv c (next_counter k) s'.
Proof.
  intros (I1 & I2 & I3) Hs E.
  destruct (cycle_body_spec t k s) as (s2 & e1 & e2 & E2 & C).
  rewrite E in E2. injection E2 as <-.
  destruct C as (C1 & C2 & C3 & C4 & _).
  unfold report_inv. rewrite C1, C4.
  rewrite !reports_app, !cycles_done_app, length_app, I2, I3.
  rewrite (reports_io e1 C2), (reports_io e2 C3).
  rewrite (cycles_done_io e1 C2), (cycles_done_io e2 C3).
  split; [exact Hs|]. split; reflexivity.
Qed.

(** X6: when a run from a fresh server in which no send, receive or log
    write raises returns, it has generated exactly one report if at least
    one iteration completed, computed from the dataset as the session
    leaves it, and none otherwise. *)
Theorem one_report_per_session (clk : nat -> Q) (sends : list bool)
        (recvs : list recv_result) (writes : list bool) (fuel : nat)
        (s' : State) :
  quiet (initial_world clk sends recvs writes) ->
  start fuel (initial_state (initial_world clk sends recvs writes))
  = Ok tt s' ->
  reports (trace (world s'))
  = match cycles_done (trace (world s')) with
    | O => []
    | S _ => [_calculate_technical_metrics (full_dataset (self s'))]
    end.
Proof.
  intros Hq E. destruct fuel as [|fuel]; [discriminate E|].
  rewrite start_unfold in E. unfold bind at 1 in E.
  pose proof (poll_loop_steady_guard 1 (report_inv 1) (start fuel)
                (clock (world (initial_state
                                 (initial_world clk sends recvs writes))) O)
                (fun k s H => proj1 H)) as L.
  specialize (L (fun k s H => H)).
  specialize (L (fun k s s2 evs I _ Ec Sc =>
                   report_cycle 1 _ k (ticked s) s2 I (proj1 Sc) Ec)).
  specialize (L fuel 0
                (reconnected
                   (initial_state (initial_world clk sends recvs writes)))).
  cbn [initial_state initial_world world ticks clock] in E, L.
  destruct (poll_loop _ _ _ _ _) as [[] s1|e s1|s1]; try discriminate E.
  destruct L as (k & I1 & I2 & I3).
  { split; [split; [reflexivity|exact Hq]|]. split; reflexivity. }
  clear - E I2 I3.
  destruct s1 as [sv w]. revert E. unfold finish_session. unfold_monad. cbn.
  cbn in I2, I3.
  destruct (timestamps (full_dataset sv)) as [|t ts] eqn:Ts;
    destruct (client_socket sv) as [c|] eqn:Hc; cbn; rewrite ?Hc; cbn;
    intros [= <-]; cbn;
    rewrite ?reports_app, ?cycles_done_app, I2, <- I3; reflexivity.
Qed.

Lemma one_report_per_session_run :
  start 3 (initial_state (initial_world (linear_clock 20) [] [] []))
  = Ok tt (run 3 (initial_world (linear_clock 20) [] [] [])).
Proof. vm_compute. reflexivity. Qed.

Lemma one_report_per_session_cycles :
  cycles_done (trace (world (run 3 (initial_world (linear_clock 20) [] [] []))))
  = 1%nat.
Proof. vm_compute. reflexivity. Qed.

Lemma one_report_per_session_witness :
  reports (trace (world (run 3 (initial_world (linear_clock 20) [] [] []))))
  = [_calculate_technical_metrics
       (full_dataset
          (self (run 3 (initial_world (linear_clock 20) [] [] []))))].
Proof.
  rewrite (one_report_per_session (linear_clock 20) [] [] [] 3 _
             (conj (Forall_nil _) (conj (Forall_nil _) (Forall_nil _)))
             one_report_per_session_run).
  rewrite one_report_per_session_cycles. reflexivity.
Defined.

(** ** Where the records come from *)

Lemma decoded_app (ch : Channel) (e1 e2 : list Event) :
  decoded ch (e1 ++ e2) = decoded ch e1 ++ decoded ch e2.
Proof.
  induction e1 as [|e e1 IH]; [reflexivity|].
  destruct e; simpl; try exact IH.
  destruct (resp_type =? request_kind ch); [|exact IH].
  destruct (unpack_fff payload); rewrite IH; reflexivity.
Qed.

Lemma latest_decoded (ch : Channel) (evs : list Event) :
  forall cur, In (latest ch evs cur) (cur :: decoded ch evs).
Proof.
  induction evs as [|e evs IH]; intros cur; [left; reflexivity|].
  destruct e; cbn [latest decoded]; try apply IH.
  destruct (resp_type =? request_kind ch); [|apply IH].
  destruct (unpack_fff payload) as [v|]; [|apply IH].
  right. apply IH.
Qed.

(** A step that leaves the dataset alone and changes the caches as the
    responses it receives dictate. *)
Lemma provenance_step (s s' : State) (evs : list Event) :
  trace (world s') = trace (world s) ++ evs ->
  full_dataset (self s') = full_dataset (self s) ->
  (forall ch, cache ch (self s') = latest ch evs (cache ch (self s))) ->
  provenance_inv s -> provenance_inv s'.
Proof.
  intros T D C I ch. destruct (I ch) as (I1 & I2 & I3).
  rewrite T, D, C, decoded_app. split; [exact I1|]. split.
  - destruct (latest_decoded ch evs (cache ch (self s))) as [<-|H].
    + destruct I2 as [I2|I2]; [left; exact I2|].
      right. apply in_or_app. left. exact I2.
    + right. apply in_or_app. right. exact H.
  - eapply Forall_impl; [|exact I3]. cbn. intros v [H|H]; [left; exact H|].
    right. apply in_or_app. left. exact H.
Qed.

Lemma provenance_net_step (s s' : State) (evs : list Event) :
  net_step evs s s' -> provenance_inv s -> provenance_inv s'.
Proof.
  intros (A1 & _ & _ & _ & A5 & _ & A7 & _).
  apply (provenance_step s s' evs); assumption.
Qed.

Lemma combine_snoc {A B} (l : list A) (l' : list B) (a : A) (b : B) :
  List.length l = List.length l' ->
  combine (l ++ [a]) (l' ++ [b]) = combine l l' ++ [(a, b)].
Proof.
  revert l'. induction l as [|x l IH]; intros [|y l'] H;
    try discriminate H; [reflexivity|].
  simpl. rewrite IH by (injection H; auto). reflexivity.
Qed.

Lemma provenance_append (t : Q) (s : State) :
  provenance_inv s ->
  provenance_inv {| self := append_sample t (self s); world := world s |}.
Proof.
  intros I ch. destruct (I ch) as (I1 & I2 & I3).
  cbn [self world]. rewrite cache_append_sample.
  unfold records in *. rewrite push_xyz_lists.
  destruct (channel_lists ch (full_dataset (self s))) as [[xs ys] zs].
  destruct (cache ch (self s)) as [[x y] z] eqn:Ec.
  cbn [push_xyz]. destruct I1 as [L1 L2].
  split; [rewrite !length_app; cbn; lia|]. split; [exact I2|].
  rewrite !combine_snoc by (rewrite ?length_combine; lia).
  apply Forall_app. split; [exact I3|].
  constructor; [exact I2|constructor].
Qed.

Lemma start_provenance (fuel : nat) (s : State) :
  client_socket (self s) = None ->
  provenance_inv s ->
  reaches provenance_inv (start fuel s).
Proof.
  intros Hs Hi.
  eapply reaches_weaken;
    [|apply (start_inv (fun s s' => provenance_inv s -> provenance_inv s'));
      try exact Hs].
  - cbn. intros s' H. apply H, Hi.
  - auto.
  - auto.
  - intros k s0 _. destruct (send_request_spec k s0) as (s1 & evs & E & N & _).
    exists s1. split; [exact E|]. apply (provenance_net_step _ _ evs N).
  - intros s0. destruct (receive_response_spec s0) as (s1 & evs & E & N & _).
    exists s1. split; [exact E|]. apply (provenance_net_step _ _ evs N).
  - intros s0. apply (provenance_step _ _ []); try reflexivity.
    cbn. symmetry. apply app_nil_r.
  - apply provenance_append.
  - intros [sv w]. apply (provenance_step _ _ [EvCycle]); reflexivity.
  - intros s0 _.
    apply (provenance_step _ _ [EvAccept (S (accepted (world s0)))]);
      reflexivity.
  - intros s0.
    destruct (finish_session_events s0) as (s1 & evs & E & T & _ & _ & L & _ & D).
    rewrite E. cbn [state_of].
    intros I ch. destruct (I ch) as (I1 & I2 & I3).
    assert (C : cache ch (self s1) = cache ch (self s0)).
    { clear - E. destruct s0 as [sv w]. revert E.
      unfold finish_session. unfold_monad. cbn.
      destruct (timestamps (full_dataset sv));
        destruct (client_socket sv) eqn:Hc; cbn; rewrite ?Hc; cbn;
        intros [= <-]; cbn; try reflexivity; apply cache_set_client_socket. }
    assert (G : decoded ch evs = []).
    { clear - E T. destruct s0 as [sv w]. revert E T.
      unfold finish_session. unfold_monad. cbn.
      destruct (timestamps (full_dataset sv));
        destruct (client_socket sv) eqn:Hc; cbn; rewrite ?Hc; cbn;
        intros [= <-]; cbn; rewrite <- ?app_assoc; intros T;
        try (apply app_inv_head in T; subst; reflexivity).
      rewrite <- (app_nil_r (trace w)) in T at 1.
      apply app_inv_head in T. subst. reflexivity. }
    rewrite T, D, C, decoded_app, G, app_nil_r. auto.
Qed.

(** X8: in a run from a fresh server, whatever fails on the way, every
    record of a channel is the initial (0, 0, 0) or a triple decoded from
    one response of that channel's kind received earlier in the run: the
    three components of a record always stem from the same response, and
    the channel has one record per completed iteration. *)
Theorem records_provenance (clk : nat -> Q) (sends : list bool)
        (recvs : list recv_result) (writes : list bool) (fuel : nat)
        (ch : Channel) :
  let s' := run fuel (initial_world clk sends recvs writes) in
  Forall (fun v => v = origin \/ In v (decoded ch (trace (world s'))))
         (records ch (full_dataset (self s')))
  /\ List.length (records ch (full_dataset (self s')))
     = cycles_done (trace (world s')).
Proof.
  intros s'.
  assert (H0 : provenance_inv
                 (initial_state (initial_world clk sends recvs writes))).
  { intros c. destruct c; cbn; auto. }
  pose proof (reaches_state_of _ _
                (start_provenance fuel
                   (initial_state (initial_world clk sends recvs writes))
                   eq_refl H0)) as H.
  fold (run fuel (initial_world clk sends recvs writes)) in H. fold s' in H.
  destruct (H ch) as (I1 & _ & I3).
  split.
  - eapply Forall_impl; [|exact I3]. cbn. intros v [E|E]; auto.
  - pose proof (start_session fuel
                  (initial_state (initial_world clk sends recvs writes))) as S.
    apply reaches_state_of in S.
    fold (run fuel (initial_world clk sends recvs writes)) in S. fold s' in S.
    destruct S as (_ & evs & T & _ & L).
    specialize (L O ltac:(repeat split; reflexivity)).
    cbn in T. rewrite T.
    destruct L as (L1 & L2 & L3 & L4 & L5 & L6 & L7 & L8 & L9 & _).
    unfold records, xyz. destruct ch; cbn [channel_lists];
      rewrite !length_combine; lia.
Qed.

(** ** Edge cases of a request/response step *)

(** X9: a request type that does not fit one byte makes [struct.pack]
    raise inside [send_request]; the exception is handled as a
    disconnection: nothing is sent, no send is even attempted, and the
    client socket is closed and dropped. *)
Theorem send_request_out_of_range (k : Z) (s : State) (c : nat) :
  client_socket (self s) = Some c ->
  k < 0 \/ 255 < k ->
  exists s',
    send_request k s = Ok tt s'
    /\ client_socket (self s') = None
    /\ trace (world s') = trace (world s) ++ [EvClose c]
    /\ send_script (world s') = send_script (world s)
    /\ full_dataset (self s') = full_dataset (self s).
Proof.
  intros Hc Hk.
  destruct s as [sv w]. destruct w as [clk tk ss rs ws ac lg tr].
  cbn in Hc. unfold_monad. cbn. rewrite Hc. cbn. unfold pack_B3s.
  replace ((0 <=? k) && (k <=? 255))%bool with false
    by (symmetry; apply andb_false_iff;
        destruct Hk; [left; apply Z.leb_gt|right; apply Z.leb_gt]; lia).
  cbn. rewrite Hc. cbn.
  eexists. split; [reflexivity|]. cbn. repeat split; reflexivity.
Qed.

Lemma send_request_out_of_range_witness :
  exists s',
    send_request 256 silent_state = Ok tt s'
    /\ client_socket (self s') = None.
Proof.
  destruct (send_request_out_of_range 256 silent_state 1 eq_refl
              (or_intror eq_refl)) as (s' & E & H & _).
  exists s'. split; [exact E|exact H].
Defined.

(** X10: a complete response whose kind is none of the four is read off
    the socket and dropped: the server's caches, dataset and client socket
    and the log file stay as they are, and no exception is raised. *)
Theorem unknown_response_ignored (s : State) (c : nat) (t : byte)
        (reserved p : list byte) (rest : list recv_result) :
  client_socket (self s) = Some c ->
  recv_script (world s) = device_reply t reserved p ++ rest ->
  List.length p = 12%nat ->
  ~ In t request_kinds ->
  exists s',
    receive_response s = Ok tt s'
    /\ self s' = self s
    /\ log_file (world s') = log_file (world s)
    /\ write_script (world s') = write_script (world s)
    /\ recv_script (world s') = rest
    /\ trace (world s') = trace (world s) ++ [EvRecv t p].
Proof.
  intros Hc Hr Hl Hk.
  destruct s as [sv w]. destruct w as [clk tk ss rs ws ac lg tr].
  cbn in Hc, Hr. subst rs.
  assert (K : (t =? REQ_READ_ACCELERATION) = false
              /\ (t =? REQ_READ_GYROSCOPE) = false
              /\ (t =? REQ_READ_MAGNETOMETER) = false
              /\ (t =? REQ_START_LED_GAME) = false).
  { repeat split; apply Z.eqb_neq; intros ->; apply Hk; simpl; tauto. }
  destruct K as (K1 & K2 & K3 & K4).
  unfold_monad. unfold device_reply. cbn. rewrite Hc. cbn.
  change (firstn 1 [t]) with [t]. cbn.
  unfold RESPONSE_PAYLOAD_SIZE.
  rewrite (firstn_exact 12 p Hl), Hl. cbn.
  rewrite K1, K2, K3, K4.
  eexists. split; [reflexivity|]. cbn.
  destruct sv. cbn in Hc. subst. repeat split; reflexivity.
Qed.

Lemma unknown_response_ignored_witness :
  exists s',
    receive_response
      (connected_state
         (initial_world (linear_clock 1) []
            (device_reply 0x60 [0; 0; 0] (pack_6H [1; 2; 3; 4; 5; 6])) []))
    = Ok tt s'
    /\ log_file (world s') = [].
Proof.
  destruct (unknown_response_ignored
              (connected_state
                 (initial_world (linear_clock 1) []
                    (device_reply 0x60 [0; 0; 0]
                       (pack_6H [1; 2; 3; 4; 5; 6])) []))
              1 0x60 [0; 0; 0] (pack_6H [1; 2; 3; 4; 5; 6]) [])
    as (s' & E & _ & L & _); try reflexivity.
  - unfold request_kinds. unfold_consts. simpl.
    intros H. decompose [or] H; try discriminate; assumption.
  - exists s'. split; [exact E|exact L].
Defined.

(** X11: the server does not match a response against the request it
    follows: whatever kind was requested, a complete sensor response
    updates the cache of the channel named by the response's own kind
    byte, is logged under that channel's name, and leaves the other two
    caches alone. *)
Theorem response_kind_decides (k : Z) (ch : Channel) (s : State) (c : nat)
        (reserved p : list byte) (rest : list recv_result) (x y z : pyfloat) :
  0 <= k <= 255 ->
  client_socket (self s) = Some c ->
  hd true (send_script (world s)) = true ->
  hd true (write_script (world s)) = true ->
  recv_script (world s) = device_reply (request_kind ch) reserved p ++ rest ->
  List.length p = 12%nat ->
  unpack_fff p = Some (x, y, z) ->
  exists s',
    (send_request k ;; receive_response) s = Ok tt s'
    /\ trace (world s') = trace (world s)
         ++ [EvSend c (request_frame k); EvRecv (request_kind ch) p]
    /\ cache ch (self s') = (x, y, z)
    /\ (forall ch', ch' <> ch -> cache ch' (self s') = cache ch' (self s))
    /\ log_file (world s') = log_file (world s)
         ++ [{| entry_type := channel_name ch; entry_data := DataXYZ x y z |}].
Proof.
  intros Hk Hc Hs Hw Hr Hl Hu.
  destruct s as [sv w]. destruct w as [clk tk ss rs ws ac lg tr].
  cbn in Hc, Hs, Hw, Hr. subst rs.
  unfold_monad. unfold_consts. unfold device_reply. cbn. rewrite Hc. cbn.
  unfold pack_B3s.
  replace ((0 <=? k) && (k <=? 255))%bool with true
    by (symmetry; apply andb_true_intro; split; apply Z.leb_le; lia).
  cbn. rewrite Hs. cbn. rewrite Hc. cbn.
  change (firstn 1 [request_kind ch]) with [request_kind ch]. cbn.
  rewrite (firstn_exact 12 p Hl), Hl. cbn.
  destruct ch; cbn; rewrite Hu; cbn; rewrite Hw; cbn.
  all: eexists; split; [reflexivity|]; cbn.
  all: rewrite <- app_assoc.
  all: split; [reflexivity|]; split; [reflexivity|]; split; [|reflexivity].
  all: intros ch' Hn; destruct ch'; try reflexivity; contradiction.
Qed.

Lemma response_kind_decides_witness :
  exists s',
    (send_request REQ_READ_ACCELERATION ;; receive_response)
      (connected_state
         (initial_world (linear_clock 1) []
            (device_reply REQ_READ_GYROSCOPE [0; 0; 0]
               (pack_fff f32_1_0 zero_float f32_9_8)) [])) = Ok tt s'
    /\ cache Gyroscope (self s') = (f32_1_0, zero_float, f32_9_8)
    /\ cache Acceleration (self s') = origin.
Proof.
  destruct (response_kind_decides REQ_READ_ACCELERATION Gyroscope
              (connected_state
                 (initial_world (linear_clock 1) []
                    (device_reply REQ_READ_GYROSCOPE [0; 0; 0]
                       (pack_fff f32_1_0 zero_float f32_9_8)) []))
              1%nat [0; 0; 0] (pack_fff f32_1_0 zero_float f32_9_8) []
              f32_1_0 zero_float f32_9_8)
    as (s' & E & _ & C & O & _); try reflexivity.
  - unfold_consts. lia.
  - exists s'. split; [exact E|]. split; [exact C|].
    rewrite (O Acceleration) by discriminate. reflexivity.
Defined.

(** ** Metrics of a channel holding an infinity or NaN *)

Lemma fold_fadd_NaN (a : list f64) : fold_left fadd a NaN = NaN.
Proof. induction a as [|v a IH]; [reflexivity|exact IH]. Qed.

Lemma fold_fadd_Inf (a : list f64) (s : bool) :
  fold_left fadd a (Inf s) = NaN \/ fold_left fadd a (Inf s) = Inf s.
Proof.
  induction a as [|v a IH]; [right; reflexivity|].
  destruct v as [q|t|]; cbn [fold_left fadd].
  - exact IH.
  - destruct (Bool.eqb s t); [exact IH|left; apply fold_fadd_NaN].
  - left. apply fold_fadd_NaN.
Qed.

Lemma fold_fadd_In_NaN (a : list f64) :
  In NaN a -> forall acc, fold_left fadd a acc = NaN.
Proof.
  induction a as [|v a IH]; intros H acc; [contradiction|].
  destruct H as [->|H]; [|apply IH, H].
  cbn [fold_left]. replace (fadd acc NaN) with NaN by (destruct acc; reflexivity).
  apply fold_fadd_NaN.
Qed.

Lemma fold_fadd_In_Inf (a : list f64) (s : bool) :
  In (Inf s) a ->
  forall acc, fold_left fadd a acc = NaN \/ fold_left fadd a acc = Inf s.
Proof.
  induction a as [|v a IH]; intros H acc; [contradiction|].
  destruct H as [->|H]; [|apply IH, H].
  cbn [fold_left]. destruct acc as [q|t|]; cbn [fadd].
  - apply fold_fadd_Inf.
  - destruct (Bool.eqb_spec t s) as [->|_];
      [apply fold_fadd_Inf|left; apply fold_fadd_NaN].
  - left. apply fold_fadd_NaN.
Qed.

Lemma np_count_not_negative (a : list f64) (s : bool) :
  fdiv (Inf s) (np_count a) = Inf s.
Proof.
  unfold np_count, f64_of_Z. cbn [fdiv].
  rewrite Qltb_false_of_le by (unfold Qle; simpl; lia).
  destruct s; reflexivity.
Qed.

(** The variance of an array holding an infinity or NaN is NaN. *)
Lemma np_var_unbounded (a : list f64) :
  Exists unbounded a -> np_var a = NaN.
Proof.
  intros H. apply Exists_exists in H. destruct H as (v & Hin & Hv).
  unfold np_var. set (m := fdiv (np_sum a) (np_count a)).
  assert (Hd : fsub v m = NaN).
  { destruct v as [q|s|]; [contradiction| |reflexivity].
    subst m. unfold np_sum.
    destruct (fold_fadd_In_Inf a s Hin (Fin 0)) as [-> | ->].
    - reflexivity.
    - rewrite np_count_not_negative. destruct s; reflexivity. }
  assert (Hn : In NaN (map (fun d => fmul d d) (map (fun v => fsub v m) a))).
  { apply in_map_iff. exists NaN. split; [reflexivity|].
    apply in_map_iff. exists v. split; assumption. }
  unfold np_sum at 1. rewrite (fold_fadd_In_NaN _ Hn). reflexivity.
Qed.

Lemma np_array_unbounded (l : list pyfloat) :
  Exists non_finite l -> Exists unbounded (np_array l).
Proof.
  intros H. apply Exists_exists in H. destruct H as (x & Hin & Hx).
  apply Exists_exists. exists (f64_of_float x).
  split; [apply in_map, Hin|]. destruct x; try contradiction; exact I.
Qed.

Lemma clamp_NaN (k : Z) :
  py_max (f64_of_Z 0) (fsub (f64_of_Z 100) (fmul NaN (f64_of_Z k))) = Fin 0.
Proof. reflexivity. Qed.

(** X12: an infinity or a NaN among the acceleration samples, on any
    axis, brings the stability index down to 0. *)
Theorem stability_of_non_finite_samples (d : Dataset) :
  Exists non_finite (acc_x d) \/ Exists non_finite (acc_y d)
  \/ Exists non_finite (acc_z d) ->
  _calculate_stability_index d = Fin 0.
Proof.
  intros H. unfold _calculate_stability_index.
  destruct (acc_x d) as [|x xs] eqn:Ex; [reflexivity|].
  assert (E : fadd (fadd (np_var (np_array (x :: xs)))
                         (np_var (np_array (acc_y d))))
                   (np_var (np_array (acc_z d))) = NaN).
  { destruct H as [H|[H|H]];
      rewrite (np_var_unbounded _ (np_array_unbounded _ H)).
    - reflexivity.
    - destruct (np_var (np_array (x :: xs))); reflexivity.
    - destruct (fadd (np_var _) (np_var _)); reflexivity. }
  cbv zeta. rewrite E. reflexivity.
Qed.

Lemma stability_of_non_finite_samples_witness :
  _calculate_stability_index
    (dataset_of [f32_1_0; S754_nan] [f32_1_0; f32_1_0] [f32_1_0; f32_1_0]
                [] [] [])
  = Fin 0.
Proof.
  apply stability_of_non_finite_samples.
  left. right. left. exact I.
Defined.

Lemma fsub_unbounded_l (x y : f64) : unbounded y -> unbounded (fsub y x).
Proof.
  destruct y as [q|s|]; [contradiction| |intros _; exact I].
  intros _. destruct x as [q|t|]; cbn; try exact I.
  destruct (Bool.eqb s (negb t)); exact I.
Qed.

Lemma fsub_unbounded_r (x y : f64) : unbounded x -> unbounded (fsub y x).
Proof.
  destruct x as [q|t|]; [contradiction| |intros _; destruct y; exact I].
  intros _. destruct y as [q|s|]; cbn; try exact I.
  destruct (Bool.eqb s (negb t)); exact I.
Qed.

Lemma np_diff_unbounded (a : list f64) :
  forall x, Exists unbounded (x :: a) -> a <> [] ->
            Exists unbounded (np_diff (x :: a)).
Proof.
  induction a as [|y a IH]; intros x H Hne; [contradiction|].
  cbn [np_diff].
  apply Exists_cons in H. destruct H as [H|H].
  - left. apply fsub_unbounded_r, H.
  - apply Exists_cons in H. destruct H as [H|H].
    + left. apply fsub_unbounded_l, H.
    + right. apply IH.
      * right. exact H.
      * intros ->. inversion H.
Qed.

Lemma np_mean_saturated (b : list f64) :
  Forall nonneg b -> Exists unbounded b -> saturated (np_mean b).
Proof.
  intros Hn H. apply Exists_exists in H. destruct H as (v & Hin & Hv).
  pose proof (proj1 (Forall_forall _ _) Hn v Hin) as Hp.
  unfold np_mean, np_sum.
  destruct v as [q|s|]; [contradiction| |].
  - cbn in Hp. subst s.
    destruct (fold_fadd_In_Inf b false Hin (Fin 0)) as [-> | ->].
    + left. reflexivity.
    + right. apply np_count_not_negative.
  - rewrite (fold_fadd_In_NaN b Hin). left. reflexivity.
Qed.

(** The mean absolute difference of an array holding an infinity or NaN
    is NaN or the positive infinity. *)
Lemma jerk_saturated (a : list f64) :
  Exists unbounded a -> saturated (np_mean (np_abs (np_diff a))).
Proof.
  intros H. destruct a as [|x [|y a]].
  - inversion H.
  - left. reflexivity.
  - apply np_mean_saturated; [apply np_abs_nonneg|].
    apply (np_diff_unbounded (y :: a) x) in H; [|discriminate].
    apply Exists_exists in H. destruct H as (v & Hin & Hv).
    apply Exists_exists. exists (fabs v).
    split; [apply in_map, Hin|]. destruct v; [contradiction|exact I|exact I].
Qed.

Lemma fadd_saturated_l (a b : f64) :
  saturated a -> nonneg b -> saturated (fadd a b).
Proof.
  intros [-> | ->] Hb; [left; reflexivity|].
  destruct b as [q|t|]; cbn in *; subst;
    first [left; reflexivity | right; reflexivity].
Qed.

Lemma fadd_saturated_r (a b : f64) :
  nonneg a -> saturated b -> saturated (fadd a b).
Proof.
  intros Ha [-> | ->]; [left; destruct a; reflexivity|].
  destruct a as [q|t|]; cbn in *; subst;
    first [left; reflexivity | right; reflexivity].
Qed.

Lemma clamp_saturated (v : f64) :
  saturated v ->
  py_max (f64_of_Z 0)
         (fsub (f64_of_Z 100) (fmul (fdiv v (f64_of_Z 3)) (f64_of_Z 20)))
  = Fin 0.
Proof. intros [-> | ->]; reflexivity. Qed.

(** X13: an infinity or a NaN among the gyroscope samples, on any axis,
    brings the movement efficiency down to 0. *)
Theorem efficiency_of_non_finite_samples (d : Dataset) :
  Exists non_finite (gyro_x d) \/ Exists non_finite (gyro_y d)
  \/ Exists non_finite (gyro_z d) ->
  _calculate_movement_efficiency d = Fin 0.
Proof.
  intros H. unfold _calculate_movement_efficiency.
  destruct (gyro_x d) as [|x xs] eqn:Ex; [reflexivity|].
  cbv zeta. apply clamp_saturated.
  assert (Nx := np_mean_nonneg _ (np_abs_nonneg (np_diff (np_array (x :: xs))))).
  assert (Ny := np_mean_nonneg _ (np_abs_nonneg (np_diff (np_array (gyro_y d))))).
  assert (Nz := np_mean_nonneg _ (np_abs_nonneg (np_diff (np_array (gyro_z d))))).
  destruct H as [H|[H|H]];
    pose proof (jerk_saturated _ (np_array_unbounded _ H)) as Hs.
  - apply fadd_saturated_l; [apply fadd_saturated_l|]; assumption.
  - apply fadd_saturated_l; [apply fadd_saturated_r|]; assumption.
  - apply fadd_saturated_r; [apply fadd_nonneg|]; assumption.
Qed.

Lemma efficiency_of_non_finite_samples_witness :
  _calculate_movement_efficiency
    (dataset_of [] [] []
                [f32_1_0; f32_2_0] [f32_1_0; S754_infinity false]
                [f32_1_0; f32_1_0])
  = Fin 0.
Proof.
  apply efficiency_of_non_finite_samples.
  right. left. right. left. exact I.
Defined.


(** * Invariants kept by whole iterations *)

Section CycleInvariant.

Variable R : State -> State -> Prop.

Hypothesis R_refl : forall s, R s s.
Hypothesis R_trans : forall s s1 s2, R s s1 -> R s1 s2 -> R s s2.
Hypothesis R_tick : forall s, R s (ticked s).
Hypothesis R_accept :
  forall s, client_socket (self s) = None -> R s (reconnected s).
Hypothesis R_cycle :
  forall t evs1 evs2 s s', cycle_step t evs1 evs2 s s' -> R s s'.
Hypothesis R_finish : forall s, R s (state_of (finish_session s)).

Lemma reaches_trans_step {A B} (m : M A) (k : A -> M B) (s : State) :
  reaches (R s) (m s) ->
  (forall a s1, reaches (R s1) (k a s1)) ->
  reaches (R s) (bind m k s).
Proof.
  intros Hm Hk. apply (reaches_bind_gen (R s) (R s)); [exact Hm| |auto].
  intros a s1 H1. eapply reaches_weaken; [|apply Hk].
  intros s2. apply R_trans, H1.
Qed.

Lemma poll_cycle_cycles (restart : M unit) (t : Q) (k : Z) :
  (forall s, client_socket (self s) = None -> reaches (R s) (restart s)) ->
  forall s, reaches (R s) (poll_cycle restart t k s).
Proof.
  intros Hr s.
  change (poll_cycle restart t k)
    with (bind (bind get_self (fun sv => match client_socket sv with
                                         | None => restart
                                         | Some _ => ret tt
                                         end))
               (fun _ => cycle_body t k)).
  apply reaches_trans_step.
  - unfold bind, get_self. destruct (client_socket (self s)) eqn:E.
    + apply R_refl.
    + apply Hr, E.
  - intros _ s1. destruct (cycle_body_spec t k s1) as (s2 & e1 & e2 & E & C).
    rewrite E. exact (R_cycle t e1 e2 s1 s2 C).
Qed.

Lemma poll_loop_cycles (restart : M unit) (t : Q) :
  (forall s, client_socket (self s) = None -> reaches (R s) (restart s)) ->
  forall n k s, reaches (R s) (poll_loop n restart t k s).
Proof.
  intros Hr. induction n as [|n IH]; intros k s.
  - apply R_refl.
  - cbn [poll_loop]. apply reaches_trans_step.
    + rewrite time_time_ticked. apply R_tick.
    + intros now s1. destruct (Qltb (now - t) 30).
      * apply reaches_trans_step; [apply poll_cycle_cycles, Hr|].
        intros k' s2. apply IH.
      * apply R_refl.
Qed.

(** A relation kept by a clock reading, by accepting a client, by a whole
    iteration and by the end of a session holds between the state in which
    [start] is called without a client and every state the call reaches. *)
Lemma start_cycles (fuel : nat) :
  forall s, client_socket (self s) = None -> reaches (R s) (start fuel s).
Proof.
  induction fuel as [|fuel IH]; intros s Hs.
  - apply R_refl.
  - rewrite start_unfold.
    eapply reaches_weaken; [intros s2; apply R_trans, (R_accept s Hs)|].
    apply reaches_trans_step.
    + apply poll_loop_cycles, IH.
    + intros _ s1. pose proof (R_finish s1) as H.
      destruct (finish_session_spec s1) as (s2 & E & _). rewrite E in *.
      exact H.
Qed.

End CycleInvariant.

(** ** Cache fallback over a run *)

Lemma undecoded_app (ch : Channel) (e1 e2 : list Event) :
  undecoded ch (e1 ++ e2) <-> undecoded ch e1 /\ undecoded ch e2.
Proof.
  induction e1 as [|e e1 IH]; simpl; [tauto|].
  destruct e; try exact IH. rewrite IH. tauto.
Qed.

Lemma cycles_done_last (p : list Event) : cycles_done (p ++ [EvCycle]) <> O.
Proof. rewrite cycles_done_app. simpl. lia. Qed.

(** A boundary inside [tr ++ evs], where [evs] marks no iteration, lies
    inside [tr]. *)
Lemma boundary_split (tr evs pre seg : list Event) :
  pre ++ seg = tr ++ evs ->
  at_boundary pre -> cycles_done evs = O ->
  exists rest, tr = pre ++ rest /\ seg = rest ++ evs.
Proof.
  intros E B C. apply app_eq_app in E.
  destruct E as (l & [[E1 E2]|[E1 E2]]).
  - (* pre = tr ++ l, evs = l ++ seg *)
    destruct B as [->|(p & ->)].
    + symmetry in E1. apply app_eq_nil in E1. destruct E1 as [-> ->].
      exists []. split; [reflexivity|symmetry; exact E2].
    + destruct l as [|e l] using rev_ind.
      * rewrite app_nil_r in E1. exists []. rewrite app_nil_r.
        split; [symmetry; exact E1|symmetry; exact E2].
      * clear IHl. rewrite app_assoc in E1.
        apply app_inj_tail in E1. destruct E1 as [_ <-].
        exfalso. rewrite E2, <- app_assoc, cycles_done_app in C.
        pose proof (cycles_done_last l). 
        rewrite cycles_done_app in C. simpl in C. lia.
  - exists l. split; [exact E1|exact E2].
Qed.

(** A completed iteration of [tr ++ evs], where [evs] marks none, is one
    of [tr]. *)
Lemma iteration_split (tr evs pre seg post : list Event) :
  pre ++ seg ++ EvCycle :: post = tr ++ evs ->
  cycles_done evs = O ->
  exists post', tr = pre ++ seg ++ EvCycle :: post' /\ post = post' ++ evs.
Proof.
  intros E C.
  replace (pre ++ seg ++ EvCycle :: post)
    with ((pre ++ seg ++ [EvCycle]) ++ post) in E
    by (rewrite <- !app_assoc; reflexivity).
  apply app_eq_app in E. destruct E as (l & [[E1 E2]|[E1 E2]]).
  - destruct l as [|e l] using rev_ind.
    + rewrite app_nil_r in E1. exists []. split.
      * rewrite <- E1. reflexivity.
      * symmetry. exact E2.
    + clear IHl. rewrite !app_assoc in E1.
      apply app_inj_tail in E1. destruct E1 as [_ <-].
      exfalso. rewrite E2, <- app_assoc, !cycles_done_app in C.
      simpl in C. lia.
  - exists l. split.
    + rewrite E1, <- !app_assoc. reflexivity.
    + exact E2.
Qed.

(** A step that marks no iteration and leaves the sequences alone. *)
Lemma fallback_inv_quiet_step (ch : Channel) (s s' : State)
      (evs : list Event) :
  trace (world s') = trace (world s) ++ evs ->
  cycles_done evs = O ->
  full_dataset (self s') = full_dataset (self s) ->
  cache ch (self s') = latest ch evs (cache ch (self s)) ->
  fallback_inv ch s -> fallback_inv ch s'.
Proof.
  intros T C D K (L & I & F). unfold fallback_inv.
  rewrite T, D, K, cycles_done_app, C, Nat.add_0_r, latest_app, I.
  split; [exact L|]. split; [reflexivity|].
  intros pre seg post E B Cs U.
  destruct (iteration_split _ _ _ _ _ (eq_sym E) C) as (post' & E' & _).
  exact (F pre seg post' E' B Cs U).
Qed.

Lemma records_push (ch : Channel) (d d' : Dataset) (v : xyz) (n : nat) :
  channel_lists ch d' = push_xyz (channel_lists ch d) v ->
  (let '(xs, ys, zs) := channel_lists ch d in
   List.length xs = n /\ List.length ys = n /\ List.length zs = n) ->
  (let '(xs, ys, zs) := channel_lists ch d' in
   List.length xs = S n /\ List.length ys = S n /\ List.length zs = S n)
  /\ records ch d' = records ch d ++ [v]
  /\ List.length (records ch d) = n.
Proof.
  unfold records, xyz. intros H.
  destruct (channel_lists ch d) as [[xs ys] zs].
  destruct (channel_lists ch d') as [[xs' ys'] zs'].
  destruct v as [[x y] z]. cbn [push_xyz] in H.
  injection H as -> -> ->. intros (L1 & L2 & L3).
  split; [rewrite !length_app; cbn; lia|]. split.
  - rewrite !combine_snoc by (rewrite ?length_combine; lia). reflexivity.
  - rewrite !length_combine. lia.
Qed.

Lemma fallback_inv_cycle (ch : Channel) (t : Q) (evs1 evs2 : list Event)
      (s s' : State) :
  cycle_step t evs1 evs2 s s' -> fallback_inv ch s -> fallback_inv ch s'.
Proof.
  intros (T & I1 & I2 & _ & P & K & _) (L & I & F).
  pose proof (cycles_done_io _ I1) as C1.
  pose proof (cycles_done_io _ I2) as C2.
  destruct (records_push ch _ _ _ _ (P ch) L) as (L' & Rp & Rl).
  unfold fallback_inv. rewrite T, K, I, Rp.
  rewrite !cycles_done_app, C1, C2. cbn [cycles_done].
  replace (cycles_done (trace (world s)) + (0 + (0 + 1)))%nat
    with (S (cycles_done (trace (world s)))) by lia.
  split; [exact L'|]. split.
  - rewrite !latest_app. reflexivity.
  - intros pre seg post E B Cs U.
    destruct post as [|e post] using rev_ind.
    + (* the iteration just completed *)
      replace (trace (world s) ++ evs1 ++ evs2 ++ [EvCycle])
        with ((trace (world s) ++ evs1 ++ evs2) ++ [EvCycle]) in E
        by (rewrite <- !app_assoc; reflexivity).
      replace (pre ++ seg ++ [EvCycle]) with ((pre ++ seg) ++ [EvCycle]) in E
        by (rewrite <- !app_assoc; reflexivity).
      apply app_inj_tail in E. destruct E as [E _]. symmetry in E.
      destruct (boundary_split (trace (world s)) (evs1 ++ evs2) pre seg)
        as (rest & Et & Es); auto.
      { rewrite cycles_done_app, C1, C2. reflexivity. }
      subst seg. rewrite app_assoc in U.
      apply undecoded_app in U. destruct U as [U _].
      assert (Cp : cycles_done pre = cycles_done (trace (world s))).
      { rewrite Et, cycles_done_app.
        rewrite !cycles_done_app in Cs. lia. }
      rewrite Cp, <- Rl, nth_error_app2, Nat.sub_diag by apply le_n.
      cbn [nth_error]. f_equal.
      apply undecoded_app in U. destruct U as [Ur U1].
      rewrite I, Et, latest_app, (latest_undecoded ch _ _ Ur).
      apply (latest_undecoded ch _ _ U1).
    + (* an earlier iteration *)
      clear IHpost.
      replace (trace (world s) ++ evs1 ++ evs2 ++ [EvCycle])
        with ((trace (world s) ++ evs1 ++ evs2) ++ [EvCycle]) in E
        by (rewrite <- !app_assoc; reflexivity).
      replace (pre ++ seg ++ EvCycle :: post ++ [e])
        with ((pre ++ seg ++ EvCycle :: post) ++ [e]) in E
        by (rewrite <- !app_assoc; reflexivity).
      apply app_inj_tail in E. destruct E as [E _]. symmetry in E.
      destruct (iteration_split (trace (world s)) (evs1 ++ evs2) pre seg post)
        as (post' & E' & _); auto.
      { rewrite cycles_done_app, C1, C2. reflexivity. }
      rewrite nth_error_app1.
      * exact (F pre seg post' E' B Cs U).
      * rewrite Rl, E', !cycles_done_app. cbn [cycles_done]. lia.
Qed.

(** The invariant at every state a call of [start] without a client
    reaches. *)
Lemma fallback_inv_finish (ch : Channel) (s : State) :
  fallback_inv ch s -> fallback_inv ch (state_of (finish_session s)).
Proof.
  destruct (finish_session_events s) as (s1 & evs & E & T & C & _ & _ & _ & D).
  rewrite E. cbn [state_of].
  assert (K : cache ch (self s1) = latest ch evs (cache ch (self s))).
  { clear - E T. destruct s as [sv w]. revert E T.
    unfold finish_session. unfold_monad. cbn.
    destruct (timestamps (full_dataset sv));
      destruct (client_socket sv) eqn:Hc; cbn; rewrite ?Hc; cbn;
      intros [= <-]; cbn; rewrite <- ?app_assoc; intros T;
      try (apply app_inv_head in T; subst; cbn;
           try reflexivity; apply cache_set_client_socket).
    rewrite <- (app_nil_r (trace w)) in T at 1.
    apply app_inv_head in T. subst. reflexivity. }
  apply (fallback_inv_quiet_step ch _ _ evs); assumption.
Qed.

Lemma start_fallback (ch : Channel) (fuel : nat) (s : State) :
  client_socket (self s) = None ->
  fallback_inv ch s ->
  reaches (fallback_inv ch) (start fuel s).
Proof.
  intros Hs Hi.
  pose (R := fun s s' : State => fallback_inv ch s -> fallback_inv ch s').
  assert (H : reaches (R s) (start fuel s)).
  { apply start_cycles; unfold R; try exact Hs.
    - auto.
    - auto.
    - intros s0. apply (fallback_inv_quiet_step ch _ _ []); try reflexivity.
      cbn. symmetry. apply app_nil_r.
    - intros s0 _.
      apply (fallback_inv_quiet_step ch _ _
               [EvAccept (S (accepted (world s0)))]); reflexivity.
    - intros t e1 e2 s0 s1. apply fallback_inv_cycle.
    - intros s0. apply fallback_inv_finish. }
  eapply reaches_weaken; [|exact H].
  intros s' H'. apply H', Hi.
Qed.

Lemma fallback_inv_initial (ch : Channel) (w : World) :
  trace w = [] -> fallback_inv ch (initial_state w).
Proof.
  intros T. unfold fallback_inv. cbn. rewrite T.
  split; [destruct ch; cbn; auto|]. split; [destruct ch; reflexivity|].
  intros pre seg post E. exfalso.
  destruct pre; [destruct seg|]; discriminate E.
Qed.

Lemma run_fallback (ch : Channel) (clk : nat -> Q) (sends : list bool)
      (recvs : list recv_result) (writes : list bool) (fuel : nat) :
  fallback_inv ch (run fuel (initial_world clk sends recvs writes)).
Proof.
  unfold run. apply reaches_state_of, start_fallback.
  - reflexivity.
  - apply fallback_inv_initial. reflexivity.
Qed.

(** C5: in every run from a fresh server, an iteration after the first in
    which no response of a channel's kind is decoded appends to that
    channel the value its cache had when the previous iteration ended (the
    value decoded last before that iteration, [latest] over the trace up to
    it); and at every point of the run the cache holds the value decoded
    last from a response of its kind: nothing else changes it, and a
    re-entry of [start] does not reset it. *)
Theorem cache_fallback (ch : Channel) (clk : nat -> Q) (sends : list bool)
        (recvs : list recv_result) (writes : list bool) (fuel : nat) :
  let s' := run fuel (initial_world clk sends recvs writes) in
  (forall pre seg post,
      trace (world s') = (pre ++ [EvCycle]) ++ seg ++ EvCycle :: post ->
      cycles_done seg = O ->
      undecoded ch seg ->
      nth_error (records ch (full_dataset (self s')))
                (cycles_done (pre ++ [EvCycle]))
      = Some (latest ch (pre ++ [EvCycle]) origin))
  /\ cache ch (self s') = latest ch (trace (world s')) origin.
Proof.
  destruct (run_fallback ch clk sends recvs writes fuel) as (_ & K & F).
  split; [|exact K].
  intros pre seg post E C U.
  apply (F _ seg post E); [right; exists pre; reflexivity|exact C|exact U].
Qed.

Lemma one_reply_run :
  trace (world (run 3 one_reply_world))
  = ([EvAccept 1; EvSend 1 (request_frame REQ_READ_ACCELERATION);
      EvRecv REQ_READ_ACCELERATION (pack_fff f32_1_0 zero_float f32_9_8);
      EvSend 1 (request_frame REQ_READ_GYROSCOPE);
      EvSend 1 (request_frame REQ_READ_MAGNETOMETER)] ++ [EvCycle])
    ++ [EvSend 1 (request_frame REQ_READ_ACCELERATION);
        EvSend 1 (request_frame REQ_READ_GYROSCOPE);
        EvSend 1 (request_frame REQ_READ_MAGNETOMETER)]
    ++ EvCycle :: [].
Proof. vm_compute. reflexivity. Qed.

Lemma one_reply_latest :
  latest Acceleration
    ([EvAccept 1; EvSend 1 (request_frame REQ_READ_ACCELERATION);
      EvRecv REQ_READ_ACCELERATION (pack_fff f32_1_0 zero_float f32_9_8);
      EvSend 1 (request_frame REQ_READ_GYROSCOPE);
      EvSend 1 (request_frame REQ_READ_MAGNETOMETER)] ++ [EvCycle]) origin
  = (f32_1_0, zero_float, f32_9_8).
Proof. vm_compute. reflexivity. Qed.

(** The second iteration of a run whose device answered the first
    acceleration request only: its acceleration record is the sample of
    the first iteration. *)
Lemma cache_fallback_witness :
  nth_error (records Acceleration
               (full_dataset (self (run 3 one_reply_world)))) 1
  = Some (f32_1_0, zero_float, f32_9_8).
Proof.
  rewrite <- one_reply_latest.
  destruct (cache_fallback Acceleration (linear_clock 5) []
              (device_reply REQ_READ_ACCELERATION [0; 0; 0]
                 (pack_fff f32_1_0 zero_float f32_9_8)) [] 3) as [H _].
  apply (H _ _ [] one_reply_run).
  - reflexivity.
  - simpl. exact I.
Defined.

(** C10: the caches of a new server hold (0.0, 0.0, 0.0), and in every
    run from a new server a first iteration in which no response of a
    channel's kind is decoded appends (0.0, 0.0, 0.0) to that channel. *)
Theorem first_cycle_fallback (ch : Channel) (clk : nat -> Q)
        (sends : list bool) (recvs : list recv_result) (writes : list bool)
        (fuel : nat) :
  let s' := run fuel (initial_world clk sends recvs writes) in
  cache ch init_server = (zero_float, zero_float, zero_float)
  /\ (forall seg post,
         trace (world s') = seg ++ EvCycle :: post ->
         cycles_done seg = O ->
         undecoded ch seg ->
         nth_error (records ch (full_dataset (self s'))) 0
         = Some (zero_float, zero_float, zero_float)).
Proof.
  split; [destruct ch; reflexivity|].
  destruct (run_fallback ch clk sends recvs writes fuel) as (_ & _ & F).
  intros seg post E C U.
  apply (F [] seg post E); [left; reflexivity|exact C|exact U].
Qed.

Lemma one_reply_first_cycle :
  trace (world (run 2 one_reply_world))
  = [EvAccept 1; EvSend 1 (request_frame REQ_READ_ACCELERATION);
     EvRecv REQ_READ_ACCELERATION (pack_fff f32_1_0 zero_float f32_9_8);
     EvSend 1 (request_frame REQ_READ_GYROSCOPE);
     EvSend 1 (request_frame REQ_READ_MAGNETOMETER)]
    ++ EvCycle :: [].
Proof. vm_compute. reflexivity. Qed.

(** The first iteration of that run decodes an acceleration sample and no
    gyroscope sample: the gyroscope record is (0.0, 0.0, 0.0). *)
Lemma first_cycle_fallback_witness :
  nth_error (records Gyroscope
               (full_dataset (self (run 2 one_reply_world)))) 0
  = Some (zero_float, zero_float, zero_float).
Proof.
  destruct (first_cycle_fallback Gyroscope (linear_clock 5) []
              (device_reply REQ_READ_ACCELERATION [0; 0; 0]
                 (pack_fff f32_1_0 zero_float f32_9_8)) [] 2) as [_ H].
  apply (H _ [] one_reply_first_cycle).
  - reflexivity.
  - simpl. repeat split; discriminate.
Defined.

(** ** Every failure inside an iteration *)

Ltac used_up_tac :=
  cbn;
  match goal with
  | |- ?l = ?u ++ ?l => unify u (@nil bool); reflexivity
  | |- ?l = ?u ++ ?l => unify u (@nil recv_result); reflexivity
  | |- ?a :: ?l = ?u ++ ?l => unify u [a]; reflexivity
  | |- ?a :: ?b :: ?l = ?u ++ ?l => unify u [a; b]; reflexivity
  | |- ?a :: ?b :: ?d :: ?l = ?u ++ ?l => unify u [a; b; d]; reflexivity
  end.

Ltac outcome_tac :=
  unfold outcome, verdict, used_up;
  split; [cbn; trace_eq|];
  split; [split; [used_up_tac|split; used_up_tac]|];
  first
    [ left; split;
      [ unfold faultless; repeat split; repeat constructor; discriminate
      | split; [cbn; assumption || reflexivity|];
        split; [reflexivity|repeat constructor] ]
    | right; split;
      [ unfold faulty; cbn; tauto
      | split; [reflexivity|];
        first
          [ exists []; eexists; split; [reflexivity|];
            split; [constructor|reflexivity]
          | eexists [_]; eexists; split; [reflexivity|];
            split; [repeat constructor|reflexivity] ] ] ].

Lemma send_request_outcome (c : nat) (k : Z) (s : State) :
  0 <= k <= 255 -> client_socket (self s) = Some c ->
  exists s' evs us ur uw,
    send_request k s = Ok tt s' /\ outcome c [k] evs us ur uw s s'.
Proof.
  intros Hk Hc.
  destruct s as [sv w]. destruct w as [clk tk ss rs ws ac lg tr].
  cbn in Hc.
  unfold_monad. cbn. rewrite Hc. cbn. unfold pack_B3s.
  replace ((0 <=? k) && (k <=? 255))%bool with true
    by (symmetry; apply andb_true_intro; split; apply Z.leb_le; lia).
  cbn.
  destruct ss as [|[] ss]; cbn; rewrite ?Hc; cbn.
  all: do 5 eexists; split; [reflexivity|]; outcome_tac.
Qed.

Lemma receive_response_outcome (c : nat) (s : State) :
  client_socket (self s) = Some c ->
  exists s' evs us ur uw,
    receive_response s = Ok tt s' /\ outcome c [] evs us ur uw s s'.
Proof.
  intros Hc.
  destruct s as [sv w]. destruct w as [clk tk ss rs ws ac lg tr].
  cbn in Hc.
  unfold_monad. unfold_consts. cbn. rewrite Hc. cbn.
  destruct rs as [|[bs1|] [|[bs2|] [|[bs3|] rs]]]; cbn; rewrite ?Hc; cbn.
  all: repeat (break_match; cbn; rewrite ?Hc; cbn); try absurd_branch.
  all: try (destruct ws as [|[] ws]; cbn in *; try discriminate).
  all: do 5 eexists; split; [reflexivity|]; outcome_tac.
Qed.

Lemma faultless_app (us1 us2 : list bool) (ur1 ur2 : list recv_result)
      (uw1 uw2 : list bool) :
  faultless us1 ur1 uw1 -> faultless us2 ur2 uw2 ->
  faultless (us1 ++ us2) (ur1 ++ ur2) (uw1 ++ uw2).
Proof.
  intros (A1 & A2 & A3) (B1 & B2 & B3).
  repeat split; apply Forall_app; split; assumption.
Qed.

Lemma faulty_app_r (us1 us2 : list bool) (ur1 ur2 : list recv_result)
      (uw1 uw2 : list bool) :
  faulty us2 ur2 uw2 -> faulty (us1 ++ us2) (ur1 ++ ur2) (uw1 ++ uw2).
Proof.
  unfold faulty. rewrite !in_app_iff. tauto.
Qed.

Lemma faultless_not_faulty (us : list bool) (ur : list recv_result)
      (uw : list bool) :
  faultless us ur uw -> ~ faulty us ur uw.
Proof.
  intros (A1 & A2 & A3) [H|[H|H]].
  - rewrite Forall_forall in A1. discriminate (A1 _ H).
  - rewrite Forall_forall in A2. exact (A2 _ H eq_refl).
  - rewrite Forall_forall in A3. discriminate (A3 _ H).
Qed.

(** Two sequences of steps in a row, the first of which left the client
    connected. *)
Lemma outcome_trans (c : nat) (ks1 ks2 : list Z) (e1 e2 : list Event)
      (us1 us2 : list bool) (ur1 ur2 : list recv_result)
      (uw1 uw2 : list bool) (s s1 s2 : State) :
  outcome c ks1 e1 us1 ur1 uw1 s s1 ->
  client_socket (self s1) = Some c ->
  outcome c ks2 e2 us2 ur2 uw2 s1 s2 ->
  outcome c (ks1 ++ ks2) (e1 ++ e2) (us1 ++ us2) (ur1 ++ ur2) (uw1 ++ uw2)
          s s2.
Proof.
  intros (T1 & (U1 & U2 & U3) & V1) Hc (T2 & (W1 & W2 & W3) & V2).
  split; [rewrite T2, T1; symmetry; apply app_assoc|].
  split.
  - repeat split; rewrite <- app_assoc; congruence.
  - destruct V1 as [(F1 & _ & K1 & N1)|(_ & Hn & _)]; [|congruence].
    destruct V2 as [(F2 & C2 & K2 & N2)|(F2 & C2 & front & rest & E & N & K)].
    + left. split; [apply faultless_app; assumption|].
      split; [exact C2|]. split.
      * rewrite sent_kinds_app, K1, K2. reflexivity.
      * apply Forall_app; split; assumption.
    + right. split; [apply faulty_app_r; exact F2|].
      split; [exact C2|].
      exists (e1 ++ front), rest. split; [rewrite E; apply app_assoc|].
      split; [apply Forall_app; split; assumption|].
      rewrite sent_kinds_app, K1, K, app_assoc. reflexivity.
Qed.

(** A sequence of steps that lost the client, followed by steps that then
    do nothing. *)
Lemma outcome_stop (c : nat) (ks1 ks2 : list Z) (e1 : list Event)
      (us1 : list bool) (ur1 : list recv_result) (uw1 : list bool)
      (s s1 : State) :
  outcome c ks1 e1 us1 ur1 uw1 s s1 ->
  client_socket (self s1) = None ->
  outcome c (ks1 ++ ks2) e1 us1 ur1 uw1 s s1.
Proof.
  intros (T1 & U & V1) Hc. split; [exact T1|]. split; [exact U|].
  destruct V1 as [(_ & Hs & _)|(F & _ & front & rest & E & N & K)];
    [congruence|].
  right. split; [exact F|]. split; [exact Hc|].
  exists front, (rest ++ ks2). split; [exact E|]. split; [exact N|].
  rewrite K, app_assoc. reflexivity.
Qed.

Lemma outcome_socket (c : nat) (ks : list Z) (evs : list Event)
      (us : list bool) (ur : list recv_result) (uw : list bool)
      (s s' : State) :
  outcome c ks evs us ur uw s s' ->
  client_socket (self s') = Some c \/ client_socket (self s') = None.
Proof.
  intros (_ & _ & [(_ & H & _)|(_ & H & _)]); [left|right]; exact H.
Qed.

Lemma handles_seq (c : nat) (ks1 ks2 : list Z) (m1 m2 : M unit) :
  handles c ks1 m1 -> handles c ks2 m2 -> handles c (ks1 ++ ks2) (m1 ;; m2).
Proof.
  intros [H1 N1] [H2 N2]. split.
  - intros s Hc.
    destruct (H1 s Hc) as (s1 & e1 & us1 & ur1 & uw1 & E1 & O1).
    destruct (outcome_socket _ _ _ _ _ _ _ _ O1) as [Hc1|Hc1].
    + destruct (H2 s1 Hc1) as (s2 & e2 & us2 & ur2 & uw2 & E2 & O2).
      exists s2, (e1 ++ e2), (us1 ++ us2), (ur1 ++ ur2), (uw1 ++ uw2).
      split; [rewrite (bind_ok _ _ _ _ _ E1); exact E2|].
      eapply outcome_trans; eassumption.
    + exists s1, e1, us1, ur1, uw1.
      split; [rewrite (bind_ok _ _ _ _ _ E1); apply N2, Hc1|].
      apply outcome_stop; assumption.
  - intros s Hc. rewrite (bind_ok _ _ _ _ _ (N1 s Hc)). apply N2, Hc.
Qed.

Lemma handles_send (c : nat) (k : Z) :
  0 <= k <= 255 -> handles c [k] (send_request k).
Proof.
  intros Hk. split.
  - intros s Hc. apply send_request_outcome; assumption.
  - intros s Hc. apply no_socket_no_traffic, Hc.
Qed.

Lemma handles_receive (c : nat) : handles c [] receive_response.
Proof.
  split.
  - intros s Hc. apply receive_response_outcome, Hc.
  - intros s Hc. apply no_socket_no_traffic; [exact 0|exact Hc].
Qed.

Lemma handles_exchange (c : nat) (k : Z) :
  0 <= k <= 255 -> handles c [k] (send_request k ;; receive_response).
Proof.
  intros Hk.
  apply (handles_seq c [k] [] _ _ (handles_send c k Hk) (handles_receive c)).
Qed.

Lemma handles_poll_sensors (c : nat) :
  handles c [REQ_READ_ACCELERATION; REQ_READ_GYROSCOPE; REQ_READ_MAGNETOMETER]
          poll_sensors.
Proof.
  unfold poll_sensors.
  apply (handles_seq c [_] [_; _]); [apply handles_send; unfold_consts; lia|].
  apply (handles_seq c [] [_; _]); [apply handles_receive|].
  apply (handles_seq c [_] [_]); [apply handles_send; unfold_consts; lia|].
  apply (handles_seq c [] [_]); [apply handles_receive|].
  apply handles_exchange. unfold_consts. lia.
Qed.

Lemma outcome_agree (c : nat) (ks : list Z) (evs : list Event)
      (us : list bool) (ur : list recv_result) (uw : list bool)
      (s s1 s2 : State) :
  outcome c ks evs us ur uw s s1 ->
  trace (world s2) = trace (world s1) ->
  send_script (world s2) = send_script (world s1) ->
  recv_script (world s2) = recv_script (world s1) ->
  write_script (world s2) = write_script (world s1) ->
  client_socket (self s2) = client_socket (self s1) ->
  outcome c ks evs us ur uw s s2.
Proof.
  intros (T & (U1 & U2 & U3) & V) E1 E2 E3 E4 E5.
  unfold outcome, used_up, verdict. rewrite E1, E2, E3, E4, E5.
  repeat split; assumption.
Qed.

Lemma handles_led_game_step (c : nat) (k : Z) (s : State) :
  (client_socket (self s) = Some c ->
   exists s' evs us ur uw,
     led_game_step k s = Ok (next_counter k) s'
     /\ outcome c (if 10 <=? k + 1 then [REQ_START_LED_GAME] else [])
                evs us ur uw s s')
  /\ (client_socket (self s) = None ->
      led_game_step k s = Ok (next_counter k) s).
Proof.
  unfold led_game_step, next_counter.
  destruct (10 <=? k + 1).
  - destruct (handles_exchange c REQ_START_LED_GAME) as [H N];
      [unfold_consts; lia|].
    split.
    + intros Hc. destruct (H s Hc) as (s1 & e1 & us & ur & uw & E1 & O1).
      exists s1, e1, us, ur, uw. split; [|exact O1].
      change (send_request REQ_START_LED_GAME ;; receive_response ;; ret 0)
        with (bind (send_request REQ_START_LED_GAME)
                (fun _ => bind receive_response (fun _ => ret 0))).
      change (send_request REQ_START_LED_GAME ;; receive_response)
        with (bind (send_request REQ_START_LED_GAME)
                (fun _ => receive_response)) in E1.
      unfold bind in *.
      destruct (send_request REQ_START_LED_GAME s) as [[] sa|?|?];
        try discriminate E1.
      rewrite E1. reflexivity.
    + intros Hc. specialize (N s Hc).
      change (send_request REQ_START_LED_GAME ;; receive_response)
        with (bind (send_request REQ_START_LED_GAME)
                (fun _ => receive_response)) in N.
      unfold bind in *.
      destruct (send_request REQ_START_LED_GAME s) as [[] sa|?|?];
        try discriminate N.
      rewrite N. reflexivity.
  - split.
    + intros Hc. exists s, [], [], [], []. split; [reflexivity|].
      unfold outcome, used_up, verdict. rewrite app_nil_r.
      repeat split; try reflexivity.
      left. repeat split; try constructor. exact Hc.
    + reflexivity.
Qed.

(** An iteration of a connected server, whatever fails in it. *)
Lemma cycle_body_outcome (c : nat) (t : Q) (k : Z) (s : State) :
  client_socket (self s) = Some c ->
  exists s' evs us ur uw,
    cycle_body t k s = Ok (next_counter k) s'
    /\ trace (world s') = trace (world s) ++ evs ++ [EvCycle]
    /\ used_up us ur uw s s'
    /\ verdict c (cycle_requests k) evs us ur uw s'.
Proof.
  intros Hc.
  destruct (handles_poll_sensors c) as [H1 _].
  destruct (H1 s Hc) as (s1 & e1 & us1 & ur1 & uw1 & E1 & O1).
  set (s2 := {| self := append_sample
                          (clock (world s1) (ticks (world s1)) - t)%Q (self s1);
                world := world (ticked s1) |}).
  assert (E2 : store_sample t s1 = Ok tt s2) by reflexivity.
  assert (O2 : outcome c [REQ_READ_ACCELERATION; REQ_READ_GYROSCOPE;
                          REQ_READ_MAGNETOMETER] e1 us1 ur1 uw1 s s2)
    by (apply (outcome_agree _ _ _ _ _ _ s s1 s2 O1); reflexivity).
  clearbody s2.
  destruct (handles_led_game_step c k s2) as [H3 N3].
  destruct (outcome_socket _ _ _ _ _ _ _ _ O2) as [Hc2|Hc2].
  - destruct (H3 Hc2) as (s3 & e2 & us2 & ur2 & uw2 & E3 & O3).
    pose proof (outcome_trans _ _ _ _ _ _ _ _ _ _ _ _ _ _ O2 Hc2 O3)
      as (T & U & V).
    eexists. exists (e1 ++ e2), (us1 ++ us2), (ur1 ++ ur2), (uw1 ++ uw2).
    split.
    { unfold cycle_body.
      rewrite (bind_ok _ _ _ _ _ E1), (bind_ok _ _ _ _ _ E2),
        (bind_ok _ _ _ _ _ E3).
      reflexivity. }
    cbn. split; [rewrite T, <- app_assoc; reflexivity|].
    split; [exact U|exact V].
  - pose proof (outcome_stop c _ (if 10 <=? k + 1
                                  then [REQ_START_LED_GAME] else [])
                             _ _ _ _ _ _ O2 Hc2) as (T & U & V).
    eexists. exists e1, us1, ur1, uw1.
    split.
    { unfold cycle_body.
      rewrite (bind_ok _ _ _ _ _ E1), (bind_ok _ _ _ _ _ E2),
        (bind_ok _ _ _ _ _ (N3 Hc2)).
      reflexivity. }
    cbn. split; [rewrite T, <- app_assoc; reflexivity|].
    split; [exact U|exact V].
Qed.

(** ** Re-entry of [start] *)

Lemma extends_refl (d : Dataset) : extends d d.
Proof.
  intros ch. exists [], [], []. rewrite !app_nil_r.
  destruct (channel_lists ch d) as [[xs ys] zs]. reflexivity.
Qed.

Lemma extends_trans (d d1 d2 : Dataset) :
  extends d d1 -> extends d1 d2 -> extends d d2.
Proof.
  intros H1 H2 ch.
  destruct (H1 ch) as (lx & ly & lz & E1).
  destruct (H2 ch) as (mx & my & mz & E2).
  exists (lx ++ mx), (ly ++ my), (lz ++ mz).
  rewrite E2, E1. cbn. rewrite !app_assoc. reflexivity.
Qed.

Lemma extends_cycle (t : Q) (evs1 evs2 : list Event) (s s' : State) :
  cycle_step t evs1 evs2 s s' ->
  extends (full_dataset (self s)) (full_dataset (self s')).
Proof.
  intros (_ & _ & _ & _ & P & _) ch. rewrite (P ch).
  destruct (channel_lists ch (full_dataset (self s))) as [[xs ys] zs].
  destruct (latest ch evs1 (cache ch (self s))) as [[x y] z].
  exists [x], [y], [z]. reflexivity.
Qed.

Lemma extends_same (d d' : Dataset) : d' = d -> extends d d'.
Proof. intros ->. apply extends_refl. Qed.

(** The sequences only grow while [start] runs. *)
Lemma start_extends (fuel : nat) (s : State) :
  client_socket (self s) = None ->
  reaches (fun s' => extends (full_dataset (self s)) (full_dataset (self s')))
          (start fuel s).
Proof.
  intros Hs.
  apply (start_cycles
           (fun s s' => extends (full_dataset (self s))
                                (full_dataset (self s')))).
  - intros s0. apply extends_refl.
  - intros s0 s1 s2. apply extends_trans.
  - intros s0. apply extends_refl.
  - intros s0 _. apply extends_refl.
  - intros t e1 e2 s0 s1. apply extends_cycle.
  - intros s0.
    destruct (finish_session_events s0) as (s1 & evs & E & _ & _ & _ & _ & _ & D).
    rewrite E. apply extends_same, D.
  - exact Hs.
Qed.

Lemma poll_cycle_extends (fuel : nat) (t : Q) (k : Z) (s : State) :
  reaches (fun s' => extends (full_dataset (self s)) (full_dataset (self s')))
          (poll_cycle (start fuel) t k s).
Proof.
  apply (poll_cycle_cycles
           (fun s s' => extends (full_dataset (self s))
                                (full_dataset (self s')))).
  - intros s0. apply extends_refl.
  - intros s0 s1 s2. apply extends_trans.
  - intros t' e1 e2 s0 s1. apply extends_cycle.
  - intros s0 H0. apply start_extends, H0.
Qed.

(** The iteration that finds the socket cleared: the session relation
    holds from the state in which the new client has been accepted. *)
Lemma reentry_session (fuel : nat) (t : Q) (k : Z) (s : State) :
  client_socket (self s) = None ->
  reaches (session_rel (reconnected s)) (poll_cycle (start (S fuel)) t k s).
Proof.
  intros Hs.
  assert (H : reaches (session_rel (reconnected s)) (start (S fuel) s)).
  { rewrite start_unfold. apply reaches_bind.
    - apply poll_loop_session, start_session.
    - intros _ s1. destruct (finish_session_spec s1) as (s2 & -> & R & _).
      exact R. }
  rewrite (poll_cycle_disconnected _ t k s Hs).
  unfold bind at 1.
  destruct (start (S fuel) s) as [a s1|e s1|s1]; simpl in H |- *;
    try exact H.
  destruct (cycle_body_spec t k s1) as (s2 & e1 & e2 & E & C).
  rewrite E. simpl. eapply session_rel_trans; [exact H|].
  eapply cycle_step_session, C.
Qed.

Lemma start_cadence_from (fuel : nat) (s : State) :
  quiet (world s) ->
  reaches (fun s' =>
             exists rest,
               trace (world s')
               = trace (world s) ++ EvAccept (S (accepted (world s))) :: rest
               /\ led_game_cycles rest = tens (cycles_done rest / 10))
          (start (S fuel) s).
Proof.
  intros Hq. rewrite start_unfold.
  set (c := S (accepted (world s))).
  set (base := trace (world s) ++ [EvAccept c]).
  eapply reaches_bind_gen.
  - apply (poll_loop_steady c (cadence_from_holds base c)).
    + intros k s0 H. apply H.
    + intros k s0 (I1 & rel & I2 & I3 & I4).
      split; [apply steady_ticked, I1|]. exists rel. repeat split; assumption.
    + intros k s0 s1 evs (I1 & rel & I2 & I3 & I4)
             (S1 & S2 & S3 & S4 & S5 & S6 & S7 & S8).
      split; [exact S1|]. exists (rel ++ evs ++ [EvCycle]). subst k.
      split; [rewrite S4, I2, <- app_assoc; reflexivity|]. split.
      * rewrite !cycles_done_app, S5. cbn [cycles_done].
        replace (cycles_done rel + (0 + 1))%nat
          with (S (cycles_done rel)) by lia.
        apply next_counter_mod.
      * apply led_game_cycles_step; assumption.
    + split.
      * split; [reflexivity|exact Hq].
      * exists []. unfold base. cbn. rewrite app_nil_r.
        repeat split; reflexivity.
  - intros _ s1 (k & I1 & rel & I2 & I3 & I4).
    destruct (finish_session_events s1)
      as (s2 & evs & -> & T & C0 & K0 & _ & _ & _).
    simpl. exists (rel ++ evs). split.
    + rewrite T, I2. unfold base. rewrite <- !app_assoc. reflexivity.
    + unfold led_game_cycles in *.
      rewrite request_cycles_from_app, cycles_done_app, C0, Nat.add_0_r.
      rewrite (request_cycles_no_cycle _ _ evs C0), K0.
      cbn. rewrite app_nil_r. exact I4.
  - intros s1 (k & I1 & rel & I2 & I3 & I4). exists rel. split; [|exact I4].
    rewrite I2. unfold base. rewrite <- app_assoc. reflexivity.
Qed.

(** C7 (amended): a send or receive failure does not make the scheduler
    retry the iteration.  An iteration of a connected server always
    completes: it appends one record per channel from the caches and
    advances the counter.  If anything failed in it - a send, a [recv] or a
    log write, at whatever point - the client socket is closed and cleared,
    the close is the last thing the iteration does on the socket, and the
    requests sent before it are an initial part of the requests that were
    due: the others are skipped.  If nothing failed, the client is still
    connected and every request that was due went out.  The iteration that
    finds the socket cleared re-enters [start]: the first thing it does is
    accept a new client; the sequences of the dataset are kept and only
    grow, and the caches go on from their values.  The re-entered [start]
    counts its iterations afresh: while nothing fails in it, its
    auxiliary-game requests go out in its own iterations 10, 20, ... *)
Theorem failed_cycle_completes (restart : M unit) (t : Q) (k : Z)
        (s : State) (c : nat) :
  (client_socket (self s) = Some c ->
   exists s' evs1 evs2 us ur uw,
     poll_cycle restart t k s = Ok (next_counter k) s'
     /\ cycle_step t evs1 evs2 s s'
     /\ used_up us ur uw s s'
     /\ (faulty us ur uw ->
         client_socket (self s') = None
         /\ exists front rest,
              evs1 ++ evs2 = front ++ [EvClose c]
              /\ Forall not_close front
              /\ cycle_requests k = sent_kinds front ++ rest)
     /\ (~ faulty us ur uw ->
         client_socket (self s') = Some c
         /\ sent_kinds (evs1 ++ evs2) = cycle_requests k))
  /\ (forall s0 fuel k',
        client_socket (self s0) = None ->
        let s2 := state_of (poll_cycle (start (S fuel)) t k' s0) in
        extends (full_dataset (self s0)) (full_dataset (self s2))
        /\ exists rest,
             trace (world s2)
             = trace (world s0) ++ EvAccept (S (accepted (world s0))) :: rest
             /\ forall ch,
                  cache ch (self s2) = latest ch rest (cache ch (self s0)))
  /\ (forall s0 fuel,
        quiet (world s0) ->
        exists rest,
          trace (world (state_of (start (S fuel) s0)))
          = trace (world s0) ++ EvAccept (S (accepted (world s0))) :: rest
          /\ led_game_cycles rest = tens (cycles_done rest / 10)).
Proof.
  split; [|split].
  - intros Hc.
    destruct (cycle_body_outcome c t k s Hc)
      as (s' & evs & us & ur & uw & E & T & U & V).
    destruct (cycle_body_spec t k s) as (s1 & e1 & e2 & E1 & C).
    rewrite E in E1. injection E1 as <-.
    assert (Ev : evs = e1 ++ e2).
    { destruct C as (T1 & _). rewrite T in T1.
      apply app_inv_head in T1.
      rewrite (app_assoc e1 e2 [EvCycle]) in T1.
      apply app_inj_tail in T1. apply T1. }
    subst evs.
    exists s', e1, e2, us, ur, uw.
    split; [rewrite (poll_cycle_connected restart t k s c Hc); exact E|].
    split; [exact C|]. split; [exact U|].
    destruct V as [(F & Hs & K & _)|(F & Hs & front & rest & Ef & N & K)].
    + split.
      * intros Hf. destruct (faultless_not_faulty _ _ _ F Hf).
      * intros _. split; assumption.
    + split.
      * intros _. split; [exact Hs|]. exists front, rest.
        repeat split; assumption.
      * intros Hn. destruct (Hn F).
  - intros s0 fuel k' H0 s2. split.
    + exact (reaches_state_of _ _ (poll_cycle_extends (S fuel) t k' s0)).
    + destruct (reaches_state_of _ _ (reentry_session fuel t k' s0 H0))
        as (_ & evs & T & K & _).
      exists evs. split.
      * fold s2 in T. rewrite T. cbn. rewrite <- app_assoc. reflexivity.
      * intros ch. fold s2 in K. rewrite K. cbn.
        rewrite cache_set_client_socket. reflexivity.
  - intros s0 fuel Hq.
    exact (reaches_state_of _ _ (start_cadence_from fuel s0 Hq)).
Qed.

Lemma second_send_fails_cycle :
  exists s1,
    poll_cycle (start 0) 0 2 second_send_fails_state = Ok 3 s1
    /\ send_script (world s1) = []
    /\ trace (world s1)
       = [EvSend 1 (request_frame REQ_READ_ACCELERATION); EvClose 1; EvCycle].
Proof. eexists. vm_compute. repeat split. Qed.

Lemma first_recv_fails_cycle :
  exists s1,
    poll_cycle (start 0) 0 2 first_recv_fails_state = Ok 3 s1
    /\ recv_script (world s1) = []
    /\ trace (world s1)
       = [EvSend 1 (request_frame REQ_READ_ACCELERATION); EvClose 1; EvCycle].
Proof. eexists. vm_compute. repeat split. Qed.

Lemma dropped_state_quiet :
  client_socket (self dropped_state) = None
  /\ quiet (world dropped_state)
  /\ accepted (world dropped_state) = O.
Proof. vm_compute. repeat split; constructor. Qed.

Lemma dropped_state_restart :
  trace (world (state_of (start 20 dropped_state)))
  = trace (world dropped_state)
    ++ EvAccept 1
       :: skipn 4 (trace (world (state_of (start 20 dropped_state))))
  /\ cycles_done (skipn 4 (trace (world (state_of (start 20 dropped_state)))))
     = 15%nat.
Proof. vm_compute. split; reflexivity. Qed.

(** Reading the events that follow an accept off a trace. *)
Lemma restart_cadence_fifteen (X B rest : list Event) (c : nat) :
  X = B ++ EvAccept c :: rest ->
  X = B ++ EvAccept c :: skipn 4 X ->
  cycles_done (skipn 4 X) = 15%nat ->
  led_game_cycles rest = tens (cycles_done rest / 10) ->
  led_game_cycles (skipn 4 X) = [10%nat].
Proof.
  intros T T' C L. rewrite T in T' at 1. apply app_inv_head in T'.
  apply (f_equal (@tl Event)) in T'. cbn [tl] in T'.
  rewrite <- T', L. rewrite T', C. reflexivity.
Qed.

(** A failed second send and a failed first [recv]: in both iterations the
    acceleration request went out, the socket was closed, and the other
    requests were not sent; the session re-entered afterwards sends its
    auxiliary-game request in its own tenth iteration. *)
Lemma failed_cycle_completes_witness :
  (exists s',
      poll_cycle (start 0) 0 2 second_send_fails_state = Ok 3 s'
      /\ client_socket (self s') = None
      /\ trace (world s')
         = [EvSend 1 (request_frame REQ_READ_ACCELERATION); EvClose 1;
            EvCycle])
  /\ (exists s',
         poll_cycle (start 0) 0 2 first_recv_fails_state = Ok 3 s'
         /\ client_socket (self s') = None
         /\ trace (world s')
            = [EvSend 1 (request_frame REQ_READ_ACCELERATION); EvClose 1;
               EvCycle])
  /\ led_game_cycles
       (skipn 4 (trace (world (state_of (start 20 dropped_state)))))
     = [10%nat].
Proof.
  split; [|split].
  - destruct (failed_cycle_completes (start 0) 0 2 second_send_fails_state 1)
      as [H _].
    destruct (H eq_refl) as (s' & e1 & e2 & us & ur & uw & E & _ & U & F & _).
    destruct second_send_fails_cycle as (s1 & E' & S' & T').
    assert (Es : s' = s1).
    { pose proof (f_equal state_of (eq_trans (eq_sym E) E')) as Es.
      cbn [state_of] in Es. exact Es. }
    subst s'.
    exists s1. split; [exact E'|]. split; [|exact T'].
    apply F. left. destruct U as (U & _). rewrite S', app_nil_r in U.
    rewrite <- U. cbn. right. left. reflexivity.
  - destruct (failed_cycle_completes (start 0) 0 2 first_recv_fails_state 1)
      as [H _].
    destruct (H eq_refl) as (s' & e1 & e2 & us & ur & uw & E & _ & U & F & _).
    destruct first_recv_fails_cycle as (s1 & E' & S' & T').
    assert (Es : s' = s1).
    { pose proof (f_equal state_of (eq_trans (eq_sym E) E')) as Es.
      cbn [state_of] in Es. exact Es. }
    subst s'.
    exists s1. split; [exact E'|]. split; [|exact T'].
    apply F. right. left. destruct U as (_ & U & _).
    rewrite S', app_nil_r in U. rewrite <- U. cbn. left. reflexivity.
  - destruct (failed_cycle_completes (start 0) 0 2 second_send_fails_state 1)
      as (_ & _ & H).
    destruct dropped_state_quiet as (_ & Hq & Ha).
    destruct (H dropped_state 19%nat Hq) as (rest & T & L).
    destruct dropped_state_restart as (T' & C').
    rewrite Ha in T.
    exact (restart_cadence_fifteen _ _ _ _ T T' C' L).
Defined.

(** The claim as stated fails: the third iteration loses its connection at
    its first send; no acceleration request is ever sent for it, neither
    then nor after the reconnection, and the auxiliary-game request that
    the overall count puts at iteration 10 goes out at iteration 13, ten
    iterations after the reconnection. *)
Lemma reconnect_restarts_the_count :
  let s := run 40 reconnect_world in
  cycles_done (trace (world s)) = 19%nat
  /\ request_cycles_from REQ_READ_ACCELERATION 1 (trace (world s))
     = [1; 2; 4; 5; 6; 7; 8; 9; 10; 11; 12; 13; 14; 15; 16; 17; 18]%nat
  /\ led_game_cycles (trace (world s)) = [13%nat]
  /\ ~ In 10%nat (led_game_cycles (trace (world s))).
Proof.
  vm_compute. repeat split; try reflexivity.
  intros [H|[]]. discriminate H.
Qed.
